(** * OpenBare: the protocol codec, the server pool, the failover client,
      the discovery client and the edge relay handler

    A shallow embedding of the JavaScript sources
      client/src/codec.js, client/src/server-pool.js, client/src/index.js,
      client/src/discovery.js, edge/src/bare-protocol.js, edge/src/index.js
    and the properties stated about them.

    Conventions.
    - A JavaScript string is its sequence of UTF-16 code units ([jsstring]).
    - A completion is either a returned value or a thrown exception.
    - JavaScript numbers that take part in arithmetic (latencies) are IEEE-754
      binary64 values, as in the language; counters, priorities and
      timestamps, which the code only increments and compares, are integers.
    - Built-ins of the platform that the sources call are modelled after
      their standards (btoa/atob, JSON, Headers) or taken as variables of the
      enclosing section (the URL parser, Unicode case mapping, the decimal
      conversions of numbers). *)

From Stdlib Require Import Ascii String DecimalString Bool NArith ZArith Lia Floats Uint63 List.
From Stdlib Require Import FloatOps.
Import ListNotations.

Set Warnings "-inexact-float,-register-all".

(* ===================================================================== *)
(** * JavaScript strings                                                  *)
(* ===================================================================== *)

Definition jsstring := list N.

(** A literal of the source, as code units. *)
Definition js (s : string) : jsstring :=
  map N_of_ascii (list_ascii_of_string s).

Definition jsstring_eqb (a b : jsstring) : bool :=
  if list_eq_dec N.eq_dec a b then true else false.

(** [s.endsWith(c)] for a single code unit *)
Fixpoint ends_with (c : N) (s : jsstring) : bool :=
  match s with
  | [] => false
  | [x] => N.eqb x c
  | _ :: r => ends_with c r
  end.

(** Removal of trailing code units equal to [c]: [s.replace(/c+$/, '')]. *)
Fixpoint strip_trailing (c : N) (s : jsstring) : jsstring :=
  match s with
  | [] => []
  | x :: r =>
      match strip_trailing c r with
      | [] => if N.eqb x c then [] else [x]
      | r' => x :: r'
      end
  end.

Definition is_ascii (s : jsstring) : bool := forallb (fun c => N.ltb c 128) s.

Definition is_nil {A} (l : list A) : bool :=
  match l with [] => true | _ => false end.

Definition is_digit (c : N) : bool := (N.leb 48 c && N.leb c 57)%bool.

(** The text after a given prefix. *)
Fixpoint strip_prefix (p s : jsstring) : option jsstring :=
  match p, s with
  | [], _ => Some s
  | a :: p', b :: s' => if N.eqb a b then strip_prefix p' s' else None
  | _ :: _, [] => None
  end.

Definition ascii_lower (c : N) : N :=
  if (N.leb 65 c && N.leb c 90)%bool then (c + 32)%N else c.

(* ===================================================================== *)
(** * Completions                                                         *)
(* ===================================================================== *)

(** What is thrown: the built-in errors that the sources raise or catch,
    and an [Error] object with its name, [code], message and cause (the
    classes BareError and DiscoveryError, and the errors of the network). *)
Inductive JsError : Type :=
| TypeError (message : string)
| InvalidCharacterError
| SyntaxError
| Error (name : string) (code : string) (message : jsstring) (cause : option JsError).

(** [error.code]: undefined on the built-in errors. *)
Definition error_code (e : JsError) : option string :=
  match e with
  | Error _ c _ _ => Some c
  | _ => None
  end.

Inductive completion (A : Type) : Type :=
| Return (value : A)
| Throw (error : JsError).
Arguments Return {A} value.
Arguments Throw {A} error.

Definition bind {A B} (c : completion A) (k : A -> completion B) : completion B :=
  match c with
  | Return a => k a
  | Throw e => Throw e
  end.

Notation "x <- c ;; k" := (bind c (fun x => k))
  (at level 61, c at next level, right associativity).

(** [try { c } catch { h }] *)
Definition try_catch {A} (c : completion A) (h : JsError -> completion A) : completion A :=
  match c with
  | Return a => Return a
  | Throw e => h e
  end.

(* ===================================================================== *)
(** * Base64: btoa, atob and Buffer's 'binary' / 'base64' encodings       *)
(* ===================================================================== *)

Module Base64.
Local Open Scope N_scope.

(** The alphabet of RFC 4648, section 4: the code unit of a sextet. *)
Definition char_of (n : N) : N :=
  if N.ltb n 26 then 65 + n
  else if N.ltb n 52 then 97 + (n - 26)
  else if N.ltb n 62 then 48 + (n - 52)
  else if N.eqb n 62 then 43
  else 47.

Definition index_of (c : N) : option N :=
  if (N.leb 65 c && N.leb c 90)%bool then Some (c - 65)
  else if (N.leb 97 c && N.leb c 122)%bool then Some (c - 97 + 26)
  else if (N.leb 48 c && N.leb c 57)%bool then Some (c - 48 + 52)
  else if N.eqb c 43 then Some 62
  else if N.eqb c 47 then Some 63
  else None.

(** The alphabet that Buffer accepts when decoding: the standard one and
    the URL-safe one. *)
Definition index_of_lenient (c : N) : option N :=
  if N.eqb c 45 then Some 62
  else if N.eqb c 95 then Some 63
  else index_of c.

Definition pad : N := 61.

(** Three octets give four sextets; one or two trailing octets give two or
    three sextets and padding. *)
Fixpoint encode (bytes : list N) : jsstring :=
  match bytes with
  | [] => []
  | [a] => [char_of (a / 4); char_of ((a mod 4) * 16); pad; pad]
  | [a; b] =>
      [char_of (a / 4); char_of ((a mod 4) * 16 + b / 16);
       char_of ((b mod 16) * 4); pad]
  | a :: b :: c :: rest =>
      char_of (a / 4) :: char_of ((a mod 4) * 16 + b / 16)
      :: char_of ((b mod 16) * 4 + c / 64) :: char_of (c mod 64)
      :: encode rest
  end.

Fixpoint decode_sextets (s : list N) : list N :=
  match s with
  | a :: b :: c :: d :: rest =>
      (a * 4 + b / 16) :: ((b mod 16) * 16 + c / 4) :: ((c mod 4) * 64 + d)
      :: decode_sextets rest
  | [a; b; c] => [a * 4 + b / 16; (b mod 16) * 16 + c / 4]
  | [a; b] => [a * 4 + b / 16]
  | _ => []
  end.

Fixpoint indices (s : jsstring) : option (list N) :=
  match s with
  | [] => Some []
  | c :: r =>
      match index_of c, indices r with
      | Some n, Some ns => Some (n :: ns)
      | _, _ => None
      end
  end.

Definition is_ascii_whitespace (c : N) : bool :=
  (N.eqb c 9 || N.eqb c 10 || N.eqb c 12 || N.eqb c 13 || N.eqb c 32)%bool.

(** Removal of one or two trailing padding characters. *)
Definition strip_padding (s : jsstring) : jsstring :=
  match rev s with
  | a :: b :: r =>
      if N.eqb a pad then if N.eqb b pad then rev r else rev (b :: r) else s
  | [a] => if N.eqb a pad then [] else s
  | [] => s
  end.

(** [btoa(s)]: fails on a code unit above 0xFF, otherwise the Base64 of the
    octets. *)
Definition btoa (s : jsstring) : completion jsstring :=
  if forallb (fun c => N.leb c 255) s then Return (encode s)
  else Throw InvalidCharacterError.

(** [atob(s)]: the forgiving-base64 decode of the Infra standard. *)
Definition atob (s : jsstring) : completion jsstring :=
  let s1 := filter (fun c => negb (is_ascii_whitespace c)) s in
  let s2 := if Nat.eqb (Nat.modulo (length s1) 4) 0%nat then strip_padding s1 else s1 in
  if Nat.eqb (Nat.modulo (length s2) 4) 1%nat then Throw InvalidCharacterError
  else match indices s2 with
       | Some ns => Return (decode_sextets ns)
       | None => Throw InvalidCharacterError
       end.

(** [Buffer.from(s, 'binary')]: the low octet of every code unit. *)
Definition buffer_from_binary (s : jsstring) : list N :=
  map (fun c => c mod 256) s.

(** [buf.toString('binary')] *)
Definition buffer_to_binary (b : list N) : jsstring := b.

(** [buf.toString('base64')] *)
Definition buffer_to_base64 (b : list N) : jsstring := encode b.

(** [Buffer.from(s, 'base64')]: decoding stops at the first padding
    character and skips what is not in the alphabet. *)
Fixpoint lenient_sextets (s : jsstring) : list N :=
  match s with
  | [] => []
  | c :: r =>
      if N.eqb c pad then []
      else match index_of_lenient c with
           | Some n => n :: lenient_sextets r
           | None => lenient_sextets r
           end
  end.

Definition buffer_from_base64 (s : jsstring) : list N :=
  decode_sextets (lenient_sextets s).

End Base64.

(* ===================================================================== *)
(** * URLs of the platform                                                *)
(* ===================================================================== *)

(** The fields of a parsed [URL] object that the sources read. *)
Record URL : Type := mkURL {
  url_href : jsstring;
  url_origin : jsstring;
  url_protocol : jsstring;
  url_host : jsstring;
  url_port : jsstring;
  url_pathname : jsstring;
  url_search : jsstring
}.

(** A parser for plain absolute URLs, [scheme://host[:port][/path][?query][#fragment]].
    It stands in for the platform's parser where a statement is evaluated
    on an example; user information, percent-encoding and dot segments
    are outside it. *)
Fixpoint split_at (stop : N -> bool) (s : jsstring) : jsstring * jsstring :=
  match s with
  | [] => ([], [])
  | c :: r => if stop c then ([], s) else let (a, b) := split_at stop r in (c :: a, b)
  end.

Definition is_alpha (c : N) : bool :=
  ((N.leb 65 c && N.leb c 90) || (N.leb 97 c && N.leb c 122))%bool.


Definition plain_URL_parse (s : jsstring) : option URL :=
  let (scheme, r) := split_at (N.eqb 58) s in
  match strip_prefix (js "://") r with
  | None => None
  | Some r1 =>
      if (negb (is_nil scheme) && forallb is_alpha scheme)%bool then
        let sch := map ascii_lower scheme in
        let (authority, r2) :=
          split_at (fun c => (N.eqb c 47 || N.eqb c 63 || N.eqb c 35)%bool) r1 in
        let (hostname, portpart) := split_at (N.eqb 58) authority in
        let port := tl portpart in
        if (negb (is_nil hostname) && forallb is_digit port)%bool then
          let default :=
            (is_nil port
             || (jsstring_eqb sch (js "http") && jsstring_eqb port (js "80"))
             || (jsstring_eqb sch (js "https") && jsstring_eqb port (js "443")))%bool in
          let host := map ascii_lower hostname ++ (if default then [] else 58%N :: port) in
          let (path, r3) := split_at (fun c => (N.eqb c 63 || N.eqb c 35)%bool) r2 in
          let pathname := if is_nil path then js "/" else path in
          let (query, fragment) := split_at (N.eqb 35) r3 in
          let special :=
            existsb (jsstring_eqb sch) (map js ["http"; "https"; "ws"; "wss"; "ftp"]%string) in
          Some {| url_href := sch ++ js "://" ++ host ++ pathname ++ query ++ fragment;
                  url_origin := if special then sch ++ js "://" ++ host else js "null";
                  url_protocol := sch ++ js ":";
                  url_host := host;
                  url_port := if default then [] else port;
                  url_pathname := pathname;
                  url_search := if jsstring_eqb query (js "?") then [] else query |}
        else None
      else None
  end.

(* ===================================================================== *)
(** * JavaScript values                                                   *)
(* ===================================================================== *)

(** The values of JSON: what [JSON.parse] returns and what the sources
    hand to [JSON.stringify]. An object is the list of its own properties
    in property order. *)
Inductive Json : Type :=
| JNull
| JBool (b : bool)
| JNumber (x : float)
| JString (s : jsstring)
| JArray (items : list Json)
| JObject (props : list (jsstring * Json)).

(** An argument of a function that inspects its type. *)
Inductive JsValue : Type :=
| VUndefined
| VJson (j : Json)
| VOther (description : string).

Definition is_nan (x : float) : bool := negb (PrimFloat.eqb x x).

Definition is_finite (x : float) : bool :=
  (negb (is_nan x) && PrimFloat.ltb (PrimFloat.abs x) PrimFloat.infinity)%bool.

(** ToBoolean *)
Definition truthy (v : Json) : bool :=
  match v with
  | JNull => false
  | JBool b => b
  | JNumber x => negb (PrimFloat.eqb x 0 || is_nan x)
  | JString s => match s with [] => false | _ => true end
  | JArray _ | JObject _ => true
  end.

Definition isArray (v : Json) : bool :=
  match v with JArray _ => true | _ => false end.


(* ===================================================================== *)
(** * Own properties and their order                                      *)
(* ===================================================================== *)

Definition decimal_value (s : jsstring) : N :=
  fold_left (fun acc c => (acc * 10 + (c - 48))%N) s 0%N.

(** An array index: the canonical decimal form of an integer below
    2^32 - 1. Such keys come first among the own properties, in ascending
    order. *)
Definition array_index (k : jsstring) : option N :=
  match k with
  | [] => None
  | d :: r =>
      if (forallb is_digit k && (negb (N.eqb d 48) || match r with [] => true | _ => false end))%bool
      then if N.ltb (decimal_value k) 4294967295 then Some (decimal_value k) else None
      else None
  end.

Section Properties.
Context {V : Type}.

Fixpoint props_lookup (k : jsstring) (p : list (jsstring * V)) : option V :=
  match p with
  | [] => None
  | (k', v) :: r => if jsstring_eqb k' k then Some v else props_lookup k r
  end.

Fixpoint props_replace (k : jsstring) (v : V) (p : list (jsstring * V)) : list (jsstring * V) :=
  match p with
  | [] => []
  | (k', v') :: r =>
      if jsstring_eqb k' k then (k', v) :: r else (k', v') :: props_replace k v r
  end.

(** A new array-index key takes its place among the array-index keys. *)
Fixpoint props_insert_index (i : N) (k : jsstring) (v : V) (p : list (jsstring * V))
  : list (jsstring * V) :=
  match p with
  | [] => [(k, v)]
  | (k', v') :: r =>
      match array_index k' with
      | Some j => if N.ltb j i then (k', v') :: props_insert_index i k v r
                  else (k, v) :: p
      | None => (k, v) :: p
      end
  end.

(** CreateDataProperty on an ordinary object. *)
Definition props_define (k : jsstring) (v : V) (p : list (jsstring * V)) : list (jsstring * V) :=
  match props_lookup k p with
  | Some _ => props_replace k v p
  | None =>
      match array_index k with
      | Some i => props_insert_index i k v p
      | None => p ++ [(k, v)]
      end
  end.

End Properties.

(* ===================================================================== *)
(** * Objects made by an object literal and used as dictionaries          *)
(* ===================================================================== *)

(** What the dictionaries of the sources hold: a string, or an array built
    by the code from what it read and from strings. *)
Inductive Element : Type :=
| EString (s : jsstring)
| ENumber (x : float)
| EFunction (name : jsstring)
| EObjectPrototype.

Inductive DictValue : Type :=
| DString (s : jsstring)
| DArray (items : list Element).

(** The object that [[Prototype]] points to: %Object.prototype% after
    [{}], or an array once one has been assigned through [__proto__]. *)
Inductive Prototype : Type :=
| ProtoObject
| ProtoArray (items : list Element).

Record Dict : Type := mkDict {
  own : list (jsstring * DictValue);
  proto : Prototype
}.

(** [{}] *)
Definition empty_dict : Dict := {| own := []; proto := ProtoObject |}.

(** What reading a property gives. *)
Inductive Read : Type :=
| RUndefined
| RValue (v : DictValue)
| RElement (e : Element)
| RPrototypeArray (items : list Element).

Definition read_truthy (r : Read) : bool :=
  match r with
  | RUndefined => false
  | RValue (DString s) | RElement (EString s) => match s with [] => false | _ => true end
  | RElement (ENumber x) => negb (PrimFloat.eqb x 0 || is_nan x)
  | _ => true
  end.

Definition read_isArray (r : Read) : bool :=
  match r with
  | RValue (DArray _) | RPrototypeArray _ => true
  | _ => false
  end.

Definition proto_key : jsstring := js "__proto__".

(** The data properties of %Object.prototype%. *)
Definition object_prototype_names : list jsstring :=
  map js ["constructor"; "hasOwnProperty"; "isPrototypeOf"; "propertyIsEnumerable";
          "toLocaleString"; "toString"; "valueOf"; "__defineGetter__";
          "__defineSetter__"; "__lookupGetter__"; "__lookupSetter__"]%string.

Definition float_of_nat (n : nat) : float :=
  PrimFloat.of_uint63 (Uint63.of_Z (Z.of_nat n)).

(* ===================================================================== *)
(** * Numbers                                                             *)
(* ===================================================================== *)

Open Scope float_scope.

Definition two52 : float := 4503599627370496.

(** The largest integer that is not above [x], for [|x| < 2^52]: adding and
    removing 2^52 rounds to an integer. *)
Definition floor_small (x : float) : float :=
  let r := if PrimFloat.leb 0 x then (x + two52) - two52 else (x - two52) + two52 in
  if PrimFloat.ltb x r then r - 1 else r.

(** [Math.round(x)]: the nearest integer, a tie going up; NaN, the
    infinities and the integers are returned as they are; a zero result
    keeps the sign of [x]. *)
Definition Math_round (x : float) : float :=
  if PrimFloat.ltb (PrimFloat.abs x) two52 then
    let f := floor_small x in
    let y := if PrimFloat.leb 0.5 (x - f) then f + 1 else f in
    if (PrimFloat.eqb y 0 && PrimFloat.ltb (1 / x) 0)%bool then -0 else y
  else x.

Close Scope float_scope.

(* ===================================================================== *)
(** * A platform for the examples                                         *)
(* ===================================================================== *)

(** Stand-ins for what the host provides, enough to evaluate the examples:
    they agree with the host on the strings and numbers that occur there. *)

(** Decimal numerals. *)
Definition decimal_of_N (n : N) : jsstring :=
  js (NilZero.string_of_uint (N.to_uint n)).

Definition decimal_of_Z (z : Z) : jsstring :=
  js (NilZero.string_of_int (Z.to_int z)).

(** Case mapping of the code units of Latin-1; the others are kept. *)
Definition latin1_toLowerCase (s : jsstring) : jsstring :=
  map (fun c => if (N.leb 192 c && N.leb c 222 && negb (N.eqb c 215))%bool
                then (c + 32)%N else ascii_lower c) s.

(** The integer that a binary64 value is, if it is one. *)
Definition integer_of_float (x : float) : option Z :=
  match Prim2SF x with
  | S754_zero _ => Some 0%Z
  | S754_finite sign m e =>
      let magnitude :=
        if Z.leb 0 e then Some (Z.pos m * 2 ^ e)%Z
        else if Z.eqb (Z.modulo (Z.pos m) (2 ^ (- e))) 0 then Some (Z.pos m / 2 ^ (- e))%Z
        else None in
      option_map (fun v => if sign then (- v)%Z else v) magnitude
  | _ => None
  end.

(** Number::toString on the integers below 2^53 in absolute value, NaN and
    the infinities; the expansion of other numbers is left empty. *)
Definition integer_toString (x : float) : jsstring :=
  match integer_of_float x with
  | Some z => if Z.ltb (Z.abs z) 9007199254740992 then decimal_of_Z z else []
  | None =>
      if negb (PrimFloat.eqb x x) then js "NaN"
      else if PrimFloat.eqb x infinity then js "Infinity"
      else if PrimFloat.eqb x neg_infinity then js "-Infinity"
      else []
  end.

Definition float_of_Z (z : Z) : float :=
  if Z.ltb z 0 then PrimFloat.opp (PrimFloat.of_uint63 (Uint63.of_Z (- z)))
  else PrimFloat.of_uint63 (Uint63.of_Z z).

(** The value of a numeric literal that is an integer below 2^53 in
    absolute value; NaN stands for the others. *)
Definition integer_of_literal (s : jsstring) : float :=
  let (negative, digits) :=
    match s with
    | 45%N :: r => (true, r)
    | _ => (false, s)
    end in
  if (negb (is_nil digits) && forallb is_digit digits
      && N.ltb (decimal_value digits) 9007199254740992)%bool
  then float_of_Z (if negative then - Z.of_N (decimal_value digits)
                   else Z.of_N (decimal_value digits))%Z
  else nan.

(** [parseInt(s, 10)] on a string that is an integer literal. *)
Definition integer_parseInt (s : jsstring) : float := integer_of_literal s.

(** The methods of %Array.prototype% (ECMAScript 2023). *)
Definition array_prototype_names : list jsstring :=
  map js ["at"; "concat"; "constructor"; "copyWithin"; "entries"; "every"; "fill";
          "filter"; "find"; "findIndex"; "findLast"; "findLastIndex"; "flat";
          "flatMap"; "forEach"; "includes"; "indexOf"; "join"; "keys";
          "lastIndexOf"; "map"; "pop"; "push"; "reduce"; "reduceRight"; "reverse";
          "shift"; "slice"; "some"; "sort"; "splice"; "toLocaleString";
          "toReversed"; "toSorted"; "toSpliced"; "toString"; "unshift"; "values";
          "with"]%string.

Definition array_prototype_has (k : jsstring) : bool :=
  existsb (jsstring_eqb k) array_prototype_names.

(** The platform gives its errors no message here. *)
Definition no_message (e : JsError) : jsstring := [].

(* ===================================================================== *)
(** * Results of parsing and of fetching                                  *)
(* ===================================================================== *)

(** The result of reading a value at the head of a text. *)
Inductive parse_result (A : Type) : Type :=
| Parsed (a : A) (rest : jsstring)
| Malformed
| OutOfFuel.
Arguments Parsed {A} a rest.
Arguments Malformed {A}.
Arguments OutOfFuel {A}.

(** How one call of [bareFetch] ends for the client: resolved, with the
    time that [performance.now()] measured around it; or rejected, with the
    state of [options.signal?.aborted] read in the handler. *)
Inductive Attempt (R : Type) : Type :=
| Fetched (response : R) (elapsed : float)
| Failed (error : JsError) (signal_aborted : bool).
Arguments Fetched {R} response elapsed.
Arguments Failed {R} error signal_aborted.

Inductive FetchOutcome (R : Type) : Type :=
| Resolved (response : R)
| Rejected (error : JsError)
| NeverSettles.
Arguments Resolved {R} response.
Arguments Rejected {R} error.
Arguments NeverSettles {R}.


(** * The messages of the relay                                           *)

(** A header list: names in lower case, in the order of insertion. The
    checks that the class makes on names and values, and the trimming of
    values, are outside the model. *)
Definition Headers := list (jsstring * jsstring).

(** The incoming request. *)
Record Request (B : Type) : Type := mkRequest {
  request_method : jsstring;
  request_headers : Headers;
  request_body : B
}.
Arguments request_method {B} _.
Arguments request_headers {B} _.
Arguments request_body {B} _.

(** The response of the target, as [fetch] resolves with it. *)
Record Upstream (B : Type) : Type := mkUpstream {
  up_status : Z;
  up_statusText : jsstring;
  up_headers : Headers;
  up_body : B
}.
Arguments up_status {B} _.
Arguments up_statusText {B} _.
Arguments up_headers {B} _.
Arguments up_body {B} _.

(** The body of a response of the relay: the stream of the target, or a
    text. *)
Inductive Body (B : Type) : Type :=
| Stream (b : B)
| Text (t : jsstring).
Arguments Stream {B} b.
Arguments Text {B} t.

Record Response (B : Type) : Type := mkResponse {
  status : Z;
  headers : Headers;
  body : Body B
}.
Arguments status {B} _.
Arguments headers {B} _.
Arguments body {B} _.

(** What [parseBareHeaders] returns. *)
Record BareData : Type := mkBareData {
  bare_url : option jsstring;
  bare_headers : Json;
  forwardHeaders : Json;
  passHeaders : Json;
  passStatus : Json;
  bare_protocol : option jsstring;
  bare_host : option jsstring;
  bare_port : option jsstring;
  bare_path : option jsstring
}.

Section Platform.

(** What the host provides and the sources only call. *)

(** [new URL(s)]: [None] when the constructor throws. *)
Variable URL_parse : jsstring -> option URL.

(** [s.toLowerCase()] on a string with a code unit outside ASCII. *)
Variable unicode_toLowerCase : jsstring -> jsstring.

(** Number::toString and the value of a JSON numeric literal. *)
Variable Number_toString : float -> jsstring.
Variable Number_of_literal : jsstring -> float.

(** [typeof btoa === 'function'], [typeof atob === 'function'] *)
Variable btoa_defined : bool.
Variable atob_defined : bool.

(** The message text that the platform gives to an error it raises. *)
Variable platform_message : JsError -> jsstring.

(** [error.message] *)
Definition error_message (e : JsError) : jsstring :=
  match e with
  | TypeError m => js m
  | Error _ _ m _ => m
  | InvalidCharacterError | SyntaxError => platform_message e
  end.

(** [s.toLowerCase()] *)
Definition toLowerCase (s : jsstring) : jsstring :=
  if is_ascii s then map ascii_lower s else unicode_toLowerCase s.

(* ===================================================================== *)
(** * client/src/codec.js: the URL codec                                  *)
(* ===================================================================== *)

(** [xor(str, key = 2)]: [String.fromCharCode] keeps 16 bits. *)
Definition xor (str : JsValue) (key : N) : completion jsstring :=
  match str with
  | VJson (JString s) => Return (map (fun c => (N.lxor c key mod 65536)%N) s)
  | _ => Throw (TypeError "Input must be a string")
  end.

Definition encodeUrl (url : JsValue) : completion jsstring :=
  match url with
  | VJson (JString _) =>
      xored <- xor url 2 ;;
      if btoa_defined then Base64.btoa xored
      else Return (Base64.buffer_to_base64 (Base64.buffer_from_binary xored))
  | _ => Throw (TypeError "URL must be a string")
  end.

Definition decodeUrl (encoded : JsValue) : completion jsstring :=
  match encoded with
  | VJson (JString e) =>
      decoded <- (if atob_defined then Base64.atob e
                  else Return (Base64.buffer_to_binary (Base64.buffer_from_base64 e))) ;;
      xor (VJson (JString decoded)) 2
  | _ => Throw (TypeError "Encoded value must be a string")
  end.


(* ===================================================================== *)
(** * Dictionaries: reading, assigning, pushing                           *)
(* ===================================================================== *)

(** The names that %Array.prototype% defines (its methods and constructor). *)
Variable Array_prototype_has : jsstring -> bool.

(** A property found on %Object.prototype%: the accessor [__proto__]
    answers with the prototype of the receiver, the other names are
    methods. *)
Definition object_prototype_get (receiver_prototype : Read) (k : jsstring) : Read :=
  if jsstring_eqb k proto_key then receiver_prototype
  else if existsb (jsstring_eqb k) object_prototype_names then RElement (EFunction k)
  else RUndefined.

(** [d[k]] *)
Definition dict_get (d : Dict) (k : jsstring) : Read :=
  match props_lookup k (own d) with
  | Some v => RValue v
  | None =>
      match proto d with
      | ProtoObject => object_prototype_get (RElement EObjectPrototype) k
      | ProtoArray items =>
          let beyond :=
            if Array_prototype_has k then RElement (EFunction k)
            else object_prototype_get (RPrototypeArray items) k in
          if jsstring_eqb k (js "length")
          then RElement (ENumber (float_of_nat (length items)))
          else match array_index k with
               | Some i =>
                   match nth_error items (N.to_nat i) with
                   | Some e => RElement e
                   | None => beyond
                   end
               | None => beyond
               end
      end
  end.

(** [d[k] = s] for a string [s]: an own property is overwritten; the
    inherited setter of [__proto__] ignores a value that is not an object;
    any other key becomes an own property. *)
Definition dict_set_string (d : Dict) (k : jsstring) (s : jsstring) : Dict :=
  match props_lookup k (own d) with
  | Some _ => {| own := props_replace k (DString s) (own d); proto := proto d |}
  | None =>
      if jsstring_eqb k proto_key then d
      else {| own := props_define k (DString s) (own d); proto := proto d |}
  end.

(** [d[k] = [e1, ...]]: the inherited setter of [__proto__] makes the array
    the prototype of [d]. *)
Definition dict_set_array (d : Dict) (k : jsstring) (items : list Element) : Dict :=
  match props_lookup k (own d) with
  | Some _ => {| own := props_replace k (DArray items) (own d); proto := proto d |}
  | None =>
      if jsstring_eqb k proto_key then {| own := own d; proto := ProtoArray items |}
      else {| own := props_define k (DArray items) (own d); proto := proto d |}
  end.

(** [d[k].push(s)] where [d[k]] is an array: the own one, or the prototype
    itself when it was read through [__proto__]. *)
Definition dict_push (d : Dict) (k : jsstring) (s : jsstring) : Dict :=
  match props_lookup k (own d) with
  | Some (DArray items) =>
      {| own := props_replace k (DArray (items ++ [EString s])) (own d); proto := proto d |}
  | Some (DString _) => d
  | None =>
      match proto d with
      | ProtoArray items => {| own := own d; proto := ProtoArray (items ++ [EString s]) |}
      | ProtoObject => d
      end
  end.

(** What [JSON.stringify] sees of a dictionary: its own properties; inside
    an array a function is written as null, and %Object.prototype% has no
    enumerable property. *)
Definition element_json (e : Element) : Json :=
  match e with
  | EString s => JString s
  | ENumber x => JNumber x
  | EFunction _ => JNull
  | EObjectPrototype => JObject []
  end.

Definition dict_value_json (v : DictValue) : Json :=
  match v with
  | DString s => JString s
  | DArray items => JArray (map element_json items)
  end.

Definition dict_json (d : Dict) : Json :=
  JObject (map (fun kv => (fst kv, dict_value_json (snd kv))) (own d)).

(* ===================================================================== *)
(** * JSON.stringify                                                      *)
(* ===================================================================== *)

Definition hex_digit (n : N) : N :=
  if N.ltb n 10 then (48 + n)%N else (97 + (n - 10))%N.

Definition unicode_escape (c : N) : jsstring :=
  [92; 117; hex_digit (c / 4096); hex_digit ((c / 256) mod 16);
   hex_digit ((c / 16) mod 16); hex_digit (c mod 16)]%N.

Definition is_high_surrogate (c : N) : bool := (N.leb 55296 c && N.leb c 56319)%bool.
Definition is_low_surrogate (c : N) : bool := (N.leb 56320 c && N.leb c 57343)%bool.

(** QuoteJSONString, between the quotation marks. *)
Fixpoint quote_body (s : jsstring) : jsstring :=
  match s with
  | [] => []
  | c :: r =>
      if N.eqb c 8 then js "\b" ++ quote_body r
      else if N.eqb c 9 then js "\t" ++ quote_body r
      else if N.eqb c 10 then js "\n" ++ quote_body r
      else if N.eqb c 12 then js "\f" ++ quote_body r
      else if N.eqb c 13 then js "\r" ++ quote_body r
      else if N.eqb c 34 then [92; 34]%N ++ quote_body r
      else if N.eqb c 92 then [92; 92]%N ++ quote_body r
      else if N.ltb c 32 then unicode_escape c ++ quote_body r
      else if is_high_surrogate c then
        match r with
        | d :: r' =>
            if is_low_surrogate d then c :: d :: quote_body r'
            else unicode_escape c ++ quote_body r
        | [] => unicode_escape c
        end
      else if is_low_surrogate c then unicode_escape c ++ quote_body r
      else c :: quote_body r
  end.

Definition quote (s : jsstring) : jsstring := [34%N] ++ quote_body s ++ [34%N].

Fixpoint join (sep : jsstring) (parts : list jsstring) : jsstring :=
  match parts with
  | [] => []
  | [p] => p
  | p :: r => p ++ sep ++ join sep r
  end.

(** [JSON.stringify(v)] without indentation. *)
Fixpoint JSON_stringify (v : Json) : jsstring :=
  match v with
  | JNull => js "null"
  | JBool true => js "true"
  | JBool false => js "false"
  | JNumber x => if is_finite x then Number_toString x else js "null"
  | JString s => quote s
  | JArray items => js "[" ++ join (js ",") (map JSON_stringify items) ++ js "]"
  | JObject props =>
      js "{"
      ++ join (js ",") (map (fun kv => quote (fst kv) ++ js ":" ++ JSON_stringify (snd kv)) props)
      ++ js "}"
  end.

(* ===================================================================== *)
(** * JSON.parse                                                          *)
(* ===================================================================== *)


Definition is_json_whitespace (c : N) : bool :=
  (N.eqb c 9 || N.eqb c 10 || N.eqb c 13 || N.eqb c 32)%bool.

Fixpoint skip_ws (s : jsstring) : jsstring :=
  match s with
  | c :: r => if is_json_whitespace c then skip_ws r else s
  | [] => []
  end.

(** The text after a given first code unit. *)
Definition starts (c : N) (s : jsstring) : option jsstring :=
  match s with
  | x :: r => if N.eqb x c then Some r else None
  | [] => None
  end.

Definition hex_value (c : N) : option N :=
  if is_digit c then Some (c - 48)%N
  else if (N.leb 97 c && N.leb c 102)%bool then Some (c - 87)%N
  else if (N.leb 65 c && N.leb c 70)%bool then Some (c - 55)%N
  else None.

Definition hex4 (a b c d : N) : option N :=
  match hex_value a, hex_value b, hex_value c, hex_value d with
  | Some x, Some y, Some z, Some w => Some (x * 4096 + y * 256 + z * 16 + w)%N
  | _, _, _, _ => None
  end.

Definition simple_escape (e : N) : option N :=
  if N.eqb e 34 then Some 34%N
  else if N.eqb e 92 then Some 92%N
  else if N.eqb e 47 then Some 47%N
  else if N.eqb e 98 then Some 8%N
  else if N.eqb e 102 then Some 12%N
  else if N.eqb e 110 then Some 10%N
  else if N.eqb e 114 then Some 13%N
  else if N.eqb e 116 then Some 9%N
  else None.

Definition cons_string (c : N) (r : option (jsstring * jsstring)) : option (jsstring * jsstring) :=
  match r with
  | Some (s, rest) => Some (c :: s, rest)
  | None => None
  end.

(** A string of the grammar after its opening quotation mark: the string
    value and the text after the closing quotation mark. *)
Fixpoint parse_string_body (s : jsstring) : option (jsstring * jsstring) :=
  match s with
  | [] => None
  | c :: r =>
      if N.eqb c 34 then Some ([], r)
      else if N.eqb c 92 then
        match r with
        | e :: r' =>
            if N.eqb e 117 then
              match r' with
              | h1 :: h2 :: h3 :: h4 :: r'' =>
                  match hex4 h1 h2 h3 h4 with
                  | Some u => cons_string u (parse_string_body r'')
                  | None => None
                  end
              | _ => None
              end
            else match simple_escape e with
                 | Some u => cons_string u (parse_string_body r')
                 | None => None
                 end
        | [] => None
        end
      else if N.ltb c 32 then None
      else cons_string c (parse_string_body r)
  end.

Fixpoint span_digits (s : jsstring) : jsstring * jsstring :=
  match s with
  | c :: r => if is_digit c then let (d, rest) := span_digits r in (c :: d, rest) else ([], s)
  | [] => ([], [])
  end.

Definition scan_int (s : jsstring) : option (jsstring * jsstring) :=
  match s with
  | c :: r =>
      if N.eqb c 48 then Some ([c], r)
      else if is_digit c then let (d, rest) := span_digits r in Some (c :: d, rest)
      else None
  | [] => None
  end.

Definition scan_frac (s : jsstring) : option (jsstring * jsstring) :=
  match starts 46 s with
  | Some r =>
      match span_digits r with
      | ([], _) => None
      | (d, rest) => Some (46%N :: d, rest)
      end
  | None => Some ([], s)
  end.

Definition scan_exp (s : jsstring) : option (jsstring * jsstring) :=
  match s with
  | c :: r =>
      if (N.eqb c 101 || N.eqb c 69)%bool then
        let (sign, r1) :=
          match r with
          | x :: r' => if (N.eqb x 43 || N.eqb x 45)%bool then ([x], r') else ([], r)
          | [] => ([], r)
          end in
        match span_digits r1 with
        | ([], _) => None
        | (d, rest) => Some (c :: sign ++ d, rest)
        end
      else Some ([], s)
  | [] => Some ([], s)
  end.

(** The longest numeric literal at the head of the text. *)
Definition scan_number (s : jsstring) : option (jsstring * jsstring) :=
  let (neg, r0) := match starts 45 s with Some r => ([45%N], r) | None => ([], s) end in
  match scan_int r0 with
  | None => None
  | Some (i, r1) =>
      match scan_frac r1 with
      | None => None
      | Some (f, r2) =>
          match scan_exp r2 with
          | None => None
          | Some (e, r3) => Some (neg ++ i ++ f ++ e, r3)
          end
      end
  end.

Fixpoint parse_value (fuel : nat) (s : jsstring) : parse_result Json :=
  match fuel with
  | O => OutOfFuel
  | S fuel =>
      match skip_ws s with
      | [] => Malformed
      | c :: r =>
          if N.eqb c 34 then
            match parse_string_body r with
            | Some (str, rest) => Parsed (JString str) rest
            | None => Malformed
            end
          else if N.eqb c 91 then
            match starts 93 (skip_ws r) with
            | Some rest => Parsed (JArray []) rest
            | None => parse_elements fuel r []
            end
          else if N.eqb c 123 then
            match starts 125 (skip_ws r) with
            | Some rest => Parsed (JObject []) rest
            | None => parse_members fuel r []
            end
          else if (N.eqb c 45 || is_digit c)%bool then
            match scan_number (c :: r) with
            | Some (lexeme, rest) => Parsed (JNumber (Number_of_literal lexeme)) rest
            | None => Malformed
            end
          else
            match strip_prefix (js "true") (c :: r) with
            | Some rest => Parsed (JBool true) rest
            | None =>
                match strip_prefix (js "false") (c :: r) with
                | Some rest => Parsed (JBool false) rest
                | None =>
                    match strip_prefix (js "null") (c :: r) with
                    | Some rest => Parsed JNull rest
                    | None => Malformed
                    end
                end
            end
      end
  end
with parse_elements (fuel : nat) (s : jsstring) (acc : list Json) : parse_result Json :=
  match fuel with
  | O => OutOfFuel
  | S fuel =>
      match parse_value fuel s with
      | Parsed v rest =>
          match skip_ws rest with
          | c :: rest' =>
              if N.eqb c 44 then parse_elements fuel rest' (v :: acc)
              else if N.eqb c 93 then Parsed (JArray (rev (v :: acc))) rest'
              else Malformed
          | [] => Malformed
          end
      | Malformed => Malformed
      | OutOfFuel => OutOfFuel
      end
  end
with parse_members (fuel : nat) (s : jsstring) (acc : list (jsstring * Json)) : parse_result Json :=
  match fuel with
  | O => OutOfFuel
  | S fuel =>
      match starts 34 (skip_ws s) with
      | None => Malformed
      | Some r =>
          match parse_string_body r with
          | None => Malformed
          | Some (k, rest) =>
              match starts 58 (skip_ws rest) with
              | None => Malformed
              | Some rest' =>
                  match parse_value fuel rest' with
                  | Parsed v rest'' =>
                      match skip_ws rest'' with
                      | c :: r2 =>
                          if N.eqb c 44 then parse_members fuel r2 (props_define k v acc)
                          else if N.eqb c 125 then Parsed (JObject (props_define k v acc)) r2
                          else Malformed
                      | [] => Malformed
                      end
                  | Malformed => Malformed
                  | OutOfFuel => OutOfFuel
                  end
              end
          end
      end
  end.

(** [JSON.parse(text)] without reviver: a SyntaxError unless the whole text
    is one value. *)
Definition JSON_parse (text : jsstring) : completion Json :=
  match parse_value (2 * length text + 2) text with
  | Parsed v rest =>
      match skip_ws rest with
      | [] => Return v
      | _ :: _ => Throw SyntaxError
      end
  | Malformed | OutOfFuel => Throw SyntaxError
  end.

(* ===================================================================== *)
(** * Conversions of values                                               *)
(* ===================================================================== *)


Fixpoint indexed {A} (i : N) (l : list A) : list (jsstring * A) :=
  match l with
  | [] => []
  | x :: r => (decimal_of_N i, x) :: indexed (i + 1)%N r
  end.

(** [Object.entries(v)] for a value that is neither null nor undefined. *)
Definition Object_entries (v : Json) : list (jsstring * Json) :=
  match v with
  | JObject props => props
  | JArray items => indexed 0 items
  | JString s => indexed 0 (map (fun c => JString [c]) s)
  | JNull | JBool _ | JNumber _ => []
  end.

Fixpoint sequence {A} (l : list (completion A)) : completion (list A) :=
  match l with
  | [] => Return []
  | c :: r => x <- c ;; xs <- sequence r ;; Return (x :: xs)
  end.

(** ToString. An array joins its elements with commas (null gives the
    empty string); an object answers through %Object.prototype%.toString
    unless an own property hides it, which no JSON value can do with a
    function. *)
Fixpoint ToString (v : Json) : completion jsstring :=
  match v with
  | JNull => Return (js "null")
  | JBool true => Return (js "true")
  | JBool false => Return (js "false")
  | JNumber x => Return (Number_toString x)
  | JString s => Return s
  | JArray items =>
      parts <- sequence (map (fun i => match i with
                                       | JNull => Return []
                                       | _ => ToString i
                                       end) items) ;;
      Return (join (js ",") parts)
  | JObject props =>
      match props_lookup (js "toString") props with
      | Some _ => Throw (TypeError "Cannot convert object to primitive value")
      | None => Return (js "[object Object]")
      end
  end.

(* ===================================================================== *)
(** * client/src/codec.js: the header codec                               *)
(* ===================================================================== *)

(** The loop body [encoded[key.toLowerCase()] = String(value)]. *)
Definition encode_entry (encoded : completion Dict) (kv : jsstring * Json) : completion Dict :=
  d <- encoded ;;
  s <- ToString (snd kv) ;;
  Return (dict_set_string d (toLowerCase (fst kv)) s).

(** [encodeHeaders(headers)]; [None] is an omitted argument. *)
Definition encodeHeaders (headers : option Json) : completion jsstring :=
  match headers with
  | None | Some JNull | Some (JBool _) | Some (JNumber _) | Some (JString _) =>
      Return (js "{}")
  | Some ((JObject _ | JArray _) as h) =>
      encoded <- fold_left encode_entry (Object_entries h) (Return empty_dict) ;;
      Return (JSON_stringify (dict_json encoded))
  end.

(** [decodeHeaders(headerString)]; [None] is null or undefined, as
    [Headers.get] gives for an absent header. *)
Definition decodeHeaders (headerString : option jsstring) : completion Json :=
  match headerString with
  | None | Some [] => Return (JObject [])
  | Some text => try_catch (JSON_parse text) (fun _ => Return (JObject []))
  end.

(** A header map: string keys with string values, in property order. *)
Definition header_map := list (jsstring * jsstring).

Definition header_map_json (h : header_map) : Json :=
  JObject (map (fun kv => (fst kv, JString (snd kv))) h).

(** The map with every key lower-cased: each entry in turn defined under
    its lower-cased key. *)
Definition lower_cased (h : header_map) : header_map :=
  fold_left (fun acc kv => props_define (toLowerCase (fst kv)) (snd kv) acc) h [].

(* ===================================================================== *)
(** * client/src/server-pool.js                                           *)
(* ===================================================================== *)

Local Open Scope Z_scope.

Record ServerInfo : Type := mkServerInfo {
  url : jsstring;
  priority : Z;
  healthy : bool;
  latency : float;
  failCount : Z;
  lastCheck : Z;
  successCount : Z;
  totalRequests : Z
}.

(** The options as the constructor stores them. *)
Record PoolOptions : Type := mkPoolOptions {
  strategy : jsstring;
  healthCheckInterval : Z;
  maxFailures : Z;
  recoveryTime : Z;
  timeout : Z
}.

(** The options as a caller gives them: each may be left out. *)
Record PoolOptionsArg : Type := mkPoolOptionsArg {
  arg_strategy : option jsstring;
  arg_healthCheckInterval : option Z;
  arg_maxFailures : option Z;
  arg_recoveryTime : option Z;
  arg_timeout : option Z
}.

(** [#servers] is a Map from the normalized URL to its record: the records
    in insertion order, each under its own [url]. *)
Record ServerPool : Type := mkServerPool {
  servers : list ServerInfo;
  options : PoolOptions;
  roundRobinIndex : Z
}.

(** [x || d] on an optional number: 0 counts as absent. *)
Definition number_or (x : option Z) (d : Z) : Z :=
  match x with
  | Some v => if Z.eqb v 0 then d else v
  | None => d
  end.

Definition string_or (x : option jsstring) (d : jsstring) : jsstring :=
  match x with
  | Some ((_ :: _) as v) => v
  | _ => d
  end.

(** [new ServerPool(options)] *)
Definition new_ServerPool (o : PoolOptionsArg) : ServerPool :=
  {| servers := [];
     options := {| strategy := string_or (arg_strategy o) (js "fastest");
                   healthCheckInterval := number_or (arg_healthCheckInterval o) 30000;
                   maxFailures := number_or (arg_maxFailures o) 3;
                   recoveryTime := number_or (arg_recoveryTime o) 60000;
                   timeout := number_or (arg_timeout o) 5000 |};
     roundRobinIndex := 0 |}.

(** [#normalizeUrl(url)] *)
Definition normalizeUrl (u : jsstring) : jsstring :=
  match URL_parse u with
  | Some parsed => url_origin parsed ++ strip_trailing 47%N (url_pathname parsed)
  | None => strip_trailing 47%N u
  end.

(** [#servers.get(key)] *)
Fixpoint servers_get (key : jsstring) (l : list ServerInfo) : option ServerInfo :=
  match l with
  | [] => None
  | s :: r => if jsstring_eqb (url s) key then Some s else servers_get key r
  end.

(** A change made through the reference that [#servers.get(key)] returned. *)
Fixpoint servers_update (key : jsstring) (f : ServerInfo -> ServerInfo) (l : list ServerInfo)
  : list ServerInfo :=
  match l with
  | [] => []
  | s :: r => if jsstring_eqb (url s) key then f s :: r else s :: servers_update key f r
  end.

(** [#servers.delete(key)] *)
Fixpoint servers_delete (key : jsstring) (l : list ServerInfo) : list ServerInfo :=
  match l with
  | [] => []
  | s :: r => if jsstring_eqb (url s) key then r else s :: servers_delete key r
  end.

Definition set_servers (p : ServerPool) (l : list ServerInfo) : ServerPool :=
  {| servers := l; options := options p; roundRobinIndex := roundRobinIndex p |}.

Definition set_priority (v : Z) (s : ServerInfo) : ServerInfo :=
  {| url := url s; priority := v; healthy := healthy s; latency := latency s;
     failCount := failCount s; lastCheck := lastCheck s;
     successCount := successCount s; totalRequests := totalRequests s |}.

(** [addServer(url, priority = 10)]: the pool afterwards and the record
    returned. *)
Definition addServer (u : jsstring) (prio : option Z) (p : ServerPool) : ServerPool * ServerInfo :=
  let priority := match prio with Some v => v | None => 10 end in
  let normalizedUrl := normalizeUrl u in
  match servers_get normalizedUrl (servers p) with
  | Some existing =>
      (set_servers p (servers_update normalizedUrl (set_priority priority) (servers p)),
       set_priority priority existing)
  | None =>
      let serverInfo :=
        {| url := normalizedUrl; priority := priority; healthy := true;
           latency := infinity; failCount := 0; lastCheck := 0;
           successCount := 0; totalRequests := 0 |} in
      (set_servers p (servers p ++ [serverInfo]), serverInfo)
  end.

(** [removeServer(url)] *)
Definition removeServer (u : jsstring) (p : ServerPool) : ServerPool * bool :=
  let normalizedUrl := normalizeUrl u in
  match servers_get normalizedUrl (servers p) with
  | Some _ => (set_servers p (servers_delete normalizedUrl (servers p)), true)
  | None => (p, false)
  end.

(** [getAllServers()] *)
Definition getAllServers (p : ServerPool) : list ServerInfo := servers p.

(** The filter callback of [getHealthyServers]: the record after the call
    and whether it is kept. *)
Definition give_another_chance (now : Z) (recovery : Z) (server : ServerInfo) : ServerInfo * bool :=
  if healthy server then (server, true)
  else if Z.ltb recovery (now - lastCheck server) then
    ({| url := url server; priority := priority server; healthy := true;
        latency := latency server; failCount := 0; lastCheck := lastCheck server;
        successCount := successCount server; totalRequests := totalRequests server |},
     true)
  else (server, false).

(** [getHealthyServers()], with the value of [Date.now()]. *)
Definition getHealthyServers (now : Z) (p : ServerPool) : ServerPool * list ServerInfo :=
  let visited := map (give_another_chance now (recoveryTime (options p))) (servers p) in
  (set_servers p (map fst visited), map fst (filter snd visited)).

(** The callback of the reduction in [#selectFastest]. *)
Definition faster_of (best server : ServerInfo) : ServerInfo :=
  if PrimFloat.ltb (latency server) (latency best) then server
  else if (PrimFloat.eqb (latency server) (latency best)
           && Z.ltb (priority server) (priority best))%bool then server
  else best.

(** [array.reduce(f)] without initial value throws on an empty array. *)
Definition reduce {A} (f : A -> A -> A) (l : list A) : completion A :=
  match l with
  | [] => Throw (TypeError "Reduce of empty array with no initial value")
  | x :: r => Return (fold_left f r x)
  end.

Definition selectFastest (l : list ServerInfo) : completion ServerInfo :=
  reduce faster_of l.

Definition selectByPriority (l : list ServerInfo) : completion ServerInfo :=
  reduce (fun best server => if Z.ltb (priority server) (priority best) then server else best) l.

(** [#selectRoundRobin(servers)] on a non-empty array: the element chosen
    and the counter afterwards. *)
Definition selectRoundRobin (l : list ServerInfo) (counter : Z) : option ServerInfo * Z :=
  (nth_error l (Z.to_nat (Z.modulo counter (Z.of_nat (length l)))), counter + 1).

(** [selectServer()]: [None] is null. *)
Definition selectServer (now : Z) (p : ServerPool) : completion (ServerPool * option ServerInfo) :=
  let (p1, healthy) := getHealthyServers now p in
  match healthy with
  | [] => Return (p1, None)
  | _ :: _ =>
      if jsstring_eqb (strategy (options p1)) (js "round-robin") then
        let (chosen, counter) := selectRoundRobin healthy (roundRobinIndex p1) in
        Return ({| servers := servers p1; options := options p1; roundRobinIndex := counter |},
                chosen)
      else if jsstring_eqb (strategy (options p1)) (js "priority") then
        s <- selectByPriority healthy ;; Return (p1, Some s)
      else
        s <- selectFastest healthy ;; Return (p1, Some s)
  end.

(** [getNextServer(excludeUrl)] *)
Definition getNextServer (now : Z) (excludeUrl : jsstring) (p : ServerPool)
  : completion (ServerPool * option ServerInfo) :=
  let normalizedExclude := normalizeUrl excludeUrl in
  let (p1, all) := getHealthyServers now p in
  let healthy := filter (fun s => negb (jsstring_eqb (url s) normalizedExclude)) all in
  match healthy with
  | [] => Return (p1, None)
  | _ :: _ => s <- selectFastest healthy ;; Return (p1, Some s)
  end.

(** The latency after a success report; [None] is an argument that is not
    a number. *)
Definition updated_latency (old : float) (sample : option float) : float :=
  match sample with
  | Some l =>
      if PrimFloat.ltb 0 l then
        if PrimFloat.eqb old infinity then l
        else Math_round (old * 0.7 + l * 0.3)%float
      else old
  | None => old
  end.

(** [reportSuccess(url, latency)] *)
Definition reportSuccess (now : Z) (u : jsstring) (sample : option float) (p : ServerPool)
  : ServerPool :=
  set_servers p
    (servers_update (normalizeUrl u)
       (fun server =>
          {| url := url server; priority := priority server; healthy := true;
             latency := updated_latency (latency server) sample;
             failCount := 0; lastCheck := now;
             successCount := successCount server + 1;
             totalRequests := totalRequests server + 1 |})
       (servers p)).

(** [reportFailure(url)] *)
Definition reportFailure (now : Z) (u : jsstring) (p : ServerPool) : ServerPool :=
  set_servers p
    (servers_update (normalizeUrl u)
       (fun server =>
          {| url := url server; priority := priority server;
             healthy := if Z.leb (maxFailures (options p)) (failCount server + 1)
                        then false else healthy server;
             latency := latency server;
             failCount := failCount server + 1; lastCheck := now;
             successCount := successCount server;
             totalRequests := totalRequests server + 1 |})
       (servers p)).

(* ===================================================================== *)
(** * client/src/index.js: the failover client                            *)
(* ===================================================================== *)


(** The pool of the client and the number of readings of the clock so far. *)
Record ClientState : Type := mkClientState {
  pool : ServerPool;
  ticks : nat
}.

Section Client.

(** What [bareFetch] resolves with. *)
Variable BareResponse : Type.

(** The successive values of [Date.now()]. *)
Variable clock : nat -> Z.

(** The relay behind each server, for the target at hand: the outcome of
    the call made to a server at a given attempt. *)
Variable bareFetch : jsstring -> nat -> Attempt BareResponse.

(** [attemptedServers.add(u)] *)
Definition set_add (u : jsstring) (set : list jsstring) : list jsstring :=
  if existsb (jsstring_eqb u) set then set else set ++ [u].

(** [while (server && attemptedServers.has(server.url))
       server = this.#pool.getNextServer(server.url);]
    [None] when the loop is still running after [fuel] iterations. *)
Fixpoint next_untried (fuel : nat) (st : ClientState) (attempted : list jsstring)
    (server : option ServerInfo) : option (completion (ClientState * option ServerInfo)) :=
  match server with
  | None => Some (Return (st, None))
  | Some s =>
      if existsb (jsstring_eqb (url s)) attempted then
        match fuel with
        | O => None
        | S fuel' =>
            match getNextServer (clock (ticks st)) (url s) (pool st) with
            | Return (p', next) =>
                next_untried fuel' {| pool := p'; ticks := S (ticks st) |} attempted next
            | Throw e => Some (Throw e)
            end
        end
      else Some (Return (st, Some s))
  end.

(** The error thrown after the loop. *)
Definition all_servers_failed (attempted : list jsstring) (lastError : option JsError) : JsError :=
  Error "BareError" "ALL_SERVERS_FAILED"
    (js "All servers failed after " ++ decimal_of_N (N.of_nat (length attempted))
     ++ js " attempts: "
     ++ match lastError with
        | Some e => match error_message e with
                    | [] => js "Unknown error"
                    | m => m
                    end
        | None => js "Unknown error"
        end)
    lastError.

(** [error.code === 'ABORT' || options.signal?.aborted] *)
Definition is_abort (e : JsError) (signal_aborted : bool) : bool :=
  match error_code e with
  | Some c => (String.eqb c "ABORT" || signal_aborted)%bool
  | None => signal_aborted
  end.

(** The loop [for (let attempt = 0; attempt < maxRetries; attempt++)] with
    [remaining] iterations to go, and what follows it. *)
Fixpoint attempts (fuel : nat) (remaining : nat) (attempt : nat) (st : ClientState)
    (attempted : list jsstring) (lastError : option JsError)
  : FetchOutcome BareResponse * ClientState :=
  match remaining with
  | O => (Rejected (all_servers_failed attempted lastError), st)
  | S remaining' =>
      match selectServer (clock (ticks st)) (pool st) with
      | Throw e => (Rejected e, st)
      | Return (p1, selected) =>
          match next_untried fuel {| pool := p1; ticks := S (ticks st) |} attempted selected with
          | None => (NeverSettles, st)
          | Some (Throw e) => (Rejected e, st)
          | Some (Return (st2, None)) =>
              (Rejected (all_servers_failed attempted lastError), st2)
          | Some (Return (st2, Some server)) =>
              let attempted' := set_add (url server) attempted in
              match bareFetch (url server) attempt with
              | Fetched response elapsed =>
                  (Resolved response,
                   {| pool := reportSuccess (clock (ticks st2)) (url server) (Some elapsed) (pool st2);
                      ticks := S (ticks st2) |})
              | Failed error signal_aborted =>
                  let st3 :=
                    {| pool := reportFailure (clock (ticks st2)) (url server) (pool st2);
                       ticks := S (ticks st2) |} in
                  if is_abort error signal_aborted then (Rejected error, st3)
                  else attempts fuel remaining' (S attempt) st3 attempted' (Some error)
              end
          end
      end
  end.

(** [fetch(url, options)] with [maxRetries = options.retries || this.#options.retries]. *)
Definition OpenBareClient_fetch (fuel : nat) (client_retries : Z) (retries : option Z)
    (st : ClientState) : FetchOutcome BareResponse * ClientState :=
  attempts fuel (Z.to_nat (number_or retries client_retries)) 0 st [] None.

End Client.

(** The pool that [new OpenBareClient({ servers, strategy })] builds; the
    stored [retries] is [options.retries || 3]. *)
Definition new_client_pool (initial : list jsstring) (strategy_arg : option jsstring) : ServerPool :=
  fold_left (fun p u => fst (addServer u None p)) initial
    (new_ServerPool {| arg_strategy := Some (string_or strategy_arg (js "fastest"));
                       arg_healthCheckInterval := Some 30000;
                       arg_maxFailures := None;
                       arg_recoveryTime := None;
                       arg_timeout := Some 30000 |}).

(* ===================================================================== *)
(** * client/src/discovery.js                                             *)
(* ===================================================================== *)

(** A node as [#normalizeNode] returns it. *)
Record RegistryNode : Type := mkRegistryNode {
  node_url : jsstring;
  node_name : Json;
  node_region : Json;
  node_operator : Json;
  node_verified : bool;
  node_features : list Json;
  node_uptime : option float
}.

Record DiscoveryOptions : Type := mkDiscoveryOptions {
  opt_registryUrl : jsstring;
  refreshInterval : Z;
  autoRefresh : bool;
  opt_region : option jsstring;
  verifiedOnly : bool
}.

(** The private fields; a listener is known by its number. *)
Record Discovery : Type := mkDiscovery {
  registryUrl : jsstring;
  nodes : list RegistryNode;
  lastFetch : Z;
  discovery_options : DiscoveryOptions;
  listeners : list nat
}.

(** The argument of [fetchNodes]. *)
Record Filters : Type := mkFilters {
  filter_region : option jsstring;
  filter_verifiedOnly : bool;
  filter_features : option (list jsstring)
}.

(** What the registry answers to the GET: the request fails, or a response
    arrives with its [ok] flag, its status and what [response.json()]
    settles with. *)
Inductive RegistryReply : Type :=
| NetworkFailure (error : JsError)
| RegistryResponse (ok : bool) (status : Z) (json : completion Json).

(** [v.name] for a name that no built-in prototype defines: the own
    property of an object, undefined on any other value but null. *)
Definition get_property (name : jsstring) (v : Json) : completion (option Json) :=
  match v with
  | JNull => Throw (TypeError "Cannot read properties of null")
  | JObject props => Return (props_lookup name props)
  | _ => Return None
  end.

Definition option_truthy (v : option Json) : bool :=
  match v with Some j => truthy j | None => false end.

(** [#isValidNode(node)] *)
Definition isValidNode (node : Json) : bool :=
  match node with
  | JObject props =>
      match props_lookup (js "url") props with
      | Some (JString ((_ :: _) as u)) =>
          match URL_parse u with Some _ => true | None => false end
      | _ => false
      end
  | _ => false
  end.

Definition or_null (v : option Json) : Json :=
  match v with
  | Some j => if truthy j then j else JNull
  | None => JNull
  end.

(** [#normalizeNode(node)] on a node that [#isValidNode] accepted. *)
Definition normalizeNode (node : Json) : RegistryNode :=
  let field name :=
    match node with JObject props => props_lookup (js name) props | _ => None end in
  {| node_url := match field "url"%string with Some (JString u) => u | _ => [] end;
     node_name := or_null (field "name"%string);
     node_region := or_null (field "region"%string);
     node_operator := or_null (field "operator"%string);
     node_verified := option_truthy (field "verified"%string);
     node_features := match field "features"%string with Some (JArray l) => l | _ => [] end;
     node_uptime := match field "uptime"%string with Some (JNumber x) => Some x | _ => None end |}.

(** The query parameters that [fetchNodes] sets on the registry URL. *)
Definition query_parameters (o : DiscoveryOptions) (f : Filters) : list (jsstring * jsstring) :=
  (match filter_region f, opt_region o with
   | Some ((_ :: _) as r), _ => [(js "region", r)]
   | _, Some ((_ :: _) as r) => [(js "region", r)]
   | _, _ => []
   end)
  ++ (if (verifiedOnly o || filter_verifiedOnly f)%bool then [(js "verified", js "true")] else [])
  ++ (match filter_features f with
      | Some l => [(js "features", join (js ",") l)]
      | None => []
      end).

Section DiscoveryFetch.

(** The registry, as the network shows it: the reply to a GET of the
    registry URL with the given query parameters. *)
Variable registry : URL -> list (jsstring * jsstring) -> RegistryReply.

(** The body of the [try] block up to the value assigned to [#nodes]. *)
Definition fetched_nodes (f : Filters) (d : Discovery) : completion (list RegistryNode) :=
  match URL_parse (registryUrl d) with
  | None => Throw (TypeError "Invalid URL")
  | Some u =>
      match registry u (query_parameters (discovery_options d) f) with
      | NetworkFailure e => Throw e
      | RegistryResponse ok status body =>
          if negb ok then
            Throw (Error "Error" "" (js "Registry returned " ++ decimal_of_Z status) None)
          else
            data <- body ;;
            listed <- (match data with
                       | JArray _ => Return data
                       | _ =>
                           n <- get_property (js "nodes") data ;;
                           if option_truthy n then Return (or_null n)
                           else
                             s <- get_property (js "servers") data ;;
                             if option_truthy s then Return (or_null s)
                             else Return (JArray [])
                       end) ;;
            match listed with
            | JArray items => Return (map normalizeNode (filter isValidNode items))
            | _ => Throw (TypeError "nodes.filter is not a function")
            end
      end
  end.

(** [fetchNodes(filters)] with the value of [Date.now()]: what the promise
    settles with, the fields afterwards, and the calls made to the
    listeners, each with its copy of the nodes. *)
Definition fetchNodes (now : Z) (f : Filters) (d : Discovery)
  : completion (list RegistryNode) * Discovery * list (nat * list RegistryNode) :=
  match fetched_nodes f d with
  | Return ns =>
      (Return ns,
       {| registryUrl := registryUrl d; nodes := ns; lastFetch := now;
          discovery_options := discovery_options d; listeners := listeners d |},
       map (fun l => (l, ns)) (listeners d))
  | Throw e =>
      (Throw (Error "DiscoveryError" "FETCH_ERROR"
                (js "Failed to fetch nodes: " ++ error_message e) None),
       d, [])
  end.

(** The callback of the refresh timer: the error is logged and dropped. *)
Definition auto_refresh (now : Z) (d : Discovery) : Discovery * list (nat * list RegistryNode) :=
  let '(_, d', calls) := fetchNodes now {| filter_region := None;
                                           filter_verifiedOnly := false;
                                           filter_features := None |} d in
  (d', calls).

End DiscoveryFetch.

(** [new Discovery(options)] without automatic refresh. *)
Definition new_Discovery (registry_url : option jsstring) (interval : option Z)
    (region : option jsstring) (verified_only : bool) : Discovery :=
  let o := {| opt_registryUrl :=
                string_or registry_url (js "https://registry.openbare.org/api/v1/nodes");
              refreshInterval := number_or interval 300000;
              autoRefresh := false;
              opt_region := match region with Some ((_ :: _) as r) => Some r | _ => None end;
              verifiedOnly := verified_only |} in
  {| registryUrl := opt_registryUrl o; nodes := []; lastFetch := 0;
     discovery_options := o; listeners := [] |}.

(** [getTimeSinceLastFetch()]: [None] is Infinity. *)
Definition getTimeSinceLastFetch (now : Z) (d : Discovery) : option Z :=
  if Z.eqb (lastFetch d) 0 then None else Some (now - lastFetch d).

(** [isCacheStale(maxAge)] *)
Definition isCacheStale (now : Z) (maxAge : option Z) (d : Discovery) : bool :=
  match getTimeSinceLastFetch now d with
  | None => true
  | Some age => Z.ltb (number_or maxAge (refreshInterval (discovery_options d))) age
  end.

(** [clearCache()] *)
Definition clearCache (d : Discovery) : Discovery :=
  {| registryUrl := registryUrl d; nodes := []; lastFetch := 0;
     discovery_options := discovery_options d; listeners := listeners d |}.

(** [setRegistryUrl(url)] *)
Definition setRegistryUrl (u : jsstring) (d : Discovery) : Discovery :=
  clearCache {| registryUrl := u; nodes := nodes d; lastFetch := lastFetch d;
                discovery_options := discovery_options d; listeners := listeners d |}.

(* ===================================================================== *)
(** * The Headers class                                                   *)
(* ===================================================================== *)


Definition header_name (n : jsstring) : jsstring := map ascii_lower n.

Definition Headers_has (n : jsstring) (h : Headers) : bool :=
  existsb (fun kv => jsstring_eqb (fst kv) (header_name n)) h.

(** [h.get(n)]: the values under the name, joined; [None] is null. *)
Definition Headers_get (n : jsstring) (h : Headers) : option jsstring :=
  match filter (fun kv => jsstring_eqb (fst kv) (header_name n)) h with
  | [] => None
  | found => Some (join (js ", ") (map snd found))
  end.

(** [h.append(n, v)] *)
Definition Headers_append (n v : jsstring) (h : Headers) : Headers :=
  h ++ [(header_name n, v)].

Fixpoint set_first (n v : jsstring) (h : Headers) : Headers :=
  match h with
  | [] => []
  | (k, x) :: r =>
      if jsstring_eqb k n
      then (k, v) :: filter (fun kv => negb (jsstring_eqb (fst kv) n)) r
      else (k, x) :: set_first n v r
  end.

(** [h.set(n, v)]: the first header of that name takes the value and the
    others go; without one the header is appended. *)
Definition Headers_set (n v : jsstring) (h : Headers) : Headers :=
  if Headers_has n h then set_first (header_name n) v h
  else h ++ [(header_name n, v)].

(** [new Headers(record)] *)
Definition Headers_of (record : list (jsstring * jsstring)) : Headers :=
  fold_left (fun h kv => Headers_append (fst kv) (snd kv) h) record [].

Fixpoint jsstring_ltb (a b : jsstring) : bool :=
  match a, b with
  | _, [] => false
  | [], _ :: _ => true
  | x :: a', y :: b' => (N.ltb x y || (N.eqb x y && jsstring_ltb a' b'))%bool
  end.

Fixpoint insert_name (n : jsstring) (sorted : list jsstring) : list jsstring :=
  match sorted with
  | [] => [n]
  | m :: r =>
      if jsstring_eqb n m then sorted
      else if jsstring_ltb n m then n :: sorted
      else m :: insert_name n r
  end.

(** [h.entries()]: the names in ascending order, each once with its values
    joined, except set-cookie, which comes once per value. *)
Definition Headers_entries (h : Headers) : list (jsstring * jsstring) :=
  flat_map
    (fun n =>
       if jsstring_eqb n (js "set-cookie")
       then filter (fun kv => jsstring_eqb (fst kv) n) h
       else match Headers_get n h with
            | Some v => [(n, v)]
            | None => []
            end)
    (fold_left (fun names kv => insert_name (fst kv) names) h []).

(* ===================================================================== *)
(** * edge/src/index.js: constants                                        *)
(* ===================================================================== *)

Definition CORS_HEADERS : list (jsstring * jsstring) :=
  map (fun kv => (js (fst kv), js (snd kv)))
    [("Access-Control-Allow-Origin", "*");
     ("Access-Control-Allow-Methods", "GET, POST, PUT, DELETE, PATCH, HEAD, OPTIONS");
     ("Access-Control-Allow-Headers", "*");
     ("Access-Control-Expose-Headers", "*");
     ("Access-Control-Max-Age", "86400")]%string.

Definition STRIP_HEADERS : list jsstring :=
  map js
    ["x-frame-options";
     "content-security-policy";
     "content-security-policy-report-only";
     "x-content-type-options";
     "x-xss-protection";
     "strict-transport-security";
     "cross-origin-opener-policy";
     "cross-origin-embedder-policy";
     "cross-origin-resource-policy";
     "permissions-policy"]%string.

(* ===================================================================== *)
(** * edge/src/bare-protocol.js                                           *)
(* ===================================================================== *)

(** [parseInt(s, 10)] *)
Variable parseInt10 : jsstring -> float.


Definition is_trim_space (c : N) : bool :=
  ((N.leb 9 c && N.leb c 13) || N.eqb c 32 || N.eqb c 160 || N.eqb c 5760
   || (N.leb 8192 c && N.leb c 8202) || N.eqb c 8232 || N.eqb c 8233
   || N.eqb c 8239 || N.eqb c 8287 || N.eqb c 12288 || N.eqb c 65279)%bool.

Fixpoint trim_start (s : jsstring) : jsstring :=
  match s with
  | c :: r => if is_trim_space c then trim_start r else s
  | [] => []
  end.

(** [s.trim()] *)
Definition trim (s : jsstring) : jsstring := rev (trim_start (rev (trim_start s))).

(** [s.split(',')] *)
Fixpoint split_comma (s : jsstring) : list jsstring :=
  match s with
  | [] => [[]]
  | c :: r =>
      if N.eqb c 44 then [] :: split_comma r
      else match split_comma r with
           | p :: ps => (c :: p) :: ps
           | [] => [[c]]
           end
  end.

Definition present (v : option jsstring) : option jsstring :=
  match v with
  | Some ((_ :: _) as s) => Some s
  | _ => None
  end.

(** A list header: JSON when it parses, otherwise the comma list. *)
Definition list_header (raw : option jsstring) (item : jsstring -> Json) : Json :=
  match present raw with
  | None => JArray []
  | Some text =>
      match JSON_parse text with
      | Return v => v
      | Throw _ => JArray (map item (split_comma text))
      end
  end.

(** [parseBareHeaders(request)] *)
Definition parseBareHeaders {B} (request : Request B) : completion BareData :=
  let get n := Headers_get (js n) (request_headers request) in
  bareHeaders <- (match present (get "x-bare-headers"%string) with
                  | None => Return (JObject [])
                  | Some raw =>
                      try_catch (JSON_parse raw)
                        (fun _ => Throw (Error "BareError" "INVALID_BARE_HEADERS"
                                           (js "x-bare-headers is not valid JSON") None))
                  end) ;;
  Return {| bare_url := get "x-bare-url"%string;
            bare_headers := bareHeaders;
            forwardHeaders := list_header (get "x-bare-forward-headers"%string)
                                (fun h => JString (trim h));
            passHeaders := list_header (get "x-bare-pass-headers"%string)
                             (fun h => JString (trim h));
            passStatus := list_header (get "x-bare-pass-status"%string)
                            (fun s => JNumber (parseInt10 (trim s)));
            bare_protocol := get "x-bare-protocol"%string;
            bare_host := get "x-bare-host"%string;
            bare_port := get "x-bare-port"%string;
            bare_path := get "x-bare-path"%string |}.

(** The HTTP status that a BareError carries. *)
Definition bare_error (code : string) (message : string) : JsError :=
  Error "BareError" code (js message) None.

(** [buildTargetUrl(bareData)] *)
Definition buildTargetUrl (bareData : BareData) : completion URL :=
  match present (bare_url bareData) with
  | Some u =>
      match URL_parse u with
      | Some parsed => Return parsed
      | None => Throw (bare_error "INVALID_BARE_URL" "x-bare-url is not a valid URL")
      end
  | None =>
      match present (bare_protocol bareData), present (bare_host bareData),
            present (bare_path bareData) with
      | Some protocol, Some host, Some path =>
          let port := match present (bare_port bareData) with
                      | Some p => js ":" ++ p
                      | None => []
                      end in
          match URL_parse (protocol ++ js "//" ++ host ++ port ++ path) with
          | Some parsed => Return parsed
          | None => Throw (bare_error "INVALID_BARE_COMPONENTS"
                             "Cannot construct valid URL from bare components")
          end
      | _, _, _ => Throw (bare_error "MISSING_BARE_URL" "x-bare-url header is required")
      end
  end.

(** [for (const x of v)]: the elements of an array, the code points of a
    string; nothing else among the values of JSON can be iterated. *)
Fixpoint code_points (s : jsstring) : list jsstring :=
  match s with
  | [] => []
  | c :: r =>
      match r with
      | d :: r' =>
          if (is_high_surrogate c && is_low_surrogate d)%bool
          then [c; d] :: code_points r'
          else [c] :: code_points r
      | [] => [[c]]
      end
  end.

Definition iterate (v : Json) : completion (list Json) :=
  match v with
  | JArray items => Return items
  | JString s => Return (map JString (code_points s))
  | _ => Throw (TypeError "bareData.forwardHeaders is not iterable")
  end.

(** [Object.entries(v)] *)
Definition entries_of (v : Json) : completion (list (jsstring * Json)) :=
  match v with
  | JNull => Throw (TypeError "Cannot convert undefined or null to object")
  | _ => Return (Object_entries v)
  end.

(** The body of the first loop of [buildOutgoingHeaders]. *)
Definition add_bare_header (h : completion Headers) (kv : jsstring * Json) : completion Headers :=
  hs <- h ;;
  match snd kv with
  | JArray values =>
      fold_left (fun acc v => a <- acc ;; s <- ToString v ;;
                              Return (Headers_append (fst kv) s a))
        values (Return hs)
  | value => s <- ToString value ;; Return (Headers_set (fst kv) s hs)
  end.

(** The body of its second loop. *)
Definition forward_header {B} (originalRequest : Request B) (h : completion Headers)
    (header : Json) : completion Headers :=
  hs <- h ;;
  name <- ToString header ;;
  match Headers_get name (request_headers originalRequest) with
  | Some value => Return (Headers_set name value hs)
  | None => Return hs
  end.

(** [buildOutgoingHeaders(bareData, originalRequest)] *)
Definition buildOutgoingHeaders {B} (bareData : BareData) (originalRequest : Request B)
  : completion Headers :=
  entries <- entries_of (bare_headers bareData) ;;
  bare <- fold_left add_bare_header entries (Return []) ;;
  names <- iterate (forwardHeaders bareData) ;;
  fold_left (forward_header originalRequest) names (Return bare).

Definition element_truthy (e : Element) : bool :=
  match e with
  | EString [] => false
  | ENumber x => negb (PrimFloat.eqb x 0 || is_nan x)
  | _ => true
  end.

(** The body of the loop of [buildBareResponseHeaders] that collects the
    headers of the response. *)
Definition collect_header (stripHeaders : list jsstring) (responseHeaders : Dict)
    (entry : jsstring * jsstring) : Dict :=
  let (key, value) := entry in
  let lowerKey := toLowerCase key in
  if existsb (jsstring_eqb lowerKey) stripHeaders then responseHeaders
  else
    match dict_get responseHeaders key with
    | RValue (DArray _) | RPrototypeArray _ => dict_push responseHeaders key value
    | RValue (DString ((_ :: _) as s)) =>
        dict_set_array responseHeaders key [EString s; EString value]
    | RElement e =>
        if element_truthy e then dict_set_array responseHeaders key [e; EString value]
        else dict_set_string responseHeaders key value
    | RValue (DString []) | RUndefined => dict_set_string responseHeaders key value
    end.

(** The object [responseHeaders] after the loop. *)
Definition collected_headers (response_headers : Headers) (stripHeaders : list jsstring) : Dict :=
  fold_left (collect_header stripHeaders) (Headers_entries response_headers) empty_dict.

Definition pass_through (name : string) (from : Headers) (h : Headers) : Headers :=
  match present (Headers_get (js name) from) with
  | Some v => Headers_set (js name) v h
  | None => h
  end.

(** [buildBareResponseHeaders(response, corsHeaders, stripHeaders)] *)
Definition buildBareResponseHeaders {B} (response : Upstream B)
    (corsHeaders : list (jsstring * jsstring)) (stripHeaders : list jsstring) : Headers :=
  let headers := Headers_of corsHeaders in
  let responseHeaders := collected_headers (up_headers response) stripHeaders in
  let headers := Headers_set (js "x-bare-status") (decimal_of_Z (up_status response)) headers in
  let headers := Headers_set (js "x-bare-status-text") (up_statusText response) headers in
  let headers := Headers_set (js "x-bare-headers") (JSON_stringify (dict_json responseHeaders))
                   headers in
  let headers := pass_through "content-type" (up_headers response) headers in
  let headers := pass_through "content-length" (up_headers response) headers in
  pass_through "content-encoding" (up_headers response) headers.

Section Relay.

(** The type of a body stream. *)
Variable B : Type.

(** [fetch(url, { method, headers, redirect: 'manual', body })] towards the
    target. *)
Variable fetch : jsstring -> jsstring -> Headers -> option B -> completion (Upstream B).

(** [crypto.randomUUID()] *)
Variable randomUUID : jsstring.

(** The JSON error response of the relay. *)
Definition error_response (http_status : Z) (code : jsstring) (message : jsstring)
    (corsHeaders : list (jsstring * jsstring)) : Response B :=
  {| status := http_status;
     headers := Headers_of ((js "Content-Type", js "application/json") :: corsHeaders);
     body := Text (JSON_stringify
                     (JObject [(js "error", JBool true);
                               (js "code", JString code);
                               (js "message", JString message);
                               (js "id", JString randomUUID)])) |}.

(** The [try] block of [handleBareV3Request] up to the response of the
    target. *)
Definition proxied (request : Request B) : completion (Upstream B) :=
  bareData <- parseBareHeaders request ;;
  targetUrl <- buildTargetUrl bareData ;;
  if negb (existsb (jsstring_eqb (url_protocol targetUrl)) [js "http:"; js "https:"]) then
    Throw (bare_error "INVALID_PROTOCOL" "Only HTTP and HTTPS protocols are supported")
  else
    outgoingHeaders <- buildOutgoingHeaders bareData request ;;
    fetch (url_href targetUrl) (request_method request) outgoingHeaders
      (if existsb (jsstring_eqb (request_method request)) [js "GET"; js "HEAD"]
       then None else Some (request_body request)).

(** [handleBareV3Request(request, env, corsHeaders, stripHeaders)]; every
    BareError that the block throws carries the status 400. *)
Definition handleBareV3Request (request : Request B)
    (corsHeaders : list (jsstring * jsstring)) (stripHeaders : list jsstring) : Response B :=
  match proxied request with
  | Return response =>
      {| status := 200;
         headers := buildBareResponseHeaders response corsHeaders stripHeaders;
         body := Stream (up_body response) |}
  | Throw (Error "BareError" code message _) =>
      error_response 400 (js code) message corsHeaders
  | Throw e =>
      error_response 500 (js "FETCH_ERROR")
        (match error_message e with
         | [] => js "Failed to fetch target URL"
         | m => m
         end)
        corsHeaders
  end.

(** [handleBareV3] of edge/src/index.js, for a request that asks for no
    upgrade. *)
Definition handleBareV3 (request : Request B) : Response B :=
  handleBareV3Request request CORS_HEADERS STRIP_HEADERS.

End Relay.

(* ===================================================================== *)
(** * client/src/server-pool.js: the fallback order, successive calls     *)
(* ===================================================================== *)

(** The callback of [urls.forEach] in [setFallbackOrder], with the index
    of the element: a URL that the pool does not hold changes nothing. *)
Definition set_fallback (l : list ServerInfo) (entry : nat * jsstring) : list ServerInfo :=
  servers_update (normalizeUrl (snd entry)) (set_priority (Z.of_nat (fst entry) + 1)) l.

(** [setFallbackOrder(urls)] *)
Definition setFallbackOrder (urls : list jsstring) (p : ServerPool) : ServerPool :=
  set_servers p (fold_left set_fallback (combine (seq 0 (length urls)) urls) (servers p)).

(** Successive calls of [selectServer()], one at each of the given values
    of [Date.now()]: the pool afterwards and what the calls returned. *)
Fixpoint selectServer_calls (times : list Z) (p : ServerPool)
  : completion (ServerPool * list (option ServerInfo)) :=
  match times with
  | [] => Return (p, [])
  | now :: later =>
      r <- selectServer now p ;;
      rest <- selectServer_calls later (fst r) ;;
      Return (fst rest, snd r :: snd rest)
  end.

(* ===================================================================== *)
(** * client/src/codec.js: createBareUrl                                  *)
(* ===================================================================== *)

(** [createBareUrl(baseUrl, _targetUrl)]; the second argument is not
    read. *)
Definition createBareUrl (baseUrl : jsstring) : jsstring :=
  (if ends_with 47%N baseUrl then removelast baseUrl else baseUrl) ++ js "/v3/".

(* ===================================================================== *)
(** * client/src/bare-fetch.js                                            *)
(* ===================================================================== *)

(** [error.name] *)
Definition error_name (e : JsError) : string :=
  match e with
  | TypeError _ => "TypeError"
  | InvalidCharacterError => "InvalidCharacterError"
  | SyntaxError => "SyntaxError"
  | Error name _ _ _ => name
  end.

(** The URL that [bareFetch] requests. *)
Definition bare_endpoint (bareServer : jsstring) : jsstring :=
  if ends_with 47%N bareServer then bareServer ++ js "v3/" else bareServer ++ js "/v3/".

(** The object [bareHeaders], as its properties in order of insertion. *)
Definition bare_request_headers (targetUrl : jsstring) (parsedTarget : URL) (headers : Json)
  : completion (list (jsstring * jsstring)) :=
  encoded <- encodeHeaders (Some headers) ;;
  let bareHeaders :=
    [(js "x-bare-url", targetUrl);
     (js "x-bare-headers", encoded);
     (js "content-type", js "text/plain");
     (js "x-bare-host", url_host parsedTarget);
     (js "x-bare-port",
      match url_port parsedTarget with
      | [] => if jsstring_eqb (url_protocol parsedTarget) (js "https:")
              then js "443" else js "80"
      | port => port
      end);
     (js "x-bare-protocol", url_protocol parsedTarget);
     (js "x-bare-path", url_pathname parsedTarget ++ url_search parsedTarget)] in
  contentType <- get_property (js "content-type") headers ;;
  Return (if option_truthy contentType
          then bareHeaders
               ++ [(js "x-bare-forward-headers",
                    JSON_stringify (JArray [JString (js "content-type")]))]
          else bareHeaders).

Section BareFetch.

(** The type of a body. *)
Variable Stream : Type.

(** The options that shape the request; [None] is a property left
    undefined. The timeout and the signal act through the outcome of
    [fetch]. *)
Record BareFetchOptions : Type := mkBareFetchOptions {
  option_method : option jsstring;
  option_headers : option Json;
  option_body : option Stream
}.

(** What [fetch] resolves with. *)
Record RelayReply : Type := mkRelayReply {
  reply_status : Z;
  reply_statusText : jsstring;
  reply_headers : Headers;
  reply_body : option Stream
}.

(** The data properties of what [bareFetch] resolves with. *)
Record BareResponse : Type := mkBareResponse {
  response_status : float;
  response_statusText : jsstring;
  response_headers : Headers;
  response_body : option Stream;
  response_ok : bool;
  response_url : jsstring
}.

(** [fetch(bareUrl, { method, headers: bareHeaders, body, signal, ... })]:
    the reply of the relay, or a rejection; the timeout and the signal of
    the caller show as a rejection named AbortError. *)
Variable fetch : jsstring -> jsstring -> list (jsstring * jsstring) -> option Stream
                 -> completion RelayReply.

(** [new Headers(init)] on what [decodeHeaders] returned. *)
Variable new_Headers : Json -> completion Headers.

(** The part of the [try] block after [fetch]. *)
Definition bare_response (targetUrl : jsstring) (response : RelayReply)
  : completion BareResponse :=
  let responseStatus :=
    parseInt10 (match present (Headers_get (js "x-bare-status") (reply_headers response)) with
                | Some s => s
                | None => decimal_of_Z (reply_status response)
                end) in
  let responseStatusText :=
    match present (Headers_get (js "x-bare-status-text") (reply_headers response)) with
    | Some s => s
    | None => reply_statusText response
    end in
  decoded <- decodeHeaders (Headers_get (js "x-bare-headers") (reply_headers response)) ;;
  responseHeaders <- new_Headers decoded ;;
  Return {| response_status := responseStatus;
            response_statusText := responseStatusText;
            response_headers := responseHeaders;
            response_body := reply_body response;
            response_ok := (PrimFloat.leb 200 responseStatus
                            && PrimFloat.ltb responseStatus 300)%bool;
            response_url := targetUrl |}.

(** [bareFetch(bareServer, targetUrl, options)] *)
Definition bareFetch (bareServer : JsValue) (targetUrl : jsstring) (options : BareFetchOptions)
  : completion BareResponse :=
  match bareServer with
  | VJson (JString ((_ :: _) as server)) =>
      match URL_parse targetUrl with
      | None => Throw (Error "BareError" "INVALID_URL" (js "Invalid target URL") None)
      | Some parsedTarget =>
          try_catch
            (bareHeaders <- bare_request_headers targetUrl parsedTarget
                              (match option_headers options with
                               | Some h => h
                               | None => JObject []
                               end) ;;
             response <- fetch (bare_endpoint server)
                           (match option_method options with
                            | Some m => m
                            | None => js "GET"
                            end)
                           bareHeaders (option_body options) ;;
             bare_response targetUrl response)
            (fun error =>
               if String.eqb (error_name error) "AbortError"
               then Throw (Error "BareError" "TIMEOUT" (js "Request timed out") None)
               else Throw (Error "BareError" "FETCH_ERROR"
                             (js "Fetch failed: " ++ error_message error) (Some error)))
      end
  | _ => Throw (Error "BareError" "INVALID_SERVER" (js "Invalid bare server URL") None)
  end.

End BareFetch.

(* ===================================================================== *)
(** * edge/src/index.js: stripHeaders                                     *)
(* ===================================================================== *)

(** [h.delete(n)] *)
Definition Headers_delete (n : jsstring) (h : Headers) : Headers :=
  filter (fun kv => negb (jsstring_eqb (fst kv) (header_name n))) h.

(** [stripHeaders(headers, toStrip)] on a [Headers] object. *)
Definition stripHeaders (headers : Headers) (toStrip : list jsstring) : Headers :=
  fold_left (fun h n => Headers_delete n h) toStrip headers.

(* ===================================================================== *)
(** * edge/src/bare-protocol.js: the legacy handler                       *)
(* ===================================================================== *)

Section LegacyRelay.

Variable B : Type.
Variable fetch : jsstring -> jsstring -> Headers -> option B -> completion (Upstream B).
Variable randomUUID : jsstring.

(** [url.searchParams.get(name)]: [None] is null. *)
Variable searchParams_get : URL -> jsstring -> option jsstring.

(** The description of the server that the bare root returns. *)
Definition bare_root_info : Json :=
  JObject [(js "versions", JArray [JString (js "v1"); JString (js "v2"); JString (js "v3")]);
           (js "language", JString (js "Cloudflare Workers"));
           (js "project", JObject [(js "name", JString (js "openbare-edge"));
                                   (js "version", JString (js "1.0.0"))])].

(** [handleBareRequest(request, env, corsHeaders, stripHeaders)], with
    [request.url]. *)
Definition handleBareRequest (request_url : jsstring) (request : Request B)
    (corsHeaders : list (jsstring * jsstring)) (stripHeaders : list jsstring)
  : completion (Response B) :=
  match URL_parse request_url with
  | None => Throw (TypeError "Invalid URL")
  | Some url =>
      let targetUrl :=
        match present (searchParams_get url (js "url")) with
        | Some t => Some t
        | None => Headers_get (js "x-bare-url") (request_headers request)
        end in
      match present targetUrl with
      | None =>
          Return {| status := 200;
                    headers := Headers_of ((js "Content-Type", js "application/json")
                                           :: corsHeaders);
                    body := Text (JSON_stringify bare_root_info) |}
      | Some _ =>
          Return (handleBareV3Request B fetch randomUUID request corsHeaders stripHeaders)
      end
  end.

End LegacyRelay.

(* ===================================================================== *)
(** * client/src/index.js: discover                                       *)
(* ===================================================================== *)

Section Discover.

Variable registry : URL -> list (jsstring * jsstring) -> RegistryReply.

(** [for (const node of nodes) this.addServer(node.url)]: the priority is
    left out. *)
Definition add_discovered (p : ServerPool) (discovered : list RegistryNode) : ServerPool :=
  fold_left (fun p n => fst (addServer (node_url n) None p)) discovered p.

(** [discover(registryUrl)] with the value of [Date.now()], the registry
    URL of the options of the client ([None] is null) and the fields
    [#discovery] and [#pool]: what the promise settles with and the two
    fields afterwards. A listener that [#setupDiscovery] registered adds
    the same servers. *)
Definition discover (now : Z) (registryUrl : option jsstring)
    (client_registryUrl : option jsstring) (discovery : option Discovery) (p : ServerPool)
  : completion (list jsstring) * option Discovery * ServerPool :=
  let d :=
    match discovery with
    | None =>
        new_Discovery (match present registryUrl with
                       | Some u => Some u
                       | None => client_registryUrl
                       end) None None false
    | Some d =>
        match present registryUrl with
        | Some u => setRegistryUrl u d
        | None => d
        end
    end in
  let '(result, d', _) :=
    fetchNodes registry now {| filter_region := None; filter_verifiedOnly := false;
                               filter_features := None |} d in
  match result with
  | Return discovered =>
      (Return (map node_url discovered), Some d', add_discovered p discovered)
  | Throw e => (Throw e, Some d', p)
  end.

End Discover.

(* ===================================================================== *)
(** * Properties                                                          *)
(* ===================================================================== *)

Set Default Proof Using "Type".

(** ** Bounded case analysis on code units *)

Lemma N_below_forallb (n : nat) (P : N -> bool) :
  forallb P (map N.of_nat (seq 0 n)) = true ->
  forall c, (c < N.of_nat n)%N -> P c = true.
Proof.
  intros H c Hc.
  rewrite forallb_forall in H. apply H.
  apply in_map_iff. exists (N.to_nat c). split.
  - apply N2Nat.id.
  - apply in_seq. lia.
Qed.

Lemma list_ind3 (A : Type) (P : list A -> Prop) :
  P [] -> (forall a, P [a]) -> (forall a b, P [a; b]) ->
  (forall a b c r, P r -> P (a :: b :: c :: r)) ->
  forall l, P l.
Proof.
  intros H0 H1 H2 H3.
  assert (G : forall l, P l /\ (forall a, P (a :: l)) /\ (forall a b, P (a :: b :: l))).
  { induction l as [|x l [IH0 [IH1 IH2]]].
    - repeat split; auto.
    - repeat split; auto. }
  intro l. apply G.
Qed.

(** ** Base64 *)

Import Base64.
Local Open Scope N_scope.


Lemma index_of_lenient_char_of n : n < 64 -> index_of_lenient (char_of n) = Some n.
Proof.
  intro H.
  assert (G : (match index_of_lenient (char_of n) with Some m => N.eqb m n | None => false end) = true).
  { revert n H. apply (N_below_forallb 64). vm_compute. reflexivity. }
  destruct (index_of_lenient (char_of n)); try discriminate.
  apply N.eqb_eq in G. now subst.
Qed.

Lemma char_of_plain n :
  n < 64 -> N.eqb (char_of n) pad = false /\ is_ascii_whitespace (char_of n) = false.
Proof.
  intro H.
  assert (G : (negb (N.eqb (char_of n) pad) && negb (is_ascii_whitespace (char_of n)))%bool = true).
  { revert n H. apply (N_below_forallb 64). vm_compute. reflexivity. }
  apply andb_true_iff in G. destruct G as [G1 G2].
  split; [now apply negb_true_iff in G1 | now apply negb_true_iff in G2].
Qed.

(** The sextets of the octets, without the alphabet and the padding. *)
Fixpoint sextets (bytes : list N) : list N :=
  match bytes with
  | [] => []
  | [a] => [a / 4; (a mod 4) * 16]
  | [a; b] => [a / 4; (a mod 4) * 16 + b / 16; (b mod 16) * 4]
  | a :: b :: c :: rest =>
      a / 4 :: (a mod 4) * 16 + b / 16 :: (b mod 16) * 4 + c / 64 :: c mod 64
      :: sextets rest
  end.

Definition padding (bytes : list N) : list N :=
  match (length bytes mod 3)%nat with
  | 1%nat => [pad; pad]
  | 2%nat => [pad]
  | _ => []
  end.

Definition octets (l : list N) : Prop := Forall (fun c => c <= 255) l.

Ltac octets_inv :=
  repeat match goal with
  | H : octets (_ :: _) |- _ => apply Forall_cons_iff in H; destruct H
  | H : Forall _ (_ :: _) |- _ => apply Forall_cons_iff in H; destruct H
  end.

(** The variables of the platform play no part in arithmetic. *)
Ltac clear_functions :=
  repeat match goal with
         | f : ?A -> ?B |- _ =>
             lazymatch type of (A -> B) with
             | Prop => fail
             | _ => clear f
             end
         end.

Ltac divmod := clear_functions; zify; Z.to_euclidean_division_equations; lia.

Lemma padding_step a b c r : padding (a :: b :: c :: r) = padding r.
Proof.
  unfold padding. replace (length (a :: b :: c :: r)) with (3 + length r)%nat by reflexivity.
  rewrite Nat.Div0.add_mod, Nat.Div0.mod_same, Nat.add_0_l, Nat.Div0.mod_mod; reflexivity.
Qed.

Lemma encode_sextets bytes :
  encode bytes = map char_of (sextets bytes) ++ padding bytes.
Proof.
  induction bytes as [| a | a b | a b c r IH] using list_ind3; try reflexivity.
  rewrite padding_step. cbn [encode sextets map app]. now rewrite IH.
Qed.

Lemma sextets_bound bytes : octets bytes -> Forall (fun n => n < 64) (sextets bytes).
Proof.
  induction bytes as [| a | a b | a b c r IH] using list_ind3; intro H; cbn [sextets].
  - constructor.
  - octets_inv. repeat constructor; divmod.
  - octets_inv. repeat constructor; divmod.
  - octets_inv. repeat (apply Forall_cons; [divmod|]). now apply IH.
Qed.

Lemma decode_sextets_sextets bytes : octets bytes -> decode_sextets (sextets bytes) = bytes.
Proof.
  induction bytes as [| a | a b | a b c r IH] using list_ind3; intro H; cbn [sextets decode_sextets].
  - reflexivity.
  - octets_inv. f_equal. divmod.
  - octets_inv. repeat f_equal; divmod.
  - octets_inv. rewrite IH by assumption. repeat f_equal; divmod.
Qed.


Lemma padding_cases bytes :
  padding bytes = [] \/ padding bytes = [pad] \/ padding bytes = [pad; pad].
Proof.
  unfold padding. destruct (length bytes mod 3)%nat as [|[|[|k]]]; auto.
Qed.





Lemma lenient_sextets_encoded ss p :
  Forall (fun n => n < 64) ss ->
  p = [] \/ p = [pad] \/ p = [pad; pad] ->
  lenient_sextets (map char_of ss ++ p) = ss.
Proof.
  intros Hss Hp. induction Hss as [|n ss Hn _ IH].
  - destruct Hp as [-> | [-> | ->]]; reflexivity.
  - cbn [map app lenient_sextets].
    destruct (char_of_plain n Hn) as [-> _].
    now rewrite index_of_lenient_char_of, IH.
Qed.

(** Buffer's decoder inverts Buffer's encoder. *)
Lemma buffer_from_base64_encode bytes :
  octets bytes -> buffer_from_base64 (buffer_to_base64 bytes) = bytes.
Proof.
  intro H. unfold buffer_from_base64, buffer_to_base64. rewrite encode_sextets.
  rewrite lenient_sextets_encoded.
  - now apply decode_sextets_sextets.
  - now apply sextets_bound.
  - apply padding_cases.
Qed.


Local Close Scope N_scope.

(** ** The URL codec *)




Lemma lxor2_high c k : (2 <= k)%N -> (N.lxor c 2 / 2 ^ k = c / 2 ^ k)%N.
Proof.
  intro Hk. rewrite <- !N.shiftr_div_pow2, N.shiftr_lxor.
  replace (N.shiftr 2 k) with 0%N; [apply N.lxor_0_r|].
  rewrite N.shiftr_div_pow2. symmetry. apply N.div_small.
  apply N.lt_le_trans with (2 ^ 2)%N; [reflexivity|].
  apply N.pow_le_mono_r; lia.
Qed.

(** Outside the octets, [btoa] refuses the string: no token is produced. *)
Lemma encodeUrl_outside_octets u :
  btoa_defined = true ->
  Exists (fun c => (255 < c < 65536)%N) u ->
  encodeUrl (VJson (JString u)) = Throw InvalidCharacterError.
Proof.
  intros Hb He. unfold encodeUrl, xor, bind. rewrite Hb. unfold Base64.btoa.
  replace (forallb _ _) with false; [reflexivity|].
  symmetry. apply not_true_is_false. intro F. rewrite forallb_forall in F.
  apply Exists_exists in He. destruct He as [c [Hin [H1 H2]]].
  specialize (F (N.lxor c 2 mod 65536)%N (in_map _ _ _ Hin)).
  apply N.leb_le in F.
  pose proof (lxor2_high c 16 ltac:(lia)) as E16.
  pose proof (lxor2_high c 8 ltac:(lia)) as E8.
  change (2 ^ 16)%N with 65536%N in E16. change (2 ^ 8)%N with 256%N in E8.
  rewrite (N.div_small c 65536) in E16 by assumption.
  apply N.div_small_iff in E16; [|discriminate].
  rewrite N.mod_small in F by assumption.
  rewrite (N.div_small (N.lxor c 2) 256) in E8 by lia.
  symmetry in E8. apply N.div_small_iff in E8; [lia | discriminate].
Qed.


(** ** The server pool *)

Local Open Scope Z_scope.

Lemma jsstring_eqb_eq a b : jsstring_eqb a b = true <-> a = b.
Proof.
  unfold jsstring_eqb. destruct (list_eq_dec N.eq_dec a b); split; congruence.
Qed.

Lemma jsstring_eqb_refl a : jsstring_eqb a a = true.
Proof. now apply jsstring_eqb_eq. Qed.

Lemma jsstring_eqb_neq a b : jsstring_eqb a b = false <-> a <> b.
Proof.
  unfold jsstring_eqb. destruct (list_eq_dec N.eq_dec a b); split; congruence.
Qed.

Section ServersMap.
Variable f : ServerInfo -> ServerInfo.
Hypothesis f_url : forall s, url (f s) = url s.

Lemma servers_get_update key l :
  servers_get key (servers_update key f l) = option_map f (servers_get key l).
Proof using f_url.
  induction l as [|s r IH]; [reflexivity|]. cbn [servers_update servers_get].
  destruct (jsstring_eqb (url s) key) eqn:E.
  - cbn [servers_get]. now rewrite f_url, E.
  - cbn [servers_get]. now rewrite E.
Qed.

Lemma servers_get_update_other key key' l :
  key' <> key ->
  servers_get key' (servers_update key f l) = servers_get key' l.
Proof using f_url.
  intro Hne. induction l as [|s r IH]; [reflexivity|]. cbn [servers_update servers_get].
  destruct (jsstring_eqb (url s) key) eqn:E.
  - cbn [servers_get]. rewrite f_url.
    apply jsstring_eqb_eq in E. rewrite E.
    replace (jsstring_eqb key key') with false; [reflexivity|].
    symmetry. apply jsstring_eqb_neq. congruence.
  - cbn [servers_get]. now rewrite IH.
Qed.

Lemma servers_update_urls key l :
  map url (servers_update key f l) = map url l.
Proof using f_url.
  induction l as [|s r IH]; [reflexivity|]. cbn [servers_update].
  destruct (jsstring_eqb (url s) key); cbn [map]; [now rewrite f_url | now rewrite IH].
Qed.

End ServersMap.

Lemma servers_get_url key l s : servers_get key l = Some s -> url s = key.
Proof.
  induction l as [|x r IH]; [discriminate|]. cbn [servers_get].
  destruct (jsstring_eqb (url x) key) eqn:E; [|exact IH].
  intro H. injection H as <-. now apply jsstring_eqb_eq.
Qed.

Lemma reportFailure_step now u p s :
  servers_get (normalizeUrl u) (servers p) = Some s ->
  exists s',
    servers_get (normalizeUrl u) (servers (reportFailure now u p)) = Some s'
    /\ failCount s' = failCount s + 1
    /\ healthy s' = (if Z.leb (maxFailures (options p)) (failCount s + 1)
                    then false else healthy s)
    /\ totalRequests s' = totalRequests s + 1
    /\ lastCheck s' = now.
Proof.
  intro H. unfold reportFailure, set_servers. cbn [servers].
  rewrite servers_get_update by reflexivity. rewrite H. cbn [option_map].
  eexists. split; [reflexivity|]. repeat split.
Qed.

Lemma reportSuccess_step now u sample p s :
  servers_get (normalizeUrl u) (servers p) = Some s ->
  exists s',
    servers_get (normalizeUrl u) (servers (reportSuccess now u sample p)) = Some s'
    /\ failCount s' = 0
    /\ healthy s' = true
    /\ latency s' = updated_latency (latency s) sample
    /\ successCount s' = successCount s + 1
    /\ totalRequests s' = totalRequests s + 1
    /\ lastCheck s' = now
    /\ priority s' = priority s.
Proof.
  intro H. unfold reportSuccess, set_servers. cbn [servers].
  rewrite servers_get_update by reflexivity. rewrite H. cbn [option_map].
  eexists. split; [reflexivity|]. repeat split.
Qed.

(** C3. With [maxFailures = 3], a node that is healthy and has no
    consecutive failure stays healthy after one and after two failure
    reports and is unhealthy after the third, its failure count being 3;
    one success report then makes it healthy again and resets the count
    to 0. *)
Theorem three_failures_then_one_success
    (p : ServerPool) (u : jsstring) (s : ServerInfo) (t1 t2 t3 t4 : Z)
    (sample : option float) :
  maxFailures (options p) = 3 ->
  servers_get (normalizeUrl u) (servers p) = Some s ->
  healthy s = true ->
  failCount s = 0 ->
  let p1 := reportFailure t1 u p in
  let p2 := reportFailure t2 u p1 in
  let p3 := reportFailure t3 u p2 in
  let p4 := reportSuccess t4 u sample p3 in
  exists s1 s2 s3 s4,
    servers_get (normalizeUrl u) (servers p1) = Some s1 /\ healthy s1 = true
    /\ servers_get (normalizeUrl u) (servers p2) = Some s2 /\ healthy s2 = true
    /\ servers_get (normalizeUrl u) (servers p3) = Some s3
    /\ healthy s3 = false /\ failCount s3 = 3
    /\ servers_get (normalizeUrl u) (servers p4) = Some s4
    /\ healthy s4 = true /\ failCount s4 = 0.
Proof.
  intros Hmax Hget Hh Hf p1 p2 p3 p4.
  destruct (reportFailure_step t1 u p s Hget) as [s1 [G1 [F1 [H1 _]]]].
  destruct (reportFailure_step t2 u p1 s1 G1) as [s2 [G2 [F2 [H2 _]]]].
  destruct (reportFailure_step t3 u p2 s2 G2) as [s3 [G3 [F3 [H3 _]]]].
  destruct (reportSuccess_step t4 u sample p3 s3 G3) as [s4 [G4 [F4 [H4 _]]]].
  change (maxFailures (options p1)) with (maxFailures (options p)) in H2.
  change (maxFailures (options p2)) with (maxFailures (options p)) in H3.
  rewrite Hmax in H1, H2, H3.
  rewrite Hf in F1. rewrite F1 in F2. rewrite F2 in F3.
  rewrite Hf, Hh in H1. rewrite F1, H1 in H2. rewrite F2 in H3.
  cbn in F1, F2, F3, H1, H2, H3.
  exists s1, s2, s3, s4. repeat split; assumption.
Qed.

(** C10. Adding a server whose normalized URL is already in the pool
    changes the priority of that record and nothing else: its healthy
    flag, latency, failure count, time of last check and counters are
    kept, no record is added, and every other record, the options and the
    round-robin counter are as before. *)
Theorem addServer_existing_keeps_state
    (p : ServerPool) (u : jsstring) (prio : option Z) (s : ServerInfo) :
  servers_get (normalizeUrl u) (servers p) = Some s ->
  let p' := fst (addServer u prio p) in
  (exists s',
      servers_get (normalizeUrl u) (servers p') = Some s'
      /\ snd (addServer u prio p) = s'
      /\ priority s' = match prio with Some v => v | None => 10 end
      /\ url s' = url s /\ healthy s' = healthy s /\ latency s' = latency s
      /\ failCount s' = failCount s /\ lastCheck s' = lastCheck s
      /\ successCount s' = successCount s /\ totalRequests s' = totalRequests s)
  /\ map url (servers p') = map url (servers p)
  /\ (forall key, key <> normalizeUrl u ->
        servers_get key (servers p') = servers_get key (servers p))
  /\ options p' = options p
  /\ roundRobinIndex p' = roundRobinIndex p.
Proof.
  intros Hget p'. subst p'. unfold addServer. rewrite Hget. cbn [fst snd set_servers servers options roundRobinIndex].
  repeat split.
  - eexists. split.
    + rewrite servers_get_update by reflexivity. rewrite Hget. reflexivity.
    + repeat split.
  - now apply servers_update_urls.
  - intros key Hk. now apply servers_get_update_other.
Qed.

(** ** The order of binary64 values *)

(** A key that orders the values of a comparison as integers do: the sign
    class, then the exponent, then the mantissa. *)
Definition sf_key (f : spec_float) : option (Z * Z * Z) :=
  match f with
  | S754_nan => None
  | S754_infinity true => Some (-2, 0, 0)
  | S754_finite true m e => Some (-1, - e, Z.neg m)
  | S754_zero _ => Some (0, 0, 0)
  | S754_finite false m e => Some (1, e, Z.pos m)
  | S754_infinity false => Some (2, 0, 0)
  end.

Definition lex_compare (a b : Z * Z * Z) : comparison :=
  match a, b with
  | (a1, a2, a3), (b1, b2, b3) =>
      match a1 ?= b1 with
      | Eq => match a2 ?= b2 with Eq => a3 ?= b3 | c => c end
      | c => c
      end
  end.

Lemma SFcompare_key a b :
  SFcompare a b =
  match sf_key a, sf_key b with
  | Some x, Some y => Some (lex_compare x y)
  | _, _ => None
  end.
Proof.
  destruct a as [[|]|[|]| |[|] m1 e1], b as [[|]|[|]| |[|] m2 e2]; try reflexivity.
  cbn. rewrite Z.compare_opp. rewrite (Z.compare_antisym e1 e2).
  destruct (e1 ?= e2); reflexivity.
Qed.

Definition float_key (x : float) : option (Z * Z * Z) := sf_key (Prim2SF x).

Definition lex_lt (a b : Z * Z * Z) : Prop :=
  match a, b with
  | (a1, a2, a3), (b1, b2, b3) =>
      a1 < b1 \/ (a1 = b1 /\ (a2 < b2 \/ (a2 = b2 /\ a3 < b3)))
  end.

Lemma lex_compare_Lt a b : lex_compare a b = Lt <-> lex_lt a b.
Proof.
  destruct a as [[a1 a2] a3], b as [[b1 b2] b3]. cbn.
  destruct (Z.compare_spec a1 b1), (Z.compare_spec a2 b2), (Z.compare_spec a3 b3);
    split; intro G; try discriminate; try reflexivity; lia.
Qed.

Lemma lex_compare_Eq a b : lex_compare a b = Eq <-> a = b.
Proof.
  destruct a as [[a1 a2] a3], b as [[b1 b2] b3]. cbn.
  destruct (Z.compare_spec a1 b1), (Z.compare_spec a2 b2), (Z.compare_spec a3 b3);
    split; intro G; try discriminate; try reflexivity;
    try (injection G; intros; lia); subst; reflexivity.
Qed.

Lemma ltb_key x y :
  PrimFloat.ltb x y = true <->
  exists a b, float_key x = Some a /\ float_key y = Some b /\ lex_lt a b.
Proof.
  rewrite FloatAxioms.ltb_spec. unfold SFltb, float_key. rewrite SFcompare_key.
  destruct (sf_key (Prim2SF x)) as [a|], (sf_key (Prim2SF y)) as [b|];
    try (split; [discriminate | intros [? [? [? [? ?]]]]; discriminate]).
  split.
  - intro H. exists a, b. repeat split. apply lex_compare_Lt.
    destruct (lex_compare a b); try discriminate; reflexivity.
  - intros [a' [b' [Ea [Eb L]]]].
    assert (a = a') by congruence. assert (b = b') by congruence. subst a' b'.
    apply lex_compare_Lt in L. now rewrite L.
Qed.

Lemma eqb_key x y :
  PrimFloat.eqb x y = true <->
  exists a, float_key x = Some a /\ float_key y = Some a.
Proof.
  rewrite FloatAxioms.eqb_spec. unfold SFeqb, float_key. rewrite SFcompare_key.
  destruct (sf_key (Prim2SF x)) as [a|], (sf_key (Prim2SF y)) as [b|];
    try (split; [discriminate | intros [? [? ?]]; discriminate]).
  split.
  - intro H. exists a. split; [reflexivity|]. f_equal. symmetry. apply lex_compare_Eq.
    destruct (lex_compare a b); try discriminate; reflexivity.
  - intros [a' [Ea Eb]].
    assert (a = a') by congruence. assert (b = a') by congruence. subst a b.
    now rewrite (proj2 (lex_compare_Eq a' a') eq_refl).
Qed.

Lemma leb_key x y :
  PrimFloat.leb x y = true <->
  exists a b, float_key x = Some a /\ float_key y = Some b /\ (lex_lt a b \/ a = b).
Proof.
  rewrite FloatAxioms.leb_spec. unfold SFleb, float_key. rewrite SFcompare_key.
  destruct (sf_key (Prim2SF x)) as [a|], (sf_key (Prim2SF y)) as [b|];
    try (split; [discriminate | intros [? [? [? [? ?]]]]; discriminate]).
  split.
  - intro H. exists a, b. repeat split.
    destruct (lex_compare a b) eqn:E; try discriminate.
    + right. now apply lex_compare_Eq.
    + left. now apply lex_compare_Lt.
  - intros [a' [b' [Ea [Eb L]]]].
    assert (a = a') by congruence. assert (b = b') by congruence. subst a' b'.
    destruct L as [L | ->].
    + apply lex_compare_Lt in L. now rewrite L.
    + now rewrite (proj2 (lex_compare_Eq b b) eq_refl).
Qed.

Lemma is_nan_key x : is_nan x = false <-> exists a, float_key x = Some a.
Proof.
  unfold is_nan. rewrite negb_false_iff, eqb_key. split.
  - intros [a [H _]]. now exists a.
  - intros [a H]. now exists a.
Qed.

Lemma lex_total a b : lex_lt a b \/ a = b \/ lex_lt b a.
Proof.
  destruct a as [[a1 a2] a3], b as [[b1 b2] b3]. cbn.
  destruct (Z.lt_total a1 b1) as [|[|]], (Z.lt_total a2 b2) as [|[|]],
    (Z.lt_total a3 b3) as [|[|]]; subst; auto; try (left; lia); try (right; right; lia).
Qed.

Lemma lex_lt_trans a b c : lex_lt a b -> lex_lt b c -> lex_lt a c.
Proof.
  destruct a as [[a1 a2] a3], b as [[b1 b2] b3], c as [[c1 c2] c3]. cbn. lia.
Qed.

Lemma lex_lt_irrefl a : ~ lex_lt a a.
Proof. destruct a as [[a1 a2] a3]. cbn. lia. Qed.

(** ** Selection of the fastest server *)

(** [beats t r]: the reduction prefers [t] to [r]. *)
Definition beats (t r : ServerInfo) : bool :=
  (PrimFloat.ltb (latency t) (latency r)
   || (PrimFloat.eqb (latency t) (latency r) && Z.ltb (priority t) (priority r)))%bool.

Lemma faster_of_beats best server :
  faster_of best server = if beats server best then server else best.
Proof.
  unfold faster_of, beats.
  destruct (PrimFloat.ltb (latency server) (latency best)); [reflexivity|].
  cbn [orb]. reflexivity.
Qed.

Lemma beats_spec t r :
  beats t r = true <->
  exists a b, float_key (latency t) = Some a /\ float_key (latency r) = Some b
              /\ (lex_lt a b \/ (a = b /\ priority t < priority r)).
Proof.
  unfold beats. rewrite orb_true_iff, andb_true_iff, ltb_key, eqb_key, Z.ltb_lt. split.
  - intros [[a [b [Ha [Hb L]]]] | [[a [Ha Hb]] P]].
    + exists a, b. auto.
    + exists a, a. auto.
  - intros [a [b [Ha [Hb [L | [-> P]]]]]].
    + left. exists a, b. auto.
    + right. split; [exists b; auto | exact P].
Qed.

Lemma beats_irrefl t : beats t t = false.
Proof.
  apply not_true_is_false. rewrite beats_spec.
  intros [a [b [Ha [Hb [L | [_ P]]]]]].
  - assert (a = b) by congruence. subst. now apply lex_lt_irrefl in L.
  - lia.
Qed.

Lemma beats_trans t s r : beats t s = true -> beats s r = true -> beats t r = true.
Proof.
  rewrite !beats_spec.
  intros [a [b [Ha [Hb H1]]]] [b' [c [Hb' [Hc H2]]]].
  assert (b' = b) by congruence. subst b'.
  exists a, c. repeat split; try assumption.
  destruct H1 as [L1 | [-> P1]], H2 as [L2 | [-> P2]].
  - left. eapply lex_lt_trans; eassumption.
  - now left.
  - now left.
  - right. split; [reflexivity | lia].
Qed.

(** The reduction ends on an element that no element beats. *)
Lemma fold_faster_of l : forall best,
  let r := fold_left faster_of l best in
  (r = best \/ In r l)
  /\ beats best r = false
  /\ (forall t, In t l -> beats t r = false)
  /\ (forall t, beats t best = false -> beats t r = false).
Proof.
  induction l as [|s l IH]; intro best; cbn [fold_left].
  - cbn. repeat split; auto using beats_irrefl. intros t [].
  - destruct (IH (faster_of best s)) as [M [B [A T]]].
    rewrite faster_of_beats in *.
    destruct (beats s best) eqn:E.
    + repeat split.
      * right. destruct M as [-> | M]; [now left | now right].
      * apply not_true_is_false. intro C.
        assert (X : beats s (fold_left faster_of l s) = true)
          by (eapply beats_trans; eassumption).
        congruence.
      * intros t [<- | Ht]; [exact B | now apply A].
      * intros t Ht. apply T. apply not_true_is_false. intro C.
        assert (X : beats t best = true) by (eapply beats_trans; eassumption).
        congruence.
    + repeat split.
      * destruct M as [-> | M]; [now left | right; now right].
      * exact B.
      * intros t [<- | Ht]; [now apply T | now apply A].
      * exact T.
Qed.

Lemma selectFastest_minimal l :
  l <> [] ->
  exists r, selectFastest l = Return r
            /\ In r l
            /\ (forall t, In t l -> beats t r = false).
Proof.
  destruct l as [|x l]; [congruence|]. intros _.
  unfold selectFastest, reduce.
  destruct (fold_faster_of l x) as [M [B [A _]]].
  eexists. split; [reflexivity|]. split.
  - destruct M as [-> | M]; [now left | now right].
  - intros t [<- | Ht]; [exact B | now apply A].
Qed.

Lemma not_beats_minimum t r :
  beats t r = false ->
  PrimFloat.ltb (latency t) (latency r) = false
  /\ (PrimFloat.eqb (latency t) (latency r) = true -> priority r <= priority t)
  /\ (is_nan (latency t) = false -> is_nan (latency r) = false ->
      PrimFloat.leb (latency r) (latency t) = true).
Proof.
  unfold beats. intro H. apply orb_false_iff in H. destruct H as [L E].
  split; [exact L|]. split.
  - intro Q. rewrite Q in E. cbn in E. apply Z.ltb_ge in E. exact E.
  - intros Nt Nr. apply is_nan_key in Nt, Nr.
    destruct Nt as [a Ha], Nr as [b Hb].
    apply leb_key. exists b, a. repeat split; try assumption.
    destruct (lex_total b a) as [G | [G | G]]; auto.
    exfalso. assert (X : PrimFloat.ltb (latency t) (latency r) = true).
    { apply ltb_key. exists a, b. auto. }
    congruence.
Qed.

(** C5. Under the policy 'fastest', when the healthy set is not empty and
    its latency estimates are numbers, [selectServer] returns a node of
    the healthy set whose latency estimate is the minimum: no healthy node
    has a smaller one, it is at most that of every healthy node, and among
    the healthy nodes whose estimate equals it none has a lower priority
    value. *)
Theorem fastest_selects_minimum (now : Z) (p : ServerPool) :
  strategy (options p) = js "fastest" ->
  snd (getHealthyServers now p) <> [] ->
  Forall (fun t => is_nan (latency t) = false) (snd (getHealthyServers now p)) ->
  exists r,
    selectServer now p = Return (fst (getHealthyServers now p), Some r)
    /\ In r (snd (getHealthyServers now p))
    /\ (forall t, In t (snd (getHealthyServers now p)) ->
          PrimFloat.ltb (latency t) (latency r) = false
          /\ PrimFloat.leb (latency r) (latency t) = true
          /\ (PrimFloat.eqb (latency t) (latency r) = true -> priority r <= priority t)).
Proof.
  intros Hs Hne Hnum. unfold selectServer.
  destruct (getHealthyServers now p) as [p1 hs] eqn:G. cbn [fst snd] in *.
  assert (Ho : options p1 = options p).
  { unfold getHealthyServers in G. injection G as <- _. reflexivity. }
  destruct (selectFastest_minimal hs Hne) as [r [Hr [Hin Hmin]]].
  destruct hs as [|h hs']; [congruence|].
  rewrite Ho, Hs. cbn [jsstring_eqb]. 
  replace (jsstring_eqb (js "fastest") (js "round-robin")) with false by reflexivity.
  replace (jsstring_eqb (js "fastest") (js "priority")) with false by reflexivity.
  rewrite Hr. cbn [bind]. exists r. split; [reflexivity|]. split; [exact Hin|].
  intros t Ht. destruct (not_beats_minimum t r (Hmin t Ht)) as [A [B C]].
  rewrite Forall_forall in Hnum.
  repeat split; auto.
Qed.

(** ** The latency estimate *)

(** C4, as the code has it. A success report for a tracked node that
    carries a number greater than 0 sets the estimate to the sample when
    the estimate is Infinity (there is none yet), and otherwise to
    [Math.round] of 0.7 times the old estimate plus 0.3 times the sample,
    computed in binary64; a report with any other sample leaves the
    estimate as it was. *)
Theorem latency_estimate_after_success
    (p : ServerPool) (u : jsstring) (now : Z) (sample : option float) (s : ServerInfo) :
  servers_get (normalizeUrl u) (servers p) = Some s ->
  exists s',
    servers_get (normalizeUrl u) (servers (reportSuccess now u sample p)) = Some s'
    /\ (forall l, sample = Some l -> PrimFloat.ltb 0 l = true ->
          PrimFloat.eqb (latency s) infinity = true -> latency s' = l)
    /\ (forall l, sample = Some l -> PrimFloat.ltb 0 l = true ->
          PrimFloat.eqb (latency s) infinity = false ->
          latency s' = Math_round (latency s * 0.7 + l * 0.3)%float)
    /\ (forall l, sample = Some l -> PrimFloat.ltb 0 l = false -> latency s' = latency s)
    /\ (sample = None -> latency s' = latency s).
Proof.
  intro H.
  destruct (reportSuccess_step now u sample p s H) as [s' [G [_ [_ [L _]]]]].
  exists s'. split; [exact G|]. rewrite L. unfold updated_latency.
  repeat split.
  - intros l -> P I. now rewrite P, I.
  - intros l -> P I. now rewrite P, I.
  - intros l -> P. now rewrite P.
  - intros ->. reflexivity.
Qed.

(** ** The discovery client *)

(** C9. When [fetchNodes] fails, the fields of the instance, among them
    the cached nodes and the time of the last fetch, are what they were, no
    listener is called, and the caller gets a DiscoveryError; it fails when
    the registry URL does not parse, when the request fails, when the
    status is not OK and when the body is not JSON. When it succeeds, the
    cache holds the nodes returned, the time of the last fetch is the
    current time, and every listener is called once with these nodes. *)
Theorem fetchNodes_failure_keeps_cache
    (registry : URL -> list (jsstring * jsstring) -> RegistryReply)
    (now : Z) (f : Filters) (d : Discovery) :
  let result := fst (fst (fetchNodes registry now f d)) in
  let d' := snd (fst (fetchNodes registry now f d)) in
  let calls := snd (fetchNodes registry now f d) in
  (forall e, result = Throw e ->
     d' = d /\ calls = []
     /\ exists m, e = Error "DiscoveryError" "FETCH_ERROR" m None)
  /\ (forall ns, result = Return ns ->
        nodes d' = ns /\ lastFetch d' = now
        /\ calls = map (fun l => (l, ns)) (listeners d)
        /\ registryUrl d' = registryUrl d
        /\ discovery_options d' = discovery_options d
        /\ listeners d' = listeners d)
  /\ (URL_parse (registryUrl d) = None -> exists e, result = Throw e)
  /\ (forall u,
        URL_parse (registryUrl d) = Some u ->
        match registry u (query_parameters (discovery_options d) f) with
        | NetworkFailure _ => exists e, result = Throw e
        | RegistryResponse false _ _ => exists e, result = Throw e
        | RegistryResponse true _ (Throw _) => exists e, result = Throw e
        | RegistryResponse true _ (Return _) => True
        end).
Proof.
  cbv zeta. unfold fetchNodes.
  destruct (fetched_nodes registry f d) as [ns|e0] eqn:E; cbn [fst snd];
    (split; [|split; [|split]]).
  - discriminate.
  - intros ns' H. injection H as <-. repeat split.
  - intro U. unfold fetched_nodes in E. rewrite U in E. discriminate.
  - intros u U. unfold fetched_nodes in E. rewrite U in E.
    destruct (registry u _) as [e1|[|] st [v|e1]]; try exact I; discriminate.
  - intros e H. injection H as <-. repeat split. eexists. reflexivity.
  - discriminate.
  - intro U. eexists. reflexivity.
  - intros u U. destruct (registry u _) as [e1|[|] st [v|e1]]; try exact I;
      eexists; reflexivity.
Qed.

(** ** Headers *)

Lemma filter_filter_other (m n : jsstring) (h : Headers) :
  m <> n ->
  filter (fun kv => jsstring_eqb (fst kv) m)
    (filter (fun kv => negb (jsstring_eqb (fst kv) n)) h)
  = filter (fun kv => jsstring_eqb (fst kv) m) h.
Proof.
  intro Hne. induction h as [|[k x] r IH]; [reflexivity|]. cbn [filter fst].
  destruct (jsstring_eqb k n) eqn:En; cbn [negb filter fst].
  - apply jsstring_eqb_eq in En. subst k.
    replace (jsstring_eqb n m) with false; [exact IH|].
    symmetry. apply jsstring_eqb_neq. congruence.
  - destruct (jsstring_eqb k m); [now rewrite IH | exact IH].
Qed.

Lemma filter_filter_same (n : jsstring) (h : Headers) :
  filter (fun kv => jsstring_eqb (fst kv) n)
    (filter (fun kv => negb (jsstring_eqb (fst kv) n)) h) = [].
Proof.
  induction h as [|[k x] r IH]; [reflexivity|]. cbn [filter fst].
  destruct (jsstring_eqb k n) eqn:En; cbn [negb filter fst]; [exact IH|].
  now rewrite En.
Qed.

Lemma filter_set_first_same (n v : jsstring) (h : Headers) :
  existsb (fun kv => jsstring_eqb (fst kv) n) h = true ->
  filter (fun kv => jsstring_eqb (fst kv) n) (set_first n v h) = [(n, v)].
Proof.
  induction h as [|[k x] r IH]; [discriminate|]. cbn [existsb set_first fst].
  destruct (jsstring_eqb k n) eqn:En.
  - intros _. cbn [filter fst]. rewrite En, filter_filter_same.
    apply jsstring_eqb_eq in En. now subst.
  - cbn [orb filter fst]. rewrite En. exact IH.
Qed.

Lemma filter_set_first_other (m n v : jsstring) (h : Headers) :
  m <> n ->
  filter (fun kv => jsstring_eqb (fst kv) m) (set_first n v h)
  = filter (fun kv => jsstring_eqb (fst kv) m) h.
Proof.
  intro Hne. induction h as [|[k x] r IH]; [reflexivity|]. cbn [set_first].
  destruct (jsstring_eqb k n) eqn:En; cbn [filter fst].
  - apply jsstring_eqb_eq in En. subst k.
    replace (jsstring_eqb n m) with false
      by (symmetry; apply jsstring_eqb_neq; congruence).
    now apply filter_filter_other.
  - destruct (jsstring_eqb k m); [now rewrite IH | exact IH].
Qed.

Lemma filter_none (n : jsstring) (h : Headers) :
  existsb (fun kv => jsstring_eqb (fst kv) n) h = false ->
  filter (fun kv => jsstring_eqb (fst kv) n) h = [].
Proof.
  induction h as [|[k x] r IH]; [reflexivity|]. cbn [existsb filter fst].
  destruct (jsstring_eqb k n); [discriminate | exact IH].
Qed.

Lemma Headers_get_set_same (n v : jsstring) (h : Headers) :
  Headers_get n (Headers_set n v h) = Some v.
Proof.
  unfold Headers_get, Headers_set, Headers_has.
  destruct (existsb _ h) eqn:E.
  - now rewrite filter_set_first_same.
  - rewrite filter_app, filter_none by assumption.
    cbn [filter fst app]. now rewrite jsstring_eqb_refl.
Qed.

Lemma Headers_get_set_other (m n v : jsstring) (h : Headers) :
  header_name m <> header_name n ->
  Headers_get m (Headers_set n v h) = Headers_get m h.
Proof.
  intro Hne. unfold Headers_get, Headers_set, Headers_has.
  destruct (existsb _ h) eqn:E.
  - now rewrite filter_set_first_other.
  - rewrite filter_app. cbn [filter fst].
    replace (jsstring_eqb (header_name n) (header_name m)) with false
      by (symmetry; apply jsstring_eqb_neq; congruence).
    now rewrite app_nil_r.
Qed.

Lemma Headers_get_pass_through (m : jsstring) (name : string) (from h : Headers) :
  header_name m <> header_name (js name) ->
  Headers_get m (pass_through name from h) = Headers_get m h.
Proof.
  intro Hne. unfold pass_through.
  destruct (present _); [now apply Headers_get_set_other | reflexivity].
Qed.

Ltac names_differ :=
  let H := fresh in intro H; vm_compute in H; discriminate H.

(** The three headers of the protocol in what [buildBareResponseHeaders]
    returns. *)
Lemma bare_response_headers {B} (response : Upstream B)
    (corsHeaders : list (jsstring * jsstring)) (stripHeaders : list jsstring) :
  let h := buildBareResponseHeaders response corsHeaders stripHeaders in
  Headers_get (js "x-bare-status") h = Some (decimal_of_Z (up_status response))
  /\ Headers_get (js "x-bare-status-text") h = Some (up_statusText response)
  /\ Headers_get (js "x-bare-headers") h
     = Some (JSON_stringify (dict_json (collected_headers (up_headers response) stripHeaders))).
Proof.
  cbv zeta. unfold buildBareResponseHeaders.
  repeat split; rewrite !Headers_get_pass_through by names_differ.
  - rewrite !Headers_get_set_other by names_differ. apply Headers_get_set_same.
  - rewrite Headers_get_set_other by names_differ. apply Headers_get_set_same.
  - apply Headers_get_set_same.
Qed.

(** ** The relay *)


(** ** The keys of a dictionary *)

Lemma props_replace_keys {V} (k : jsstring) (v : V) (p : list (jsstring * V)) :
  map fst (props_replace k v p) = map fst p.
Proof.
  induction p as [|[k' v'] r IH]; [reflexivity|]. cbn [props_replace].
  destruct (jsstring_eqb k' k); cbn [map fst]; [reflexivity | now rewrite IH].
Qed.

Lemma props_insert_index_keys {V} (i : N) (k : jsstring) (v : V) (p : list (jsstring * V)) k' :
  In k' (map fst (props_insert_index i k v p)) -> k' = k \/ In k' (map fst p).
Proof.
  induction p as [|[k0 v0] r IH]; cbn [props_insert_index].
  - cbn. intros [<- | []]. now left.
  - destruct (array_index k0) as [j|].
    + destruct (N.ltb j i).
      * cbn [map fst In]. intros [<- | H]; [right; now left|].
        destruct (IH H) as [-> | H']; [now left | right; now right].
      * cbn [map fst In]. intros [<- | H]; [now left | now right].
    + cbn [map fst In]. intros [<- | H]; [now left | now right].
Qed.

Lemma props_define_keys {V} (k : jsstring) (v : V) (p : list (jsstring * V)) k' :
  In k' (map fst (props_define k v p)) -> k' = k \/ In k' (map fst p).
Proof.
  unfold props_define. destruct (props_lookup k p).
  - rewrite props_replace_keys. now right.
  - destruct (array_index k) as [i|].
    + apply props_insert_index_keys.
    + rewrite map_app, in_app_iff. cbn. intros [H | [<- | []]]; [now right | now left].
Qed.

Lemma dict_set_string_keys d k s k' :
  In k' (map fst (own (dict_set_string d k s))) -> k' = k \/ In k' (map fst (own d)).
Proof.
  unfold dict_set_string. destruct (props_lookup k (own d)).
  - cbn [own]. rewrite props_replace_keys. now right.
  - destruct (jsstring_eqb k proto_key); [now right|]. cbn [own]. apply props_define_keys.
Qed.

Lemma dict_set_array_keys d k items k' :
  In k' (map fst (own (dict_set_array d k items))) -> k' = k \/ In k' (map fst (own d)).
Proof.
  unfold dict_set_array. destruct (props_lookup k (own d)).
  - cbn [own]. rewrite props_replace_keys. now right.
  - destruct (jsstring_eqb k proto_key); [now right|]. cbn [own]. apply props_define_keys.
Qed.

Lemma dict_push_keys d k s :
  map fst (own (dict_push d k s)) = map fst (own d).
Proof.
  unfold dict_push. destruct (props_lookup k (own d)) as [[|]|].
  - reflexivity.
  - cbn [own]. apply props_replace_keys.
  - destruct (proto d); reflexivity.
Qed.

Lemma collect_header_keys stripHeaders d entry k' :
  In k' (map fst (own (collect_header stripHeaders d entry))) ->
  (k' = fst entry /\ existsb (jsstring_eqb (toLowerCase k')) stripHeaders = false)
  \/ In k' (map fst (own d)).
Proof.
  destruct entry as [key value]. unfold collect_header. cbn [fst].
  destruct (existsb (jsstring_eqb (toLowerCase key)) stripHeaders) eqn:E; [now right|].
  assert (S1 : forall s, In k' (map fst (own (dict_set_string d key s))) ->
                 (k' = key /\ existsb (jsstring_eqb (toLowerCase k')) stripHeaders = false)
                 \/ In k' (map fst (own d))).
  { intros s H. destruct (dict_set_string_keys _ _ _ _ H) as [-> | H']; auto. }
  assert (S2 : forall l, In k' (map fst (own (dict_set_array d key l))) ->
                 (k' = key /\ existsb (jsstring_eqb (toLowerCase k')) stripHeaders = false)
                 \/ In k' (map fst (own d))).
  { intros l H. destruct (dict_set_array_keys _ _ _ _ H) as [-> | H']; auto. }
  destruct (dict_get d key) as [|[[|c s]|items]|e|items].
  - apply S1.
  - apply S1.
  - apply S2.
  - rewrite dict_push_keys. now right.
  - destruct (element_truthy e); [apply S2 | apply S1].
  - rewrite dict_push_keys. now right.
Qed.

Lemma collected_headers_keys stripHeaders entries : forall d k',
  In k' (map fst (own (fold_left (collect_header stripHeaders) entries d))) ->
  existsb (jsstring_eqb (toLowerCase k')) stripHeaders = false
  \/ In k' (map fst (own d)).
Proof.
  induction entries as [|e r IH]; intros d k' H; cbn [fold_left] in H; [now right|].
  destruct (IH _ _ H) as [G | G]; [now left|].
  destruct (collect_header_keys _ _ _ _ G) as [[_ G'] | G']; auto.
Qed.

(** C8, as the code has it. The list of x-bare-pass-headers is read from
    the request (as JSON when it parses, as a comma list otherwise) and
    nothing else is done with it: when the request has been proxied, the
    headers of the answer are built from the response of the target, the
    CORS headers and the deny-list alone, and no header whose lower-cased
    name is on the deny-list is among the collected headers that
    x-bare-headers serializes, named in x-bare-pass-headers or not. *)
Theorem deny_list_applies_to_passed_headers
    (B : Type) (fetch : jsstring -> jsstring -> Headers -> option B -> completion (Upstream B))
    (randomUUID : jsstring) (request : Request B)
    (corsHeaders : list (jsstring * jsstring)) (stripHeaders : list jsstring)
    (bareData : BareData) (response : Upstream B) :
  parseBareHeaders request = Return bareData ->
  proxied B fetch request = Return response ->
  let r := handleBareV3Request B fetch randomUUID request corsHeaders stripHeaders in
  passHeaders bareData
  = list_header (Headers_get (js "x-bare-pass-headers") (request_headers request))
      (fun h => JString (trim h))
  /\ headers r = buildBareResponseHeaders response corsHeaders stripHeaders
  /\ Headers_get (js "x-bare-headers") (headers r)
     = Some (JSON_stringify
               (dict_json (collected_headers (up_headers response) stripHeaders)))
  /\ (forall name,
        In name (map fst (own (collected_headers (up_headers response) stripHeaders))) ->
        existsb (jsstring_eqb (toLowerCase name)) stripHeaders = false).
Proof.
  intros P H r. subst r. unfold handleBareV3Request. rewrite H. cbn [headers].
  split; [|split; [reflexivity | split]].
  - unfold parseBareHeaders, bind in P.
    destruct (match present _ with None => _ | Some raw => _ end); [|discriminate].
    now injection P as <-.
  - apply bare_response_headers.
  - intros name Hin. unfold collected_headers in Hin.
    destruct (collected_headers_keys _ _ _ _ Hin) as [G | []]. exact G.
Qed.

(** ** JSON: strings *)

Local Open Scope N_scope.

Lemma hex_value_hex_digit n : n < 16 -> hex_value (hex_digit n) = Some n.
Proof.
  intro H.
  assert (G : (match hex_value (hex_digit n) with Some m => N.eqb m n | None => false end) = true).
  { revert n H. apply (N_below_forallb 16). vm_compute. reflexivity. }
  destruct (hex_value (hex_digit n)); try discriminate.
  apply N.eqb_eq in G. now subst.
Qed.

Lemma hex4_unicode_escape c :
  c < 65536 ->
  hex4 (hex_digit (c / 4096)) (hex_digit ((c / 256) mod 16))
       (hex_digit ((c / 16) mod 16)) (hex_digit (c mod 16)) = Some c.
Proof.
  intro H. unfold hex4.
  rewrite !hex_value_hex_digit by divmod.
  f_equal. divmod.
Qed.

Lemma parse_unicode_escape c rest :
  c < 65536 ->
  parse_string_body (unicode_escape c ++ rest) = cons_string c (parse_string_body rest).
Proof.
  intro H. unfold unicode_escape. cbn [app parse_string_body].
  change (N.eqb 92 34) with false. change (N.eqb 92 92) with true.
  change (N.eqb 117 117) with true. cbv iota.
  now rewrite hex4_unicode_escape.
Qed.

Lemma parse_literal c rest :
  N.eqb c 34 = false -> N.eqb c 92 = false -> N.ltb c 32 = false ->
  parse_string_body (c :: rest) = cons_string c (parse_string_body rest).
Proof.
  intros A B C. cbn [parse_string_body]. now rewrite A, B, C.
Qed.

Lemma parse_simple_escape e u rest :
  N.eqb e 117 = false -> simple_escape e = Some u ->
  parse_string_body (92 :: e :: rest) = cons_string u (parse_string_body rest).
Proof.
  intros A B. cbn [parse_string_body].
  change (N.eqb 92 34) with false. change (N.eqb 92 92) with true. cbv iota.
  now rewrite A, B.
Qed.

(** What [quote_body] writes, [parse_string_body] reads back. *)
Lemma parse_quote_body_length n : forall s rest,
  (length s <= n)%nat ->
  parse_string_body (quote_body s ++ 34 :: rest) = Some (s, rest).
Proof.
  induction n as [|n IH]; intros s rest Hn.
  - destruct s; [reflexivity | cbn in Hn; lia].
  - destruct s as [|c r]; [reflexivity|].
    assert (IHr : parse_string_body (quote_body r ++ 34 :: rest) = Some (r, rest))
      by (apply IH; cbn in Hn; lia).
    cbn [quote_body].
    destruct (N.eqb c 8) eqn:E8.
    { apply N.eqb_eq in E8. subst c. cbn [js list_ascii_of_string map app].
      rewrite (parse_simple_escape 98 8) by reflexivity. now rewrite IHr. }
    destruct (N.eqb c 9) eqn:E9.
    { apply N.eqb_eq in E9. subst c. cbn [js list_ascii_of_string map app].
      rewrite (parse_simple_escape 116 9) by reflexivity. now rewrite IHr. }
    destruct (N.eqb c 10) eqn:E10.
    { apply N.eqb_eq in E10. subst c. cbn [js list_ascii_of_string map app].
      rewrite (parse_simple_escape 110 10) by reflexivity. now rewrite IHr. }
    destruct (N.eqb c 12) eqn:E12.
    { apply N.eqb_eq in E12. subst c. cbn [js list_ascii_of_string map app].
      rewrite (parse_simple_escape 102 12) by reflexivity. now rewrite IHr. }
    destruct (N.eqb c 13) eqn:E13.
    { apply N.eqb_eq in E13. subst c. cbn [js list_ascii_of_string map app].
      rewrite (parse_simple_escape 114 13) by reflexivity. now rewrite IHr. }
    destruct (N.eqb c 34) eqn:E34.
    { apply N.eqb_eq in E34. subst c. cbn [app].
      rewrite (parse_simple_escape 34 34) by reflexivity. now rewrite IHr. }
    destruct (N.eqb c 92) eqn:E92.
    { apply N.eqb_eq in E92. subst c. cbn [app].
      rewrite (parse_simple_escape 92 92) by reflexivity. now rewrite IHr. }
    destruct (N.ltb c 32) eqn:E32.
    { apply N.ltb_lt in E32. rewrite <- app_assoc.
      rewrite parse_unicode_escape by lia. now rewrite IHr. }
    destruct (is_high_surrogate c) eqn:Eh.
    { assert (Hc : c < 65536).
      { unfold is_high_surrogate in Eh. apply andb_true_iff in Eh.
        destruct Eh as [_ Eh]. apply N.leb_le in Eh. lia. }
      destruct r as [|d r'].
      - cbn [app] in *. rewrite parse_unicode_escape by assumption. reflexivity.
      - destruct (is_low_surrogate d) eqn:El.
        + assert (IHr' : parse_string_body (quote_body r' ++ 34 :: rest) = Some (r', rest))
            by (apply IH; cbn in Hn; lia).
          cbn [app]. rewrite parse_literal by assumption.
          unfold is_low_surrogate in El. apply andb_true_iff in El.
          destruct El as [El _]. apply N.leb_le in El.
          rewrite parse_literal.
          * now rewrite IHr'.
          * apply N.eqb_neq. lia.
          * apply N.eqb_neq. lia.
          * apply N.ltb_ge. lia.
        + rewrite <- app_assoc. rewrite parse_unicode_escape by assumption.
          now rewrite IHr. }
    destruct (is_low_surrogate c) eqn:El.
    { assert (Hc : c < 65536).
      { unfold is_low_surrogate in El. apply andb_true_iff in El.
        destruct El as [_ El]. apply N.leb_le in El. lia. }
      rewrite <- app_assoc. rewrite parse_unicode_escape by assumption. now rewrite IHr. }
    cbn [app]. rewrite parse_literal by assumption. now rewrite IHr.
Qed.

Lemma parse_quote_body s rest :
  parse_string_body (quote_body s ++ 34 :: rest) = Some (s, rest).
Proof. now apply (parse_quote_body_length (length s)). Qed.

Local Close Scope N_scope.

(** ** JSON: objects whose values are strings *)

Definition member_text (kv : jsstring * jsstring) : jsstring :=
  quote (fst kv) ++ js ":" ++ quote (snd kv).

Definition string_valued (ps : list (jsstring * jsstring)) : list (jsstring * Json) :=
  map (fun kv => (fst kv, JString (snd kv))) ps.

Lemma JSON_stringify_string_valued ps :
  JSON_stringify (JObject (string_valued ps))
  = js "{" ++ join (js ",") (map member_text ps) ++ js "}".
Proof.
  cbn [JSON_stringify]. unfold string_valued. rewrite map_map. reflexivity.
Qed.

Lemma skip_ws_quote s rest : skip_ws (quote s ++ rest) = quote s ++ rest.
Proof. reflexivity. Qed.

Lemma parse_value_string fuel r :
  parse_value (S fuel) (34%N :: r)
  = match parse_string_body r with
    | Some (str, rest) => Parsed (JString str) rest
    | None => Malformed
    end.
Proof. reflexivity. Qed.

Lemma quote_app s rest : quote s ++ rest = 34%N :: quote_body s ++ 34%N :: rest.
Proof. unfold quote. cbn [app]. now rewrite <- app_assoc. Qed.

Lemma parse_value_quote fuel s rest :
  parse_value (S fuel) (quote s ++ rest) = Parsed (JString s) rest.
Proof.
  rewrite quote_app, parse_value_string. now rewrite parse_quote_body.
Qed.

Lemma parse_members_unfold fuel r acc :
  parse_members (S fuel) (34%N :: r) acc
  = match parse_string_body r with
    | None => Malformed
    | Some (k, rest) =>
        match starts 58 (skip_ws rest) with
        | None => Malformed
        | Some rest' =>
            match parse_value fuel rest' with
            | Parsed v rest'' =>
                match skip_ws rest'' with
                | c :: r2 =>
                    if N.eqb c 44 then parse_members fuel r2 (props_define k v acc)
                    else if N.eqb c 125 then Parsed (JObject (props_define k v acc)) r2
                    else Malformed
                | [] => Malformed
                end
            | Malformed => Malformed
            | OutOfFuel => OutOfFuel
            end
        end
    end.
Proof. reflexivity. Qed.

Lemma parse_members_string_valued ps : forall acc fuel rest,
  ps <> [] ->
  (length ps < fuel)%nat ->
  parse_members fuel (join (js ",") (map member_text ps) ++ 125%N :: rest) acc
  = Parsed (JObject (fold_left (fun a kv => props_define (fst kv) (JString (snd kv)) a) ps acc))
      rest.
Proof.
  induction ps as [|[k v] ps IH]; intros acc fuel rest Hne Hf; [congruence|].
  destruct fuel as [|fuel]; [cbn in Hf; lia|].
  destruct fuel as [|fuel]; [cbn in Hf; lia|].
  assert (Head : forall tail,
             parse_members (S (S fuel)) (member_text (k, v) ++ tail) acc
             = match skip_ws tail with
               | c :: r2 =>
                   if N.eqb c 44
                   then parse_members (S fuel) r2 (props_define k (JString v) acc)
                   else if N.eqb c 125
                        then Parsed (JObject (props_define k (JString v) acc)) r2
                        else Malformed
               | [] => Malformed
               end).
  { intro tail. unfold member_text. cbn [fst snd].
    rewrite <- !app_assoc. rewrite quote_app, parse_members_unfold, parse_quote_body.
    change (starts 58 (skip_ws (js ":" ++ quote v ++ tail))) with (Some (quote v ++ tail)).
    cbv iota. rewrite parse_value_quote. reflexivity. }
  destruct ps as [|p ps'].
  - cbn [map join fold_left]. rewrite Head. cbn [skip_ws is_json_whitespace].
    change (N.eqb 125 44) with false. change (N.eqb 125 125) with true. reflexivity.
  - change (join (js ",") (map member_text ((k, v) :: p :: ps')))
      with (member_text (k, v) ++ js "," ++ join (js ",") (map member_text (p :: ps'))).
    rewrite <- !app_assoc. rewrite Head.
    cbn [js list_ascii_of_string map app skip_ws is_json_whitespace].
    change (N.eqb 44 44) with true. cbv iota.
    cbn [fold_left fst snd].
    apply IH; [discriminate | cbn in Hf |- *; lia].
Qed.

Lemma length_join_members ps :
  (length ps <= length (join (js ",") (map member_text ps)))%nat.
Proof.
  assert (M : forall p, (1 <= length (member_text p))%nat).
  { intro p. unfold member_text, quote. rewrite !length_app. cbn [length]. lia. }
  induction ps as [|p ps IH]; [cbn; lia|].
  destruct ps as [|q ps'].
  - cbn [map join length]. apply M.
  - change (join (js ",") (map member_text (p :: q :: ps')))
      with (member_text p ++ js "," ++ join (js ",") (map member_text (q :: ps'))).
    rewrite !length_app. specialize (M p).
    change (length (p :: q :: ps')) with (S (length (q :: ps'))). lia.
Qed.

(** [JSON.parse] reads back an object with string values that
    [JSON.stringify] wrote, defining its properties in the order of the
    text. *)
Lemma parse_value_object fuel r :
  parse_value (S fuel) (123%N :: r)
  = match starts 125 (skip_ws r) with
    | Some rest => Parsed (JObject []) rest
    | None => parse_members fuel r []
    end.
Proof. reflexivity. Qed.

Lemma JSON_parse_stringify_string_valued ps :
  JSON_parse (JSON_stringify (JObject (string_valued ps)))
  = Return (JObject (fold_left (fun a kv => props_define (fst kv) (JString (snd kv)) a) ps [])).
Proof.
  rewrite JSON_stringify_string_valued. unfold JSON_parse.
  destruct ps as [|p ps]; [reflexivity|].
  set (members := join (js ",") (map member_text (p :: ps))).
  change (js "{" ++ members ++ js "}") with (123%N :: members ++ [125%N]).
  assert (L : (length (p :: ps) < 2 * length (123%N :: members ++ [125%N]) + 1)%nat).
  { pose proof (length_join_members (p :: ps)) as H. fold members in H.
    cbn [length] in H |- *. rewrite length_app. cbn [length]. lia. }
  replace (2 * length (123%N :: members ++ [125%N]) + 2)%nat
    with (S (2 * length (123%N :: members ++ [125%N]) + 1)) by lia.
  rewrite parse_value_object.
  assert (S0 : starts 125 (skip_ws (members ++ [125%N])) = None).
  { unfold members. destruct p as [k v]. destruct ps; reflexivity. }
  rewrite S0. unfold members.
  rewrite (parse_members_string_valued (p :: ps) [] _ []) by (try discriminate; exact L).
  reflexivity.
Qed.

(** ** The order of own properties *)

Local Open Scope N_scope.

Lemma decimal_value_snoc s d :
  decimal_value (s ++ [d]) = decimal_value s * 10 + (d - 48).
Proof. unfold decimal_value. now rewrite fold_left_app. Qed.

Lemma fold_decimal_ge r : forall acc,
  acc <= fold_left (fun acc c => acc * 10 + (c - 48)) r acc.
Proof.
  induction r as [|c r IH]; intro acc; cbn [fold_left]; [lia|].
  specialize (IH (acc * 10 + (c - 48))). lia.
Qed.

(** Digit strings without a leading zero. *)
Definition plain_digits (s : jsstring) : Prop :=
  forallb is_digit s = true /\ (s = [] \/ exists d r, s = d :: r /\ d <> 48).

Lemma plain_digits_positive s : plain_digits s -> s <> [] -> 1 <= decimal_value s.
Proof.
  intros [D [-> | [d [r [-> Hd]]]]] Hne; [congruence|].
  cbn [forallb] in D. apply andb_true_iff in D. destruct D as [D _].
  unfold is_digit in D. apply andb_true_iff in D. destruct D as [D1 D2].
  apply N.leb_le in D1, D2.
  unfold decimal_value. cbn [fold_left].
  pose proof (fold_decimal_ge r (0 * 10 + (d - 48))). lia.
Qed.

Lemma plain_digits_prefix s d : plain_digits (s ++ [d]) -> plain_digits s /\ is_digit d = true.
Proof.
  intros [D H]. rewrite forallb_app in D. apply andb_true_iff in D. destruct D as [D1 D2].
  cbn in D2. rewrite andb_true_r in D2. split; [|exact D2]. split; [exact D1|].
  destruct s as [|c s']; [now left|]. right.
  destruct H as [H | [c' [r [H Hc]]]]; [discriminate|].
  cbn in H. injection H as <- _. eauto.
Qed.

Lemma plain_digits_inj s : forall t,
  plain_digits s -> plain_digits t -> decimal_value s = decimal_value t -> s = t.
Proof.
  induction s as [|a s IH] using rev_ind; intros t Hs Ht E.
  - destruct t as [|c t]; [reflexivity|].
    pose proof (plain_digits_positive _ Ht ltac:(discriminate)).
    change (decimal_value []) with 0 in E. lia.
  - destruct t as [|b t _] using rev_ind.
    + pose proof (plain_digits_positive _ Hs) as P.
      assert (s ++ [a] <> []) by (destruct s; discriminate).
      specialize (P H). change (decimal_value []) with 0 in E. lia.
    + apply plain_digits_prefix in Hs, Ht.
      destruct Hs as [Hs Da], Ht as [Ht Db].
      rewrite !decimal_value_snoc in E.
      unfold is_digit in Da, Db. apply andb_true_iff in Da, Db.
      destruct Da as [A1 A2], Db as [B1 B2]. apply N.leb_le in A1, A2, B1, B2.
      assert (a = b) by lia. assert (decimal_value s = decimal_value t) by lia.
      subst b. f_equal. now apply IH.
Qed.

Lemma array_index_cases k i :
  array_index k = Some i ->
  i = decimal_value k /\ (k = [48] \/ (plain_digits k /\ k <> [])).
Proof.
  unfold array_index. destruct k as [|d r]; [discriminate|].
  destruct (forallb is_digit (d :: r)) eqn:D; [|discriminate].
  cbn [andb].
  destruct (negb (N.eqb d 48) || match r with [] => true | _ => false end)%bool eqn:C;
    [|discriminate].
  destruct (N.ltb (decimal_value (d :: r)) 4294967295); [|discriminate].
  intro H. injection H as <-. split; [reflexivity|].
  destruct (N.eqb d 48) eqn:E.
  - apply N.eqb_eq in E. subst d. cbn in C. destruct r; [now left | discriminate].
  - apply N.eqb_neq in E. right. split; [|discriminate]. split; [exact D|].
    right. eauto.
Qed.

Lemma array_index_inj k k' i :
  array_index k = Some i -> array_index k' = Some i -> k = k'.
Proof.
  intros H H'. apply array_index_cases in H, H'.
  destruct H as [-> [-> | [P N]]], H' as [E [-> | [P' N']]].
  - reflexivity.
  - pose proof (plain_digits_positive _ P' N'). change (decimal_value [48]) with 0 in E. lia.
  - pose proof (plain_digits_positive _ P N). change (decimal_value [48]) with 0 in E. lia.
  - now apply plain_digits_inj.
Qed.

Inductive ordered_keys : list jsstring -> Prop :=
| ordered_nil : ordered_keys []
| ordered_plain k ks :
    array_index k = None ->
    Forall (fun k' => array_index k' = None) ks ->
    ordered_keys (k :: ks)
| ordered_index k i ks :
    array_index k = Some i ->
    Forall (fun k' => match array_index k' with Some j => i < j | None => True end) ks ->
    ordered_keys ks ->
    ordered_keys (k :: ks).

(** The own properties of an object: no key twice, the array indices
    first and ascending. *)
Definition canonical {V} (p : list (jsstring * V)) : Prop :=
  NoDup (map fst p) /\ ordered_keys (map fst p).

Lemma props_lookup_None {V} k (p : list (jsstring * V)) :
  props_lookup k p = None <-> ~ In k (map fst p).
Proof.
  induction p as [|[k0 v0] r IH]; cbn [props_lookup map fst In]; [(clear_functions; tauto)|].
  destruct (jsstring_eqb k0 k) eqn:E.
  - apply jsstring_eqb_eq in E. subst. split; [discriminate | (clear_functions; tauto)].
  - apply jsstring_eqb_neq in E. rewrite IH. (clear_functions; tauto).
Qed.

Lemma props_insert_index_keys_iff {V} i k (v : V) p k' :
  In k' (map fst (props_insert_index i k v p)) <-> k' = k \/ In k' (map fst p).
Proof.
  induction p as [|[k0 v0] r IH]; cbn [props_insert_index].
  - cbn. (clear_functions; intuition).
  - destruct (array_index k0) as [j|]; [destruct (N.ltb j i)|];
      cbn [map fst In]; try rewrite IH; (clear_functions; intuition).
Qed.

Lemma props_insert_index_NoDup {V} i k (v : V) p :
  ~ In k (map fst p) -> NoDup (map fst p) -> NoDup (map fst (props_insert_index i k v p)).
Proof.
  induction p as [|[k0 v0] r IH]; intros Hk Hn; cbn [props_insert_index].
  - cbn. constructor; [(clear_functions; tauto) | constructor].
  - cbn [map fst] in Hn, Hk. inversion Hn as [|? ? N1 N2]; subst.
    assert (NoDup (k :: k0 :: map fst r)) by (constructor; assumption).
    destruct (array_index k0) as [j|]; [destruct (N.ltb j i)|]; cbn [map fst]; try assumption.
    constructor.
    + rewrite props_insert_index_keys_iff. cbn [In] in Hk. (clear_functions; intuition).
    + apply IH; [cbn [In] in Hk; (clear_functions; tauto) | assumption].
Qed.

Lemma ordered_keys_tail_plain k ks j :
  ordered_keys (k :: ks) -> array_index k = None ->
  Forall (fun k' => match array_index k' with Some i => j < i | None => True end) ks.
Proof.
  intros H E. inversion H as [|? ? _ F|? ? ? E' _ _]; subst; [|congruence].
  eapply Forall_impl; [|exact F]. cbn. intros a ->. exact I.
Qed.

Lemma props_insert_index_ordered {V} i k (v : V) p :
  array_index k = Some i ->
  ~ In k (map fst p) ->
  ordered_keys (map fst p) ->
  ordered_keys (map fst (props_insert_index i k v p)).
Proof.
  intros Hi. induction p as [|[k0 v0] r IH]; intros Hk Ho; cbn [props_insert_index].
  - cbn. eapply ordered_index; [exact Hi | constructor | constructor].
  - cbn [map fst In] in Hk, Ho.
    destruct (array_index k0) as [j|] eqn:E0.
    + inversion Ho as [|? ? E' _|? ? ? E' F O]; subst; [congruence|].
      rewrite E0 in E'. injection E' as <-.
      destruct (N.ltb j i) eqn:L.
      * apply N.ltb_lt in L. cbn [map fst].
        eapply ordered_index; [exact E0 | | apply IH; [(clear_functions; tauto) | assumption]].
        apply Forall_forall. intros a Ha.
        apply props_insert_index_keys_iff in Ha. destruct Ha as [-> | Ha].
        -- now rewrite Hi.
        -- rewrite Forall_forall in F. now apply F.
      * apply N.ltb_ge in L. cbn [map fst].
        assert (i <> j).
        { intros ->. apply Hk. left. eapply array_index_inj; eassumption. }
        eapply ordered_index; [exact Hi | | exact Ho].
        constructor; [rewrite E0; lia|].
        eapply Forall_impl; [|exact F]. cbn. intros a Ha.
        destruct (array_index a); [lia | exact I].
    + cbn [map fst]. eapply ordered_index; [exact Hi | | exact Ho].
      constructor; [now rewrite E0|].
      now apply (ordered_keys_tail_plain k0).
Qed.

Lemma ordered_keys_app_plain ks k :
  array_index k = None -> ordered_keys ks -> ordered_keys (ks ++ [k]).
Proof.
  intros Hk. induction 1 as [|k0 ks E F|k0 i ks E F O IH]; cbn [app].
  - apply ordered_plain; [exact Hk | constructor].
  - apply ordered_plain; [exact E|]. apply Forall_app. split; [exact F|].
    constructor; [exact Hk | constructor].
  - eapply ordered_index; [exact E | | exact IH].
    apply Forall_app. split; [exact F|]. constructor; [now rewrite Hk | constructor].
Qed.

Lemma props_define_canonical {V} k (v : V) p :
  canonical p -> canonical (props_define k v p).
Proof.
  intros [Hn Ho]. unfold props_define, canonical.
  destruct (props_lookup k p) eqn:L.
  - now rewrite props_replace_keys.
  - apply props_lookup_None in L.
    destruct (array_index k) as [i|] eqn:E.
    + split; [now apply props_insert_index_NoDup | now apply props_insert_index_ordered].
    + rewrite map_app. cbn [map fst]. split.
      * apply NoDup_Add with (a := k) (l := map fst p).
        -- rewrite <- (app_nil_r (map fst p)) at 1. apply Add_app.
        -- now split.
      * now apply ordered_keys_app_plain.
Qed.

Lemma ordered_keys_before_index l1 k l2 i :
  ordered_keys (l1 ++ k :: l2) -> array_index k = Some i ->
  Forall (fun k' => exists j, array_index k' = Some j /\ j < i) l1.
Proof.
  intros H Hi. induction l1 as [|k0 l1 IH]; [constructor|].
  cbn [app] in H. inversion H as [|? ? E F|? j ? E F O]; subst.
  - rewrite Forall_forall in F. specialize (F k (in_elt k l1 l2)). congruence.
  - constructor.
    + exists j. split; [exact E|].
      rewrite Forall_forall in F. specialize (F k (in_elt k l1 l2)).
      now rewrite Hi in F.
    + now apply IH.
Qed.

Lemma props_insert_index_last {V} i k (v : V) p :
  Forall (fun k' => exists j, array_index k' = Some j /\ j < i) (map fst p) ->
  props_insert_index i k v p = p ++ [(k, v)].
Proof.
  induction p as [|[k0 v0] r IH]; intro F; [reflexivity|].
  cbn [map fst] in F. inversion F as [|? ? [j [E L]] F']; subst.
  cbn [props_insert_index]. rewrite E.
  apply N.ltb_lt in L. rewrite L. cbn [app]. now rewrite IH.
Qed.

(** Defining the properties of a canonical list in their order gives the
    list again. *)
Lemma define_in_order {V} (post : list (jsstring * V)) : forall pre,
  canonical (pre ++ post) ->
  fold_left (fun a kv => props_define (fst kv) (snd kv) a) post pre = pre ++ post.
Proof.
  induction post as [|[k v] post IH]; intros pre C; cbn [fold_left].
  - now rewrite app_nil_r.
  - assert (D : props_define k v pre = pre ++ [(k, v)]).
    { destruct C as [Hn Ho]. rewrite map_app in Hn, Ho. cbn [map fst] in Hn, Ho.
      unfold props_define.
      assert (L : props_lookup k pre = None).
      { apply props_lookup_None. apply NoDup_remove_2 in Hn.
        rewrite in_app_iff in Hn. clear_functions. tauto. }
      rewrite L. destruct (array_index k) as [i|] eqn:E; [|reflexivity].
      apply props_insert_index_last. eapply ordered_keys_before_index; eassumption. }
    cbn [fst snd]. rewrite D. rewrite IH; rewrite <- app_assoc; [reflexivity | exact C].
Qed.

Local Close Scope N_scope.

(** ** The header codec *)

Lemma props_lookup_map {V W} (g : V -> W) k (p : list (jsstring * V)) :
  props_lookup k (map (fun kv => (fst kv, g (snd kv))) p) = option_map g (props_lookup k p).
Proof.
  induction p as [|[k0 v0] r IH]; [reflexivity|].
  cbn [map fst snd props_lookup]. now destruct (jsstring_eqb k0 k).
Qed.

Lemma props_replace_map {V W} (g : V -> W) k v (p : list (jsstring * V)) :
  map (fun kv => (fst kv, g (snd kv))) (props_replace k v p)
  = props_replace k (g v) (map (fun kv => (fst kv, g (snd kv))) p).
Proof.
  induction p as [|[k0 v0] r IH]; [reflexivity|].
  cbn [map fst snd props_replace].
  destruct (jsstring_eqb k0 k); cbn [map fst snd]; [reflexivity | now rewrite IH].
Qed.

Lemma props_insert_index_map {V W} (g : V -> W) i k v (p : list (jsstring * V)) :
  map (fun kv => (fst kv, g (snd kv))) (props_insert_index i k v p)
  = props_insert_index i k (g v) (map (fun kv => (fst kv, g (snd kv))) p).
Proof.
  induction p as [|[k0 v0] r IH]; [reflexivity|].
  cbn [map fst snd props_insert_index].
  destruct (array_index k0) as [j|]; [destruct (N.ltb j i)|];
    cbn [map fst snd]; [now rewrite IH | reflexivity | reflexivity].
Qed.

Lemma props_define_map {V W} (g : V -> W) k v (p : list (jsstring * V)) :
  map (fun kv => (fst kv, g (snd kv))) (props_define k v p)
  = props_define k (g v) (map (fun kv => (fst kv, g (snd kv))) p).
Proof.
  unfold props_define. rewrite props_lookup_map.
  destruct (props_lookup k p); cbn [option_map].
  - apply props_replace_map.
  - destruct (array_index k).
    + apply props_insert_index_map.
    + now rewrite map_app.
Qed.

Lemma fold_define_map {A V W} (g : V -> W) (key : A -> jsstring) (val : A -> V) h :
  forall acc,
    map (fun kv => (fst kv, g (snd kv)))
        (fold_left (fun a x => props_define (key x) (val x) a) h acc)
    = fold_left (fun a x => props_define (key x) (g (val x)) a) h
                (map (fun kv => (fst kv, g (snd kv))) acc).
Proof.
  induction h as [|x h IH]; intro acc; cbn [fold_left]; [reflexivity|].
  now rewrite IH, props_define_map.
Qed.

Lemma fold_define_canonical {A V} (key : A -> jsstring) (val : A -> V) h :
  forall acc, canonical acc ->
    canonical (fold_left (fun a x => props_define (key x) (val x) a) h acc).
Proof.
  induction h as [|x h IH]; intros acc C; cbn [fold_left]; [exact C|].
  apply IH. now apply props_define_canonical.
Qed.

Lemma lower_cased_canonical h : canonical (lower_cased h).
Proof.
  unfold lower_cased.
  apply (fold_define_canonical (fun kv => toLowerCase (fst kv)) snd).
  split; constructor.
Qed.

Lemma dict_set_string_define d k s :
  k <> proto_key ->
  dict_set_string d k s = {| own := props_define k (DString s) (own d); proto := proto d |}.
Proof.
  intro Hk. unfold dict_set_string, props_define.
  destruct (props_lookup k (own d)); [reflexivity|].
  apply jsstring_eqb_neq in Hk. now rewrite Hk.
Qed.

Lemma encode_entries h : forall d,
  Forall (fun kv => toLowerCase (fst kv) <> proto_key) h ->
  fold_left encode_entry (string_valued h) (Return d)
  = Return {| own := fold_left (fun a kv => props_define (toLowerCase (fst kv))
                                                       (DString (snd kv)) a) h (own d);
              proto := proto d |}.
Proof.
  induction h as [|[k v] h IH]; intros d F.
  - now destruct d.
  - inversion F as [|? ? Hk F']; subst. cbn [fst] in Hk.
    cbn [string_valued map fold_left fst snd].
    change (encode_entry (Return d) (k, JString v))
      with (Return (dict_set_string d (toLowerCase k) v)).
    fold (string_valued h). rewrite IH by exact F'.
    now rewrite dict_set_string_define.
Qed.

Lemma decodeHeaders_text text :
  text <> [] ->
  decodeHeaders (Some text) = try_catch (JSON_parse text) (fun _ => Return (JObject [])).
Proof. destruct text; [congruence | reflexivity]. Qed.

(** The round trip of C2 away from [__proto__]: for every header map in
    which no key lower-cases to [__proto__], [encodeHeaders(h)] returns a
    token and [decodeHeaders] of it is [h] with every key lower-cased. *)
Theorem header_codec_round_trip (h : header_map) :
  Forall (fun kv => toLowerCase (fst kv) <> proto_key) h ->
  exists token,
    encodeHeaders (Some (header_map_json h)) = Return token
    /\ decodeHeaders (Some token) = Return (header_map_json (lower_cased h)).
Proof.
  intro F.
  exists (JSON_stringify (JObject (string_valued (lower_cased h)))).
  assert (E : dict_json {| own := fold_left (fun a kv => props_define (toLowerCase (fst kv))
                                                           (DString (snd kv)) a) h [];
                           proto := ProtoObject |}
              = JObject (string_valued (lower_cased h))).
  { unfold dict_json, string_valued, lower_cased. cbn [own]. f_equal.
    rewrite (fold_define_map dict_value_json (fun kv => toLowerCase (fst kv))
                             (fun kv => DString (snd kv))).
    now rewrite (fold_define_map JString (fun kv => toLowerCase (fst kv)) snd). }
  split.
  - unfold encodeHeaders, header_map_json. cbn [Object_entries].
    fold (string_valued h). rewrite encode_entries by exact F.
    cbn [bind own proto empty_dict]. now rewrite E.
  - rewrite decodeHeaders_text.
    + rewrite JSON_parse_stringify_string_valued. cbn [try_catch].
      unfold header_map_json. fold (string_valued (lower_cased h)). do 2 f_equal.
      pose proof (fold_define_map JString fst snd (lower_cased h) []) as M.
      change (map (fun kv : jsstring * jsstring => (fst kv, JString (snd kv))) [])
        with (@nil (jsstring * Json)) in M.
      rewrite <- M. unfold string_valued. f_equal.
      apply (define_in_order (lower_cased h) []). apply lower_cased_canonical.
    + rewrite JSON_stringify_string_valued. discriminate.
Qed.

(** The second half of C2: [decodeHeaders] never raises. Every input
    gives a value; an absent, empty or unparsable token gives the empty
    map, and a token that [JSON.parse] accepts gives what it parsed. *)
Theorem decodeHeaders_never_raises (input : option jsstring) :
  (exists v, decodeHeaders input = Return v)
  /\ (match input with
      | None | Some [] => decodeHeaders input = Return (JObject [])
      | Some text =>
          (forall e, JSON_parse text = Throw e -> decodeHeaders input = Return (JObject []))
          /\ (forall v, JSON_parse text = Return v -> decodeHeaders input = Return v)
      end).
Proof.
  destruct input as [[|c text]|]; cbn [decodeHeaders].
  - split; [now exists (JObject []) | reflexivity].
  - destruct (JSON_parse (c :: text)) as [v|e] eqn:E; cbn [try_catch].
    + split; [now exists v|]. split; [discriminate | now intros v' [= ->]].
    + split; [now exists (JObject [])|]. split; [reflexivity | discriminate].
  - split; [now exists (JObject []) | reflexivity].
Qed.

(** C2 at a key that lower-cases to [__proto__]: the assignment
    [encoded[key.toLowerCase()] = String(value)] reaches the setter that
    %Object.prototype% defines for [__proto__], which ignores a string, so
    the token is that of the empty object and decoding it gives the empty
    map, not the map with the key lower-cased. *)
Theorem encodeHeaders_loses_proto_key :
  let h := [(js "__PROTO__", js "x")] in
  encodeHeaders (Some (header_map_json h)) = Return (js "{}")
  /\ decodeHeaders (Some (js "{}")) = Return (JObject [])
  /\ header_map_json (lower_cased h) = JObject [(js "__proto__", JString (js "x"))]
  /\ JObject [] <> header_map_json (lower_cased h).
Proof.
  cbv zeta. split; [|split; [|split]]; try (vm_compute; reflexivity).
  vm_compute. discriminate.
Qed.

(* ===================================================================== *)
(** * Further properties of the server pool                               *)
(* ===================================================================== *)

Lemma set_servers_same p : set_servers p (servers p) = p.
Proof. now destruct p. Qed.

Lemma servers_get_In key l s : servers_get key l = Some s -> In s l.
Proof.
  induction l as [|x r IH]; [discriminate|]. cbn [servers_get].
  destruct (jsstring_eqb (url x) key).
  - intros [= ->]. now left.
  - intro H. right. now apply IH.
Qed.

Lemma servers_get_None key l : servers_get key l = None <-> ~ In key (map url l).
Proof.
  induction l as [|x r IH]; cbn [servers_get map In]; [clear_functions; tauto|].
  destruct (jsstring_eqb (url x) key) eqn:E.
  - apply jsstring_eqb_eq in E. split; [discriminate | clear_functions; tauto].
  - apply jsstring_eqb_neq in E. rewrite IH. clear_functions. tauto.
Qed.

Lemma servers_get_app key l l' :
  servers_get key (l ++ l')
  = match servers_get key l with Some s => Some s | None => servers_get key l' end.
Proof.
  induction l as [|x r IH]; [reflexivity|]. cbn [app servers_get].
  now destruct (jsstring_eqb (url x) key).
Qed.

Lemma servers_update_absent key f l :
  servers_get key l = None -> servers_update key f l = l.
Proof.
  induction l as [|x r IH]; [reflexivity|]. cbn [servers_get servers_update].
  destruct (jsstring_eqb (url x) key); [discriminate|].
  intro H. now rewrite IH.
Qed.

Lemma servers_delete_absent key l :
  servers_get key l = None -> servers_delete key l = l.
Proof.
  induction l as [|x r IH]; [reflexivity|]. cbn [servers_get servers_delete].
  destruct (jsstring_eqb (url x) key); [discriminate|].
  intro H. now rewrite IH.
Qed.

Lemma servers_delete_app_new key l s :
  servers_get key l = None -> url s = key -> servers_delete key (l ++ [s]) = l.
Proof.
  intros Hl Hs. induction l as [|x r IH]; cbn [app servers_delete].
  - rewrite Hs, jsstring_eqb_refl. reflexivity.
  - cbn [servers_get] in Hl. destruct (jsstring_eqb (url x) key); [discriminate|].
    now rewrite IH.
Qed.

Lemma servers_get_delete key l :
  NoDup (map url l) -> servers_get key (servers_delete key l) = None.
Proof.
  induction l as [|x r IH]; intro N; [reflexivity|].
  cbn [map] in N. inversion N as [|? ? Hx Hr]; subst.
  cbn [servers_delete]. destruct (jsstring_eqb (url x) key) eqn:E.
  - apply jsstring_eqb_eq in E. subst key. now apply servers_get_None.
  - cbn [servers_get]. rewrite E. now apply IH.
Qed.

Lemma servers_get_delete_other key key' l :
  key' <> key -> servers_get key' (servers_delete key l) = servers_get key' l.
Proof.
  intro Hne. induction l as [|x r IH]; [reflexivity|].
  cbn [servers_delete]. destruct (jsstring_eqb (url x) key) eqn:E.
  - apply jsstring_eqb_eq in E. cbn [servers_get].
    replace (jsstring_eqb (url x) key') with false; [reflexivity|].
    symmetry. apply jsstring_eqb_neq. congruence.
  - cbn [servers_get]. now rewrite IH.
Qed.

(** ** Adding and removing servers *)

(** [addServer] with a URL that the pool does not hold yet: the record
    returned is new (healthy, no latency estimate, every counter 0, the
    given priority or 10), it is stored last under the normalized URL, and
    the other records, the options and the round-robin counter are as
    before. *)
Theorem addServer_new_record (p : ServerPool) (u : jsstring) (prio : option Z) :
  servers_get (normalizeUrl u) (servers p) = None ->
  let p' := fst (addServer u prio p) in
  let s := snd (addServer u prio p) in
  s = {| url := normalizeUrl u;
         priority := match prio with Some v => v | None => 10 end;
         healthy := true; latency := infinity; failCount := 0; lastCheck := 0;
         successCount := 0; totalRequests := 0 |}
  /\ servers p' = servers p ++ [s]
  /\ servers_get (normalizeUrl u) (servers p') = Some s
  /\ (forall key, key <> normalizeUrl u ->
        servers_get key (servers p') = servers_get key (servers p))
  /\ options p' = options p
  /\ roundRobinIndex p' = roundRobinIndex p.
Proof.
  intros Hget p' s. subst p' s. unfold addServer. rewrite Hget.
  cbn [fst snd set_servers servers options roundRobinIndex].
  split; [reflexivity|]. split; [reflexivity|]. split; [|split; [|split; reflexivity]].
  - rewrite servers_get_app, Hget. cbn [servers_get url].
    now rewrite jsstring_eqb_refl.
  - intros key Hk. rewrite servers_get_app.
    destruct (servers_get key (servers p)); [reflexivity|].
    cbn [servers_get url].
    replace (jsstring_eqb (normalizeUrl u) key) with false; [reflexivity|].
    symmetry. apply jsstring_eqb_neq. congruence.
Qed.

(** [removeServer] answers true exactly when the pool held the normalized
    URL; afterwards the pool does not hold it, and every other record is
    as before. *)
Theorem removeServer_removes (p : ServerPool) (u : jsstring) :
  NoDup (map url (servers p)) ->
  let p' := fst (removeServer u p) in
  (snd (removeServer u p) = true <-> In (normalizeUrl u) (map url (servers p)))
  /\ servers_get (normalizeUrl u) (servers p') = None
  /\ (forall key, key <> normalizeUrl u ->
        servers_get key (servers p') = servers_get key (servers p))
  /\ NoDup (map url (servers p')).
Proof.
  intros N p'. subst p'. unfold removeServer.
  destruct (servers_get (normalizeUrl u) (servers p)) as [s|] eqn:G;
    cbn [fst snd set_servers servers].
  - split; [|split; [|split]].
    + split; [intros _ | reflexivity].
      apply servers_get_In in G as I. apply servers_get_url in G.
      rewrite <- G. now apply in_map.
    + now apply servers_get_delete.
    + intros key Hk. now apply servers_get_delete_other.
    + clear G. induction (servers p) as [|x r IH]; [constructor|].
      cbn [map] in N. inversion N as [|? ? Hx Hr]; subst. cbn [servers_delete].
      destruct (jsstring_eqb (url x) (normalizeUrl u)); [exact Hr|].
      cbn [map]. constructor; [|now apply IH].
      intro I. apply Hx. clear - I.
      induction r as [|y r IH]; [destruct I|]. cbn [servers_delete] in I.
      destruct (jsstring_eqb (url y) (normalizeUrl u)).
      * now right.
      * destruct I as [I | I]; [now left | right; now apply IH].
  - split; [|split; [|split]].
    + apply servers_get_None in G. split; [discriminate | intro I; now elim G].
    + exact G.
    + reflexivity.
    + exact N.
Qed.

(** Removing a server that was just added as a new one gives the pool
    back as it was. *)
Theorem removeServer_undoes_addServer (p : ServerPool) (u : jsstring) (prio : option Z) :
  servers_get (normalizeUrl u) (servers p) = None ->
  removeServer u (fst (addServer u prio p)) = (p, true).
Proof.
  intro Hget. unfold addServer. rewrite Hget. cbn [fst].
  unfold removeServer. cbn [set_servers servers].
  rewrite servers_get_app, Hget. cbn [servers_get url]. rewrite jsstring_eqb_refl.
  rewrite servers_delete_app_new by (exact Hget || reflexivity).
  cbn [options roundRobinIndex]. now destruct p.
Qed.

(** A report about a URL that the pool does not hold changes nothing. *)
Theorem report_about_unknown_server (p : ServerPool) (u : jsstring) (now : Z)
    (sample : option float) :
  servers_get (normalizeUrl u) (servers p) = None ->
  reportSuccess now u sample p = p /\ reportFailure now u p = p.
Proof.
  intro Hget. unfold reportSuccess, reportFailure.
  rewrite !servers_update_absent by exact Hget.
  split; apply set_servers_same.
Qed.

(** ** The healthy servers *)

Lemma give_another_chance_url now recovery s :
  url (fst (give_another_chance now recovery s)) = url s.
Proof.
  unfold give_another_chance. destruct (healthy s); [reflexivity|].
  now destruct (Z.ltb recovery (now - lastCheck s)).
Qed.

Lemma getHealthyServers_In now p t :
  In t (snd (getHealthyServers now p)) <->
  exists s, In s (servers p)
            /\ give_another_chance now (recoveryTime (options p)) s = (t, true).
Proof.
  unfold getHealthyServers. cbn [snd]. rewrite in_map_iff. split.
  - intros [[t' b] [E I]]. cbn [fst] in E. subst t'.
    apply filter_In in I. destruct I as [I B]. cbn [snd] in B. subst b.
    apply in_map_iff in I. destruct I as [s [E I]]. now exists s.
  - intros [s [I E]]. exists (t, true). split; [reflexivity|].
    apply filter_In. split; [|reflexivity].
    apply in_map_iff. now exists s.
Qed.

Lemma getHealthyServers_healthy now p t :
  In t (snd (getHealthyServers now p)) -> healthy t = true.
Proof.
  intro I. apply getHealthyServers_In in I. destruct I as [s [_ E]].
  unfold give_another_chance in E. destruct (healthy s) eqn:H.
  - injection E as <-. exact H.
  - destruct (Z.ltb (recoveryTime (options p)) (now - lastCheck s)); [|discriminate].
    now injection E as <-.
Qed.

Lemma getHealthyServers_pool now p :
  map url (servers (fst (getHealthyServers now p))) = map url (servers p)
  /\ options (fst (getHealthyServers now p)) = options p
  /\ roundRobinIndex (fst (getHealthyServers now p)) = roundRobinIndex p.
Proof.
  unfold getHealthyServers. cbn [fst set_servers servers options roundRobinIndex].
  split; [|split; reflexivity].
  rewrite !map_map. apply map_ext. intro s. apply give_another_chance_url.
Qed.

Lemma getHealthyServers_all_healthy now p :
  forallb healthy (servers p) = true -> getHealthyServers now p = (p, servers p).
Proof.
  intro H. unfold getHealthyServers.
  assert (E : map (give_another_chance now (recoveryTime (options p))) (servers p)
              = map (fun s => (s, true)) (servers p)).
  { apply map_ext_in. intros s I. rewrite forallb_forall in H.
    unfold give_another_chance. now rewrite (H s I). }
  rewrite E. f_equal.
  - rewrite map_map. cbn [fst]. rewrite map_id. apply set_servers_same.
  - clear H E. induction (servers p) as [|x r IH]; [reflexivity|].
    cbn [map filter snd fst]. now rewrite IH.
Qed.

(** [getHealthyServers] lists every server that is marked healthy and
    every unhealthy one whose last check is more than [recoveryTime]
    milliseconds old, which it marks healthy again with a failure count of
    0; an unhealthy server that was checked more recently is not listed
    and keeps its record. Every server listed is marked healthy in the
    pool afterwards. *)
Theorem getHealthyServers_recovery (now : Z) (p : ServerPool) :
  let p' := fst (getHealthyServers now p) in
  let listed := snd (getHealthyServers now p) in
  let another_chance s :=
    {| url := url s; priority := priority s; healthy := true; latency := latency s;
       failCount := 0; lastCheck := lastCheck s;
       successCount := successCount s; totalRequests := totalRequests s |} in
  (forall t, In t listed -> healthy t = true /\ In t (servers p'))
  /\ (forall s, In s (servers p) -> healthy s = true -> In s listed)
  /\ (forall s, In s (servers p) -> healthy s = false ->
        recoveryTime (options p) < now - lastCheck s ->
        In (another_chance s) listed)
  /\ (forall s, In s (servers p) -> healthy s = false ->
        now - lastCheck s <= recoveryTime (options p) ->
        In s (servers p')
        /\ (NoDup (map url (servers p)) -> forall t, In t listed -> url t <> url s)).
Proof.
  cbv zeta. split; [|split; [|split]].
  - intros t I. split; [now apply getHealthyServers_healthy in I|].
    apply getHealthyServers_In in I. destruct I as [s [I E]].
    unfold getHealthyServers. cbn [fst set_servers servers].
    rewrite map_map. apply in_map_iff. exists s. now rewrite E.
  - intros s I H. apply getHealthyServers_In. exists s. split; [exact I|].
    unfold give_another_chance. now rewrite H.
  - intros s I H L. apply getHealthyServers_In. exists s. split; [exact I|].
    unfold give_another_chance. rewrite H.
    apply Z.ltb_lt in L. now rewrite L.
  - intros s I H L.
    assert (E : give_another_chance now (recoveryTime (options p)) s = (s, false)).
    { unfold give_another_chance. rewrite H.
      apply Z.ltb_ge in L. now rewrite L. }
    split.
    + unfold getHealthyServers. cbn [fst set_servers servers].
      rewrite map_map. apply in_map_iff. exists s. now rewrite E.
    + intros N t It Hu. apply getHealthyServers_In in It.
      destruct It as [s' [I' E']].
      assert (U : url s' = url s).
      { rewrite <- Hu. change t with (fst (t, true)). rewrite <- E'.
        symmetry. apply give_another_chance_url. }
      assert (s' = s).
      { clear - N I I' U. induction (servers p) as [|x r IH]; [destruct I|].
        cbn [map] in N. inversion N as [|? ? Hx Hr]; subst.
        destruct I as [-> | I], I' as [-> | I'].
        - reflexivity.
        - elim Hx. rewrite <- U. now apply in_map.
        - elim Hx. rewrite U. now apply in_map.
        - now apply IH. }
      subst s'. rewrite E in E'. discriminate.
Qed.

(** ** Selection *)

Lemma fold_priority l : forall best,
  let pick := fun best server : ServerInfo =>
                if Z.ltb (priority server) (priority best) then server else best in
  let r := fold_left pick l best in
  (r = best /\ Forall (fun t => priority best <= priority t) l)
  \/ (exists before after,
         l = before ++ r :: after
         /\ priority r < priority best
         /\ Forall (fun t => priority r < priority t) before
         /\ Forall (fun t => priority r <= priority t) after).
Proof.
  cbv zeta. induction l as [|s l IH]; intro best; cbn [fold_left].
  - left. split; [reflexivity | constructor].
  - destruct (Z.ltb (priority s) (priority best)) eqn:E.
    + apply Z.ltb_lt in E.
      destruct (IH s) as [[R F] | [before [after [L [P [F1 F2]]]]]].
      * right. exists [], l. rewrite R. cbn [app]. repeat split; try assumption; constructor.
      * right. exists (s :: before), after. rewrite L at 1. cbn [app].
        split; [reflexivity|]. split; [lia|]. split; [|exact F2].
        constructor; [lia | exact F1].
    + apply Z.ltb_ge in E.
      destruct (IH best) as [[R F] | [before [after [L [P [F1 F2]]]]]].
      * left. split; [exact R|]. constructor; [lia | exact F].
      * right. exists (s :: before), after. rewrite L at 1. cbn [app].
        split; [reflexivity|]. split; [lia|]. split; [|exact F2].
        constructor; [lia | exact F1].
Qed.

Lemma selectByPriority_first_lowest l :
  l <> [] ->
  exists r before after,
    selectByPriority l = Return r
    /\ l = before ++ r :: after
    /\ Forall (fun t => priority r < priority t) before
    /\ Forall (fun t => priority r <= priority t) after.
Proof.
  destruct l as [|x l]; [congruence|]. intros _.
  unfold selectByPriority, reduce.
  destruct (fold_priority l x) as [[R F] | [before [after [L [P [F1 F2]]]]]].
  - exists x, [], l. rewrite R. repeat split; try assumption; constructor.
  - eexists _, (x :: before), after. split; [reflexivity|].
    split; [cbn [app]; now rewrite L at 1|]. split; [|exact F2].
    constructor; [lia | exact F1].
Qed.

(** Under the strategy 'priority', [selectServer] returns the first of the
    healthy servers that has the lowest priority value. *)
Theorem priority_selects_lowest_value (now : Z) (p : ServerPool) :
  strategy (options p) = js "priority" ->
  snd (getHealthyServers now p) <> [] ->
  exists r before after,
    selectServer now p = Return (fst (getHealthyServers now p), Some r)
    /\ snd (getHealthyServers now p) = before ++ r :: after
    /\ Forall (fun t => priority r < priority t) before
    /\ Forall (fun t => priority r <= priority t) after.
Proof.
  intros Hs Hne. unfold selectServer.
  destruct (getHealthyServers_pool now p) as [_ [Ho _]].
  destruct (getHealthyServers now p) as [p1 hs]. cbn [fst snd] in *.
  destruct (selectByPriority_first_lowest hs Hne) as [r [before [after [R [L [F1 F2]]]]]].
  destruct hs as [|h hs']; [congruence|].
  rewrite Ho, Hs.
  replace (jsstring_eqb (js "priority") (js "round-robin")) with false by reflexivity.
  replace (jsstring_eqb (js "priority") (js "priority")) with true by reflexivity.
  rewrite R. cbn [bind]. exists r, before, after. repeat split; assumption.
Qed.

Lemma selectRoundRobin_some (l : list ServerInfo) (counter : Z) :
  l <> [] -> 0 <= counter ->
  exists s, fst (selectRoundRobin l counter) = Some s /\ In s l.
Proof.
  intros Hne Hc. unfold selectRoundRobin. cbn [fst].
  assert (B : (Z.to_nat (counter mod Z.of_nat (length l)) < length l)%nat).
  { assert (0 < Z.of_nat (length l)) by (destruct l; [congruence | cbn [length]; lia]).
    pose proof (Z.mod_pos_bound counter (Z.of_nat (length l)) H). lia. }
  apply nth_error_Some in B.
  destruct (nth_error l (Z.to_nat (counter mod Z.of_nat (length l)))) as [s|] eqn:E;
    [|congruence].
  exists s. split; [reflexivity|]. eapply nth_error_In. exact E.
Qed.

Lemma selectServer_outcome (now : Z) (p : ServerPool) :
  0 <= roundRobinIndex p ->
  exists p' r,
    selectServer now p = Return (p', r)
    /\ 0 <= roundRobinIndex p'
    /\ servers p' = servers (fst (getHealthyServers now p))
    /\ (r = None <-> snd (getHealthyServers now p) = [])
    /\ (forall s, r = Some s ->
          In s (snd (getHealthyServers now p)) /\ healthy s = true).
Proof.
  intro Hc. unfold selectServer.
  pose proof (getHealthyServers_healthy now p) as Hh.
  destruct (getHealthyServers_pool now p) as [_ [_ Hr]].
  destruct (getHealthyServers now p) as [p1 hs]. cbn [fst snd] in *.
  destruct hs as [|h hs'] eqn:Ehs.
  - exists p1, None. split; [reflexivity|]. split; [lia|]. repeat split; congruence.
  - rewrite <- Ehs in *.
    assert (Hne : hs <> []) by (rewrite Ehs; discriminate).
    destruct (jsstring_eqb (strategy (options p1)) (js "round-robin")).
    + destruct (selectRoundRobin_some hs (roundRobinIndex p1) Hne) as [s [E I]];
        [lia|].
      unfold selectRoundRobin in *. cbn [fst] in E. rewrite E.
      eexists _, (Some s). split; [reflexivity|].
      split; [cbn [roundRobinIndex]; lia|]. split; [reflexivity|]. split.
      * split; [discriminate | congruence].
      * intros s' [= <-]. split; [exact I | now apply Hh].
    + destruct (jsstring_eqb (strategy (options p1)) (js "priority")).
      * destruct (selectByPriority_first_lowest hs Hne) as [r [b [a [R [L _]]]]].
        rewrite R. cbn [bind]. exists p1, (Some r).
        split; [reflexivity|]. split; [lia|]. split; [reflexivity|]. split.
        -- split; [discriminate | congruence].
        -- intros s' [= <-].
           assert (I : In r hs) by (rewrite L; apply in_elt).
           split; [exact I | now apply Hh].
      * destruct (selectFastest_minimal hs Hne) as [r [R [I _]]].
        rewrite R. cbn [bind]. exists p1, (Some r).
        split; [reflexivity|]. split; [lia|]. split; [reflexivity|]. split.
        -- split; [discriminate | congruence].
        -- intros s' [= <-]. split; [exact I | now apply Hh].
Qed.

(** [selectServer] never throws; it returns null exactly when no server is
    healthy or due for another chance, and otherwise one of those
    servers. *)
Theorem selectServer_null_iff_none_healthy (now : Z) (p : ServerPool) :
  0 <= roundRobinIndex p ->
  exists p' r,
    selectServer now p = Return (p', r)
    /\ servers p' = servers (fst (getHealthyServers now p))
    /\ (r = None <-> snd (getHealthyServers now p) = [])
    /\ (forall s, r = Some s ->
          In s (snd (getHealthyServers now p)) /\ healthy s = true).
Proof.
  intro Hc. destruct (selectServer_outcome now p Hc) as (p' & r & S & _ & E & N & M).
  now exists p', r.
Qed.

Lemma getNextServer_outcome (now : Z) (u : jsstring) (p : ServerPool) :
  exists p' r,
    getNextServer now u p = Return (p', r)
    /\ servers p' = servers (fst (getHealthyServers now p))
    /\ (forall s, r = Some s ->
          url s <> normalizeUrl u
          /\ In s (snd (getHealthyServers now p))
          /\ healthy s = true)
    /\ (r = None <->
        Forall (fun s => url s = normalizeUrl u) (snd (getHealthyServers now p))).
Proof.
  unfold getNextServer.
  pose proof (getHealthyServers_healthy now p) as Hh.
  destruct (getHealthyServers now p) as [p1 hs]. cbn [fst snd] in *.
  set (keep := fun s : ServerInfo => negb (jsstring_eqb (url s) (normalizeUrl u))).
  destruct (filter keep hs) as [|h others] eqn:F.
  - exists p1, None. split; [reflexivity|]. split; [reflexivity|]. split; [congruence|].
    split; [intros _ | reflexivity].
    apply Forall_forall. intros s I.
    destruct (jsstring_eqb (url s) (normalizeUrl u)) eqn:E;
      [now apply jsstring_eqb_eq|].
    assert (X : In s (filter keep hs)).
    { apply filter_In. split; [exact I|]. unfold keep. now rewrite E. }
    rewrite F in X. destruct X.
  - rewrite <- F.
    assert (Hne : filter keep hs <> []) by (rewrite F; discriminate).
    destruct (selectFastest_minimal _ Hne) as [r [R [I _]]].
    rewrite R. cbn [bind].
    apply filter_In in I. destruct I as [I K].
    assert (U : url r <> normalizeUrl u).
    { unfold keep in K. apply negb_true_iff in K. now apply jsstring_eqb_neq. }
    destruct (filter keep hs) as [|h' o'] eqn:F'; [congruence|].
    exists p1, (Some r). split; [reflexivity|]. split; [reflexivity|]. split.
    + intros s [= <-]. split; [exact U|]. split; [exact I | now apply Hh].
    + split; [discriminate|]. intro A. rewrite Forall_forall in A.
      elim U. now apply A.
Qed.

(** [getNextServer] never throws and never returns the server under the
    excluded URL: it returns a healthy server under another URL, or null
    exactly when every healthy server is under the excluded URL. *)
Theorem getNextServer_skips_excluded (now : Z) (u : jsstring) (p : ServerPool) :
  exists p' r,
    getNextServer now u p = Return (p', r)
    /\ servers p' = servers (fst (getHealthyServers now p))
    /\ (forall s, r = Some s ->
          url s <> normalizeUrl u
          /\ In s (snd (getHealthyServers now p))
          /\ healthy s = true)
    /\ (r = None <->
        Forall (fun s => url s = normalizeUrl u) (snd (getHealthyServers now p))).
Proof. apply getNextServer_outcome. Qed.

(** ** Round robin *)

Lemma selectServer_round_robin (now : Z) (p : ServerPool) :
  strategy (options p) = js "round-robin" ->
  servers p <> [] ->
  forallb healthy (servers p) = true ->
  selectServer now p
  = Return ({| servers := servers p; options := options p;
               roundRobinIndex := roundRobinIndex p + 1 |},
            nth_error (servers p)
              (Z.to_nat (roundRobinIndex p mod Z.of_nat (length (servers p))))).
Proof.
  intros Hs Hne Hh. unfold selectServer.
  rewrite (getHealthyServers_all_healthy now p Hh).
  destruct (servers p) as [|x r]; [congruence|].
  rewrite Hs. replace (jsstring_eqb (js "round-robin") (js "round-robin")) with true
    by reflexivity.
  reflexivity.
Qed.

Lemma nth_error_seq {A} (l : list A) :
  map (nth_error l) (seq 0 (length l)) = map Some l.
Proof.
  induction l as [|x l IH]; [reflexivity|].
  cbn [length seq map nth_error]. f_equal.
  rewrite <- seq_shift, map_map. exact IH.
Qed.

(** Under the strategy 'round-robin', while every server is marked
    healthy, the successive calls of [selectServer] return the servers in
    the order of insertion, cyclically from the position that the counter
    gives, and each call advances the counter by one. Starting from the
    counter 0, as many calls as there are servers return each server
    once. *)
Theorem round_robin_takes_each_server_in_turn (times : list Z) (p : ServerPool) :
  strategy (options p) = js "round-robin" ->
  servers p <> [] ->
  forallb healthy (servers p) = true ->
  0 <= roundRobinIndex p ->
  selectServer_calls times p
  = Return ({| servers := servers p; options := options p;
               roundRobinIndex := roundRobinIndex p + Z.of_nat (length times) |},
            map (fun i => nth_error (servers p)
                            (Z.to_nat ((roundRobinIndex p + Z.of_nat i)
                                       mod Z.of_nat (length (servers p)))))
                (seq 0 (length times)))
  /\ (roundRobinIndex p = 0 -> length times = length (servers p) ->
      exists p', selectServer_calls times p = Return (p', map Some (servers p))).
Proof.
  intros Hs Hne Hh Hc.
  assert (G : forall times p, strategy (options p) = js "round-robin" ->
                servers p <> [] -> forallb healthy (servers p) = true ->
                selectServer_calls times p
                = Return ({| servers := servers p; options := options p;
                             roundRobinIndex := roundRobinIndex p + Z.of_nat (length times) |},
                          map (fun i => nth_error (servers p)
                                          (Z.to_nat ((roundRobinIndex p + Z.of_nat i)
                                                     mod Z.of_nat (length (servers p)))))
                              (seq 0 (length times)))).
  { clear. induction times as [|now later IH]; intros p Hs Hne Hh.
    - cbn [selectServer_calls length seq map]. rewrite Z.add_0_r. now destruct p.
    - cbn [selectServer_calls]. rewrite (selectServer_round_robin now p Hs Hne Hh).
      cbn [bind fst snd]. rewrite IH by assumption.
      cbn [bind fst snd servers options roundRobinIndex length seq map].
      f_equal. f_equal.
      + f_equal. lia.
      + f_equal; [now rewrite Z.add_0_r|].
        rewrite <- seq_shift, map_map. apply map_ext. intro i.
        do 3 f_equal. lia. }
  split; [now apply G|].
  intros H0 Hl. eexists. rewrite G by assumption. f_equal. f_equal.
  rewrite Hl, H0, <- nth_error_seq. apply map_ext_in. intros i I.
  apply in_seq in I. f_equal. rewrite Z.add_0_l, Z.mod_small by lia. lia.
Qed.

(** ** The fallback order *)

Lemma set_priority_twice v w s : set_priority v (set_priority w s) = set_priority v s.
Proof. reflexivity. Qed.

Lemma set_fallback_urls es : forall l,
  map url (fold_left set_fallback es l) = map url l.
Proof.
  induction es as [|e es IH]; intro l; [reflexivity|]. cbn [fold_left].
  rewrite IH. unfold set_fallback. now apply servers_update_urls.
Qed.

Lemma set_fallback_other key es : forall l,
  (forall e, In e es -> normalizeUrl (snd e) <> key) ->
  servers_get key (fold_left set_fallback es l) = servers_get key l.
Proof.
  induction es as [|e es IH]; intros l H; [reflexivity|]. cbn [fold_left].
  rewrite IH by (intros e' I; apply H; now right).
  unfold set_fallback. apply servers_get_update_other; [reflexivity|].
  intro E. apply (H e); [now left | now symmetry].
Qed.

Lemma set_fallback_keeps key es : forall l s,
  servers_get key l = Some s ->
  exists s1, servers_get key (fold_left set_fallback es l) = Some s1
             /\ forall v, set_priority v s1 = set_priority v s.
Proof.
  induction es as [|e es IH]; intros l s G; cbn [fold_left].
  - now exists s.
  - destruct (list_eq_dec N.eq_dec (normalizeUrl (snd e)) key) as [E | E].
    + destruct (IH (set_fallback l e) (set_priority (Z.of_nat (fst e) + 1) s))
        as [s1 [G1 P1]].
      { unfold set_fallback. rewrite E, servers_get_update by reflexivity.
        now rewrite G. }
      exists s1. split; [exact G1|]. intro v. now rewrite P1.
    + apply IH. unfold set_fallback.
      rewrite servers_get_update_other by (reflexivity || congruence). exact G.
Qed.

Lemma combine_seq_app {A} (l1 l2 : list A) : forall a,
  combine (seq a (length (l1 ++ l2))) (l1 ++ l2)
  = combine (seq a (length l1)) l1 ++ combine (seq (a + length l1) (length l2)) l2.
Proof.
  induction l1 as [|x l1 IH]; intro a; cbn [app length seq combine].
  - now rewrite Nat.add_0_r.
  - rewrite IH. now rewrite Nat.add_succ_r.
Qed.

(** [setFallbackOrder(urls)] gives the server under the URL at position
    [i] the priority [i + 1] (the last position counts when a URL comes
    more than once) and changes nothing else: the other fields of that
    record, the records of the servers that [urls] does not name, and the
    set of servers are as before, and a URL that the pool does not hold is
    passed over. *)
Theorem setFallbackOrder_priorities (urls : list jsstring) (p : ServerPool) :
  let p' := setFallbackOrder urls p in
  map url (servers p') = map url (servers p)
  /\ (forall key, ~ In key (map normalizeUrl urls) ->
        servers_get key (servers p') = servers_get key (servers p))
  /\ (forall i u s,
        nth_error urls i = Some u ->
        (forall j u', (i < j)%nat -> nth_error urls j = Some u' ->
                      normalizeUrl u' <> normalizeUrl u) ->
        servers_get (normalizeUrl u) (servers p) = Some s ->
        servers_get (normalizeUrl u) (servers p')
        = Some (set_priority (Z.of_nat i + 1) s)).
Proof.
  cbv zeta. unfold setFallbackOrder. cbn [set_servers servers].
  split; [apply set_fallback_urls|]. split.
  - intros key Hk. apply set_fallback_other. intros [i u] I.
    apply in_combine_r in I. cbn [snd]. intro E. apply Hk.
    rewrite <- E. now apply in_map.
  - intros i u s Hn Hlast G.
    destruct (nth_error_split urls i Hn) as [l1 [l2 [E L]]].
    rewrite E, combine_seq_app. cbn [length seq combine]. rewrite fold_left_app.
    cbn [fold_left].
    destruct (set_fallback_keeps (normalizeUrl u) (combine (seq 0 (length l1)) l1)
                _ _ G) as [s1 [G1 P1]].
    rewrite set_fallback_other.
    + unfold set_fallback at 1. cbn [fst snd].
      rewrite servers_get_update by reflexivity. rewrite G1. cbn [option_map].
      rewrite Nat.add_0_l, L. now rewrite P1.
    + intros [j u'] I. cbn [snd]. apply in_combine_r in I.
      apply In_nth_error in I. destruct I as [m Hm].
      apply (Hlast (S (i + m))); [lia|].
      rewrite E. rewrite nth_error_app2 by lia.
      replace (S (i + m) - length l1)%nat with (S m) by lia. exact Hm.
Qed.

(* ===================================================================== *)
(** * Further properties of the failover client                           *)
(* ===================================================================== *)

Section ClientFacts.

Variable Reply : Type.
Variable clock : nat -> Z.
Variable request : jsstring -> nat -> Attempt Reply.

Lemma next_untried_none fuel st attempted :
  next_untried clock fuel st attempted None = Some (Return (st, None)).
Proof. now destruct fuel. Qed.

Lemma next_untried_new fuel st attempted s :
  existsb (jsstring_eqb (url s)) attempted = false ->
  next_untried clock fuel st attempted (Some s) = Some (Return (st, Some s)).
Proof. intro H. destruct fuel; cbn [next_untried]; now rewrite H. Qed.

Lemma next_untried_old fuel st attempted s :
  existsb (jsstring_eqb (url s)) attempted = true ->
  next_untried clock (S fuel) st attempted (Some s)
  = match getNextServer (clock (ticks st)) (url s) (pool st) with
    | Return (p', next) =>
        next_untried clock fuel {| pool := p'; ticks := S (ticks st) |} attempted next
    | Throw e => Some (Throw e)
    end.
Proof. intro H. cbn [next_untried]. now rewrite H. Qed.

Lemma attempts_step fuel remaining attempt st attempted lastError :
  attempts Reply clock request fuel (S remaining) attempt st attempted lastError
  = match selectServer (clock (ticks st)) (pool st) with
    | Throw e => (Rejected e, st)
    | Return (p1, selected) =>
        match next_untried clock fuel {| pool := p1; ticks := S (ticks st) |}
                attempted selected with
        | None => (NeverSettles, st)
        | Some (Throw e) => (Rejected e, st)
        | Some (Return (st2, None)) =>
            (Rejected (all_servers_failed attempted lastError), st2)
        | Some (Return (st2, Some server)) =>
            match request (url server) attempt with
            | Fetched response elapsed =>
                (Resolved response,
                 {| pool := reportSuccess (clock (ticks st2)) (url server) (Some elapsed)
                              (pool st2);
                    ticks := S (ticks st2) |})
            | Failed error signal_aborted =>
                if is_abort error signal_aborted
                then (Rejected error,
                      {| pool := reportFailure (clock (ticks st2)) (url server) (pool st2);
                         ticks := S (ticks st2) |})
                else attempts Reply clock request fuel remaining (S attempt)
                       {| pool := reportFailure (clock (ticks st2)) (url server) (pool st2);
                          ticks := S (ticks st2) |}
                       (set_add (url server) attempted) (Some error)
            end
        end
    end.
Proof. reflexivity. Qed.

Lemma getHealthyServers_urls now p t :
  In t (snd (getHealthyServers now p)) -> In (url t) (map url (servers p)).
Proof.
  intro I. apply getHealthyServers_In in I. destruct I as [s [I E]].
  replace (url t) with (url s); [now apply in_map|].
  change t with (fst (t, true)). rewrite <- E. symmetry. apply give_another_chance_url.
Qed.

Lemma getHealthyServers_keeps now p s :
  In s (servers p) -> healthy s = true ->
  In s (servers (fst (getHealthyServers now p))) /\ In s (snd (getHealthyServers now p)).
Proof.
  intros I H.
  assert (E : give_another_chance now (recoveryTime (options p)) s = (s, true)).
  { unfold give_another_chance. now rewrite H. }
  split.
  - unfold getHealthyServers. cbn [fst set_servers servers]. rewrite map_map.
    apply in_map_iff. exists s. now rewrite E.
  - apply getHealthyServers_In. now exists s.
Qed.

Lemma servers_update_keeps key f l s :
  In s l -> url s <> key -> In s (servers_update key f l).
Proof.
  intros I U. induction l as [|x r IH]; [destruct I|]. cbn [servers_update].
  destruct (jsstring_eqb (url x) key) eqn:E.
  - destruct I as [-> | I]; [|now right].
    apply jsstring_eqb_eq in E. congruence.
  - destruct I as [-> | I]; [now left | right; now apply IH].
Qed.

Lemma reportFailure_urls now u p :
  map url (servers (reportFailure now u p)) = map url (servers p)
  /\ roundRobinIndex (reportFailure now u p) = roundRobinIndex p.
Proof.
  unfold reportFailure. cbn [set_servers servers roundRobinIndex].
  split; [now apply servers_update_urls | reflexivity].
Qed.

(** With no server that is healthy or due for another chance, [fetch]
    rejects with ALL_SERVERS_FAILED after 0 attempts, whatever the number
    of retries, and makes no request. *)
Theorem fetch_without_healthy_server
    (fuel : nat) (client_retries : Z) (retries : option Z) (st : ClientState) :
  snd (getHealthyServers (clock (ticks st)) (pool st)) = [] ->
  fst (OpenBareClient_fetch Reply clock request fuel client_retries retries st)
  = Rejected (Error "BareError" "ALL_SERVERS_FAILED"
                (js "All servers failed after 0 attempts: Unknown error") None).
Proof.
  intro H. unfold OpenBareClient_fetch.
  destruct (Z.to_nat (number_or retries client_retries)) as [|remaining];
    [reflexivity|].
  rewrite attempts_step. unfold selectServer.
  destruct (getHealthyServers (clock (ticks st)) (pool st)) as [p1 hs].
  cbn [snd] in H. subst hs. rewrite next_untried_none. reflexivity.
Qed.

(** When every server of the pool is under a URL that was tried, the loop
    ends and [fetch] rejects with ALL_SERVERS_FAILED. *)
Lemma attempts_all_tried u fuel remaining attempt st lastError :
  (forall s, In s (servers (pool st)) -> url s = u) ->
  0 <= roundRobinIndex (pool st) ->
  normalizeUrl u = u ->
  (1 <= fuel)%nat ->
  fst (attempts Reply clock request fuel remaining attempt st [u] lastError)
  = Rejected (all_servers_failed [u] lastError).
Proof.
  intros Hu Hc Hn Hf. destruct remaining as [|remaining]; [reflexivity|].
  rewrite attempts_step.
  destruct (selectServer_outcome (clock (ticks st)) (pool st) Hc)
    as (p1 & r & Sel & _ & E1 & _ & M).
  rewrite Sel. destruct r as [s1|]; [|now rewrite next_untried_none].
  destruct (M s1 eq_refl) as [I1 _].
  assert (U1 : url s1 = u).
  { apply getHealthyServers_urls in I1. apply in_map_iff in I1.
    destruct I1 as [s [<- I]]. now apply Hu. }
  destruct fuel as [|fuel]; [lia|].
  rewrite next_untried_old by (cbn [existsb]; rewrite U1, jsstring_eqb_refl; reflexivity).
  cbn [pool ticks].
  destruct (getNextServer_outcome (clock (S (ticks st))) (url s1) p1)
    as (p2 & r2 & G & _ & M2 & _).
  rewrite G. destruct r2 as [s2|]; [|now rewrite next_untried_none].
  exfalso. destruct (M2 s2 eq_refl) as [N2 [I2 _]].
  apply N2. rewrite U1, Hn.
  apply getHealthyServers_urls in I2. rewrite E1 in I2.
  destruct (getHealthyServers_pool (clock (ticks st)) (pool st)) as [Eu _].
  rewrite Eu in I2. apply in_map_iff in I2. destruct I2 as [s [<- I]]. now apply Hu.
Qed.

(** With a single server, healthy, that fails without an abort, [fetch]
    makes one attempt and rejects with ALL_SERVERS_FAILED, the failure of
    the server as its cause, whatever the number of retries. *)
Theorem fetch_single_server_fails_once
    (fuel : nat) (client_retries : Z) (retries : option Z) (st : ClientState)
    (s : ServerInfo) (e : JsError) (aborted : bool) :
  servers (pool st) = [s] ->
  healthy s = true ->
  normalizeUrl (url s) = url s ->
  0 <= roundRobinIndex (pool st) ->
  request (url s) 0 = Failed e aborted ->
  is_abort e aborted = false ->
  1 <= number_or retries client_retries ->
  (1 <= fuel)%nat ->
  fst (OpenBareClient_fetch Reply clock request fuel client_retries retries st)
  = Rejected (all_servers_failed [url s] (Some e)).
Proof.
  intros Hs Hh Hn Hc Hb Ha Hr Hf. unfold OpenBareClient_fetch.
  destruct (Z.to_nat (number_or retries client_retries)) as [|remaining] eqn:En; [lia|].
  rewrite attempts_step.
  destruct (selectServer_outcome (clock (ticks st)) (pool st) Hc)
    as (p1 & r & Sel & C1 & E1 & N & M).
  rewrite Sel.
  destruct (getHealthyServers_pool (clock (ticks st)) (pool st)) as [Eu _].
  destruct r as [s1|].
  2:{ exfalso. destruct N as [N _]. specialize (N eq_refl).
      destruct (getHealthyServers_keeps (clock (ticks st)) (pool st) s) as [_ I];
        [rewrite Hs; now left | exact Hh |].
      rewrite N in I. destruct I. }
  destruct (M s1 eq_refl) as [I1 _].
  assert (U1 : url s1 = url s).
  { apply getHealthyServers_urls in I1. rewrite Hs in I1.
    destruct I1 as [I1 | []]. now symmetry. }
  rewrite next_untried_new by reflexivity.
  rewrite U1, Hb, Ha. cbn [pool ticks].
  change (set_add (url s) []) with [url s].
  apply attempts_all_tried; try assumption.
  cbn [pool]. intros x Ix.
  destruct (reportFailure_urls (clock (S (ticks st))) (url s) p1) as [Er _].
  apply (in_map url) in Ix. rewrite Er, E1, Eu, Hs in Ix.
  destruct Ix as [Ix | []]. now symmetry.
Qed.

(** With one server that answers and the others under one URL that fails
    without an abort, [fetch] with at least two retries resolves with the
    response of the server that answers, whichever is selected first. *)
Theorem fetch_fails_over_to_the_live_server
    (fuel : nat) (client_retries : Z) (retries : option Z) (st : ClientState)
    (live : ServerInfo) (dead : jsstring) (e : JsError) (aborted : bool)
    (response : Reply) (elapsed : float) :
  In live (servers (pool st)) ->
  healthy live = true ->
  (forall s, In s (servers (pool st)) -> url s = url live \/ url s = dead) ->
  url live <> dead ->
  normalizeUrl dead = dead ->
  0 <= roundRobinIndex (pool st) ->
  (forall attempt, request dead attempt = Failed e aborted) ->
  is_abort e aborted = false ->
  (forall attempt, request (url live) attempt = Fetched response elapsed) ->
  2 <= number_or retries client_retries ->
  (1 <= fuel)%nat ->
  fst (OpenBareClient_fetch Reply clock request fuel client_retries retries st)
  = Resolved response.
Proof.
  intros Hl Hh Hu Hd Hn Hc Hb Ha Hg Hr Hf. unfold OpenBareClient_fetch.
  destruct (Z.to_nat (number_or retries client_retries)) as [|[|remaining]] eqn:En;
    [lia | lia |].
  assert (Step : forall now p,
             In live (servers p) ->
             (forall s, In s (servers p) -> url s = url live \/ url s = dead) ->
             let q := fst (getHealthyServers now p) in
             In live (servers q)
             /\ (forall s, In s (servers q) -> url s = url live \/ url s = dead)
             /\ In live (snd (getHealthyServers now p))
             /\ (forall s, In s (snd (getHealthyServers now p)) ->
                   url s = url live \/ url s = dead)).
  { intros now p Il Iu. cbv zeta.
    destruct (getHealthyServers_keeps now p live Il Hh) as [K1 K2].
    destruct (getHealthyServers_pool now p) as [Eu _].
    split; [exact K1|]. split; [|split; [exact K2|]].
    - intros s I. apply (in_map url) in I. rewrite Eu in I.
      apply in_map_iff in I. destruct I as [s' [<- I]]. now apply Iu.
    - intros s I. apply getHealthyServers_urls in I.
      apply in_map_iff in I. destruct I as [s' [<- I]]. now apply Iu. }
  rewrite attempts_step.
  destruct (selectServer_outcome (clock (ticks st)) (pool st) Hc)
    as (p1 & r & Sel & C1 & E1 & N & M).
  rewrite Sel.
  destruct (Step (clock (ticks st)) (pool st) Hl Hu) as (L1 & U1 & K1 & V1).
  rewrite <- E1 in L1, U1.
  destruct r as [s1|].
  2:{ exfalso. destruct N as [N _]. rewrite (N eq_refl) in K1. destruct K1. }
  destruct (M s1 eq_refl) as [I1 _].
  rewrite next_untried_new by reflexivity.
  destruct (V1 s1 I1) as [A1 | A1]; rewrite A1; [now rewrite Hg|].
  rewrite Hb, Ha. cbn [pool ticks]. change (set_add dead []) with [dead].
  set (p2 := reportFailure (clock (S (ticks st))) dead p1).
  assert (L2 : In live (servers p2)).
  { unfold p2, reportFailure. cbn [set_servers servers].
    apply servers_update_keeps; [exact L1 | now rewrite Hn]. }
  assert (U2 : forall s, In s (servers p2) -> url s = url live \/ url s = dead).
  { intros s I. destruct (reportFailure_urls (clock (S (ticks st))) dead p1) as [Er _].
    fold p2 in Er. apply (in_map url) in I. rewrite Er in I.
    apply in_map_iff in I. destruct I as [s' [<- I]]. now apply U1. }
  assert (C2 : 0 <= roundRobinIndex p2).
  { destruct (reportFailure_urls (clock (S (ticks st))) dead p1) as [_ Er].
    fold p2 in Er. now rewrite Er. }
  rewrite attempts_step. cbn [pool ticks].
  destruct (selectServer_outcome (clock (S (S (ticks st)))) p2 C2)
    as (p3 & r3 & Sel3 & C3 & E3 & N3 & M3).
  rewrite Sel3.
  destruct (Step (clock (S (S (ticks st)))) p2 L2 U2) as (L3 & U3 & K3 & V3).
  rewrite <- E3 in L3, U3.
  destruct r3 as [s3|].
  2:{ exfalso. destruct N3 as [N3 _]. rewrite (N3 eq_refl) in K3. destruct K3. }
  destruct (M3 s3 eq_refl) as [I3 _].
  destruct (V3 s3 I3) as [A3 | A3].
  - rewrite next_untried_new.
    + rewrite A3. now rewrite Hg.
    + cbn [existsb]. rewrite A3.
      replace (jsstring_eqb (url live) dead) with false; [reflexivity|].
      symmetry. now apply jsstring_eqb_neq.
  - destruct fuel as [|fuel]; [lia|].
    rewrite next_untried_old
      by (cbn [existsb]; rewrite A3, jsstring_eqb_refl; reflexivity).
    cbn [pool ticks].
    destruct (getNextServer_outcome (clock (S (S (S (ticks st))))) (url s3) p3)
      as (p4 & r4 & G & E4 & M4 & N4).
    rewrite G.
    destruct (Step (clock (S (S (S (ticks st))))) p3 L3 U3) as (_ & _ & K4 & V4).
    destruct r4 as [s4|].
    2:{ exfalso. destruct N4 as [N4 _]. specialize (N4 eq_refl).
        rewrite Forall_forall in N4. specialize (N4 live K4).
        rewrite A3, Hn in N4. contradiction. }
    destruct (M4 s4 eq_refl) as [X4 [I4 _]].
    rewrite A3, Hn in X4.
    destruct (V4 s4 I4) as [A4 | A4]; [|contradiction].
    rewrite next_untried_new.
    + rewrite A4. now rewrite Hg.
    + cbn [existsb]. rewrite A4.
      replace (jsstring_eqb (url live) dead) with false; [reflexivity|].
      symmetry. now apply jsstring_eqb_neq.
Qed.

End ClientFacts.

(* ===================================================================== *)
(** * Further properties of the codec                                     *)
(* ===================================================================== *)

Lemma lxor_twice_low c key :
  (c < 65536)%N -> (N.lxor (N.lxor c key mod 65536) key mod 65536 = c)%N.
Proof.
  intro H.
  enough (X : (N.lxor (N.lxor c key mod 65536) key mod 65536 = c mod 65536)%N)
    by (rewrite X; now apply N.mod_small).
  change 65536%N with (2 ^ 16)%N. apply N.bits_inj. intro n.
  destruct (N.lt_ge_cases n 16) as [L | G].
  - rewrite !N.mod_pow2_bits_low by exact L.
    rewrite N.lxor_spec, N.mod_pow2_bits_low by exact L.
    rewrite N.lxor_spec. now destruct (N.testbit c n), (N.testbit key n).
  - now rewrite !N.mod_pow2_bits_high by exact G.
Qed.

(** [xor] with the same key twice gives the string back: for every string
    and every key, [xor(xor(s, key), key)] is [s]. *)
Theorem xor_is_an_involution (s : jsstring) (key : N) :
  Forall (fun c => (c < 65536)%N) s ->
  exists t, xor (VJson (JString s)) key = Return t
            /\ length t = length s
            /\ xor (VJson (JString t)) key = Return s.
Proof.
  intro H. unfold xor. eexists. split; [reflexivity|]. split; [apply length_map|].
  f_equal. rewrite map_map. rewrite <- (map_id s) at 2.
  apply map_ext_in. intros c I. rewrite Forall_forall in H.
  now apply lxor_twice_low, H.
Qed.

Lemma lxor2_low_octet c :
  (c < 65536)%N ->
  (N.lxor ((N.lxor c 2 mod 65536) mod 256) 2 mod 65536 = c mod 256)%N.
Proof.
  intro H.
  enough (X : (N.lxor ((N.lxor c 2 mod 65536) mod 256) 2 mod 65536
               = (c mod 256) mod 65536)%N)
    by (rewrite X; apply N.mod_small; pose proof (N.mod_upper_bound c 256); lia).
  change 65536%N with (2 ^ 16)%N. change 256%N with (2 ^ 8)%N.
  apply N.bits_inj. intro n.
  destruct (N.lt_ge_cases n 16) as [L | G].
  - rewrite !N.mod_pow2_bits_low by exact L. rewrite N.lxor_spec.
    destruct (N.lt_ge_cases n 8) as [L8 | G8].
    + rewrite !N.mod_pow2_bits_low by assumption. rewrite N.lxor_spec.
      now destruct (N.testbit c n), (N.testbit 2 n).
    + rewrite !N.mod_pow2_bits_high by exact G8.
      replace (N.testbit 2 n) with false; [reflexivity|].
      symmetry. apply N.bits_above_log2. cbn. lia.
  - now rewrite !N.mod_pow2_bits_high by exact G.
Qed.

(** Without [btoa] and [atob], where the codec goes through [Buffer],
    [decodeUrl(encodeUrl(u))] is [u] with every code unit reduced to its
    low octet: a code unit above 0xFF is not refused, it is truncated. *)
Theorem codec_url_truncates_with_Buffer (u : jsstring) :
  btoa_defined = false ->
  atob_defined = false ->
  Forall (fun c => (c < 65536)%N) u ->
  exists token, encodeUrl (VJson (JString u)) = Return token
                /\ decodeUrl (VJson (JString token))
                   = Return (map (fun c => (c mod 256)%N) u).
Proof.
  intros Hb Ha H. unfold encodeUrl, decodeUrl, xor, bind. rewrite Hb, Ha.
  eexists. split; [reflexivity|]. f_equal.
  unfold Base64.buffer_to_binary. rewrite buffer_from_base64_encode.
  - unfold Base64.buffer_from_binary. rewrite !map_map.
    apply map_ext_in. intros c I. rewrite Forall_forall in H.
    now apply lxor2_low_octet, H.
  - unfold Base64.buffer_from_binary, octets. rewrite map_map.
    apply Forall_forall. intros x I. apply in_map_iff in I.
    destruct I as [c [<- _]].
    pose proof (N.mod_upper_bound (N.lxor c 2 mod 65536) 256). lia.
Qed.

Lemma ends_with_removelast c s :
  ends_with c s = true -> s = removelast s ++ [c].
Proof.
  induction s as [|x r IH]; [discriminate|]. destruct r as [|y r'].
  - cbn. intro E. apply N.eqb_eq in E. now subst.
  - intro E. change (ends_with c (x :: y :: r')) with (ends_with c (y :: r')) in E.
    change (removelast (x :: y :: r')) with (x :: removelast (y :: r')).
    cbn [app]. f_equal. now apply IH.
Qed.

Lemma ends_with_app c s : ends_with c (s ++ [c]) = true.
Proof.
  induction s as [|x r IH]; [cbn; apply N.eqb_refl|].
  destruct r as [|y r']; [cbn; apply N.eqb_refl|]. exact IH.
Qed.

(** [createBareUrl] gives the URL that [bareFetch] requests for the same
    server, and a slash at the end of the server URL makes no
    difference. *)
Theorem createBareUrl_is_the_endpoint (baseUrl : jsstring) :
  createBareUrl baseUrl = bare_endpoint baseUrl
  /\ (ends_with 47%N baseUrl = false ->
      createBareUrl (baseUrl ++ js "/") = createBareUrl baseUrl).
Proof.
  unfold createBareUrl, bare_endpoint. split.
  - destruct (ends_with 47%N baseUrl) eqn:E; [|reflexivity].
    rewrite (ends_with_removelast _ _ E) at 2. now rewrite <- app_assoc.
  - intro E. rewrite E. change (js "/") with [47%N].
    rewrite ends_with_app. now rewrite removelast_last.
Qed.

(* ===================================================================== *)
(** * Properties of bareFetch                                             *)
(* ===================================================================== *)

(** What [encodeHeaders] returns is the JSON text of an object whose
    values are strings. *)
Lemma dict_set_string_strings d k s ps :
  own d = map (fun kv => (fst kv, DString (snd kv))) ps ->
  exists ps', own (dict_set_string d k s)
              = map (fun kv : jsstring * jsstring => (fst kv, DString (snd kv))) ps'.
Proof.
  intro E. unfold dict_set_string.
  destruct (props_lookup k (own d)).
  - exists (props_replace k s ps). cbn [own]. rewrite E.
    symmetry. apply (props_replace_map DString).
  - destruct (jsstring_eqb k proto_key).
    + now exists ps.
    + exists (props_define k s ps). cbn [own]. rewrite E.
      symmetry. apply (props_define_map DString).
Qed.

Lemma fold_encode_entry_throw entries e :
  fold_left encode_entry entries (Throw e) = Throw e.
Proof. induction entries as [|kv r IH]; [reflexivity | exact IH]. Qed.

Lemma fold_encode_entry_strings entries : forall d d' ps,
  own d = map (fun kv => (fst kv, DString (snd kv))) ps ->
  fold_left encode_entry entries (Return d) = Return d' ->
  exists ps', own d' = map (fun kv : jsstring * jsstring => (fst kv, DString (snd kv))) ps'.
Proof.
  induction entries as [|kv r IH]; intros d d' ps E F; cbn [fold_left] in F.
  - injection F as <-. now exists ps.
  - unfold encode_entry at 2 in F. cbn [bind] in F.
    destruct (ToString (snd kv)) as [s|e]; cbn [bind] in F.
    + destruct (dict_set_string_strings d (toLowerCase (fst kv)) s ps E) as [ps1 E1].
      exact (IH _ _ _ E1 F).
    + rewrite fold_encode_entry_throw in F. discriminate.
Qed.

Lemma encodeHeaders_token headers encoded :
  encodeHeaders headers = Return encoded ->
  exists ps, encoded = JSON_stringify (JObject (string_valued ps)).
Proof.
  assert (Empty : js "{}" = JSON_stringify (JObject (string_valued []))) by reflexivity.
  assert (G : forall h, (encoded0 <- fold_left encode_entry (Object_entries h)
                                       (Return empty_dict) ;;
                         Return (JSON_stringify (dict_json encoded0))) = Return encoded ->
                        exists ps, encoded = JSON_stringify (JObject (string_valued ps))).
  { intros h F.
    destruct (fold_left encode_entry (Object_entries h) (Return empty_dict)) as [d|e] eqn:E;
      [|discriminate].
    cbn [bind] in F.
    destruct (fold_encode_entry_strings _ empty_dict d [] eq_refl E) as [ps E'].
    assert (J : dict_json d = JObject (string_valued ps)).
    { unfold dict_json, string_valued. now rewrite E', map_map. }
    rewrite J in F. exists ps. congruence. }
  unfold encodeHeaders.
  destruct headers as [[| | | | |]|]; intro F;
    try (injection F as <-; now exists []); now apply (G _ F).
Qed.

Section BareFetchFacts.

Variable Stream : Type.
Variable fetch : jsstring -> jsstring -> list (jsstring * jsstring) -> option Stream
                 -> completion (RelayReply Stream).
Variable new_Headers : Json -> completion Headers.

(** Whatever makes [bareFetch] reject, it rejects with a BareError: with
    the code INVALID_SERVER when the server is not a non-empty string,
    INVALID_URL when the target does not parse, TIMEOUT when the request
    was aborted, and FETCH_ERROR, with the failure as the cause and in the
    message, for every other failure between the encoding of the headers
    and the reading of the reply. The code is never ABORT. *)
Theorem bareFetch_rejects_with_a_BareError
    (bareServer : JsValue) (targetUrl : jsstring) (options : BareFetchOptions Stream)
    (e : JsError) :
  bareFetch Stream fetch new_Headers bareServer targetUrl options = Throw e ->
  exists code message cause,
    e = Error "BareError" code message cause
    /\ ((code = "INVALID_SERVER"%string
         /\ forall c s, bareServer <> VJson (JString (c :: s)))
        \/ (code = "INVALID_URL"%string /\ URL_parse targetUrl = None)
        \/ (code = "TIMEOUT"%string /\ cause = None)
        \/ (code = "FETCH_ERROR"%string
            /\ exists inner, cause = Some inner
                             /\ message = js "Fetch failed: " ++ error_message inner))
    /\ is_abort e false = false.
Proof.
  unfold bareFetch.
  assert (Invalid : (forall c s, bareServer <> VJson (JString (c :: s))) ->
            @Throw (BareResponse Stream)
              (Error "BareError" "INVALID_SERVER" (js "Invalid bare server URL") None)
            = Throw e ->
            exists code message cause,
              e = Error "BareError" code message cause
              /\ ((code = "INVALID_SERVER"%string
                   /\ forall c s, bareServer <> VJson (JString (c :: s)))
                  \/ (code = "INVALID_URL"%string /\ URL_parse targetUrl = None)
                  \/ (code = "TIMEOUT"%string /\ cause = None)
                  \/ (code = "FETCH_ERROR"%string
                      /\ exists inner, cause = Some inner
                                       /\ message = js "Fetch failed: " ++ error_message inner))
              /\ is_abort e false = false).
  { intros N [= <-]. do 3 eexists. split; [reflexivity|]. split; [|reflexivity].
    left. now split. }
  destruct bareServer as [|j|]; try (apply Invalid; intros; discriminate).
  destruct j as [| | |s| |]; try (apply Invalid; intros; discriminate).
  destruct s as [|c s]; [apply Invalid; intros; discriminate|]. clear Invalid.
  destruct (URL_parse targetUrl) as [parsedTarget|] eqn:P.
  - match goal with |- try_catch ?body _ = _ -> _ => destruct body as [r|inner] end;
      cbn [try_catch]; [discriminate|].
    destruct (String.eqb (error_name inner) "AbortError"); intros [= <-].
    + do 3 eexists. split; [reflexivity|]. split; [|reflexivity].
      right. right. left. now split.
    + do 3 eexists. split; [reflexivity|]. split; [|reflexivity].
      right. right. right. split; [reflexivity|]. now exists inner.
  - intros [= <-]. do 3 eexists. split; [reflexivity|]. split; [|reflexivity].
    right. left. now split.
Qed.

(** The reply of the relay as the caller of [bareFetch] sees it: when the
    reply carries the headers that [buildBareResponseHeaders] made for a
    response of the target, the status is the one parsed from the decimal
    text of the status of the target, not the 200 of the relay; the status
    text is that of the target (that of the reply when the target gave
    none); the body and the URL are those of the reply and of the call. *)
Theorem client_sees_the_status_of_the_target
    (B : Type) (target_response : Upstream B)
    (corsHeaders : list (jsstring * jsstring)) (stripHeaders : list jsstring)
    (reply : RelayReply Stream) (targetUrl : jsstring) (decoded : Json) (hs : Headers) :
  reply_headers Stream reply
  = buildBareResponseHeaders target_response corsHeaders stripHeaders ->
  decodeHeaders (Headers_get (js "x-bare-headers") (reply_headers Stream reply))
  = Return decoded ->
  new_Headers decoded = Return hs ->
  exists r,
    bare_response Stream new_Headers targetUrl reply = Return r
    /\ response_status Stream r = parseInt10 (decimal_of_Z (up_status target_response))
    /\ response_statusText Stream r
       = match up_statusText target_response with
         | [] => reply_statusText Stream reply
         | text => text
         end
    /\ response_headers Stream r = hs
    /\ response_body Stream r = reply_body Stream reply
    /\ response_url Stream r = targetUrl.
Proof.
  intros Hh Hd Hn. unfold bare_response. rewrite Hd. cbn [bind]. rewrite Hn. cbn [bind].
  eexists. split; [reflexivity|]. cbn [response_status response_statusText response_headers
                                         response_body response_url].
  destruct (bare_response_headers target_response corsHeaders stripHeaders)
    as (S1 & S2 & _).
  rewrite Hh, S1, S2.
  assert (D : exists c r, decimal_of_Z (up_status target_response) = c :: r).
  { unfold decimal_of_Z.
    destruct (Z.to_int (up_status target_response)) as [d|d]; cbn.
    - destruct d; cbn; eauto.
    - eauto. }
  destruct D as (c & r & D). rewrite D. cbn [present].
  split; [reflexivity|]. split; [|repeat split].
  now destruct (up_statusText target_response).
Qed.

End BareFetchFacts.

(** The headers that [bareFetch] sends, read by the relay: for a target
    URL that parses, [parseBareHeaders] accepts them, [buildTargetUrl]
    gives the URL that the client parsed, and the headers that the relay
    will send on are what [JSON.parse] makes of the text that
    [encodeHeaders] gave. *)
Theorem relay_reads_what_bareFetch_sends
    (B : Type) (targetUrl : jsstring) (parsedTarget : URL) (headers : Json)
    (record : list (jsstring * jsstring)) (request : Request B) :
  URL_parse targetUrl = Some parsedTarget ->
  targetUrl <> [] ->
  bare_request_headers targetUrl parsedTarget headers = Return record ->
  request_headers request = Headers_of record ->
  exists data encoded,
    parseBareHeaders request = Return data
    /\ bare_url data = Some targetUrl
    /\ buildTargetUrl data = Return parsedTarget
    /\ encodeHeaders (Some headers) = Return encoded
    /\ JSON_parse encoded = Return (bare_headers data).
Proof.
  intros Hp Hne Hr Hq. unfold bare_request_headers in Hr.
  destruct (encodeHeaders (Some headers)) as [encoded|] eqn:He; [|discriminate].
  cbn [bind] in Hr.
  destruct (get_property (js "content-type") headers) as [contentType|]; [|discriminate].
  cbn [bind] in Hr.
  destruct (encodeHeaders_token _ _ He) as [ps Et].
  assert (Ne : exists c r, encoded = c :: r).
  { rewrite Et, JSON_stringify_string_valued. now eexists _, _. }
  destruct Ne as (c & r & Ne).
  assert (Hj : JSON_parse encoded
               = Return (JObject (fold_left (fun a kv => props_define (fst kv)
                                                          (JString (snd kv)) a) ps [])))
    by (rewrite Et; apply JSON_parse_stringify_string_valued).
  destruct targetUrl as [|t ts]; [congruence|].
  assert (G : Headers_get (js "x-bare-url") (request_headers request) = Some (t :: ts)
              /\ Headers_get (js "x-bare-headers") (request_headers request)
                 = Some encoded).
  { rewrite Hq.
    destruct (option_truthy contentType); injection Hr as <-; split; reflexivity. }
  destruct G as [G1 G2].
  assert (Pr : present (Some encoded) = Some encoded) by (now rewrite Ne).
  unfold parseBareHeaders. rewrite G1, G2, Pr, Hj. cbn [try_catch bind].
  eexists _, encoded. split; [reflexivity|]. cbn [bare_url bare_headers].
  split; [reflexivity|]. split; [|split; [reflexivity | exact Hj]].
  unfold buildTargetUrl. cbn [bare_url present]. now rewrite Hp.
Qed.

(* ===================================================================== *)
(** * Further properties of the relay                                     *)
(* ===================================================================== *)

Lemma Headers_get_name (m n : jsstring) (h : Headers) :
  header_name m = header_name n -> Headers_get m h = Headers_get n h.
Proof. intro E. unfold Headers_get. now rewrite E. Qed.

Lemma Headers_set_name (m n v : jsstring) (h : Headers) :
  header_name m = header_name n -> Headers_set m v h = Headers_set n v h.
Proof. intro E. unfold Headers_set, Headers_has. now rewrite E. Qed.

Section RelayFacts.

Variable B : Type.
Variable fetch : jsstring -> jsstring -> Headers -> option B -> completion (Upstream B).
Variable randomUUID : jsstring.

Lemma handleBareV3Request_BareError request corsHeaders stripHeaders code message cause :
  proxied B fetch request = Throw (Error "BareError" code message cause) ->
  handleBareV3Request B fetch randomUUID request corsHeaders stripHeaders
  = error_response B randomUUID 400 (js code) message corsHeaders.
Proof. intro H. unfold handleBareV3Request. now rewrite H. Qed.




(** A header that x-bare-forward-headers names and that the request
    carries goes to the target with the value that the request gives it,
    whatever x-bare-headers says about that header. *)
Theorem forwarded_header_takes_the_value_of_the_request
    (bareData : BareData) (request : Request B) (names : list Json) (outgoing : Headers)
    (name value : jsstring) :
  forwardHeaders bareData = JArray names ->
  buildOutgoingHeaders bareData request = Return outgoing ->
  In (JString name) names ->
  Headers_get name (request_headers request) = Some value ->
  Headers_get name outgoing = Some value.
Proof.
  intros Hf Hb Hin Hv. unfold buildOutgoingHeaders in Hb.
  destruct (entries_of (bare_headers bareData)) as [entries|]; [|discriminate].
  cbn [bind] in Hb.
  destruct (fold_left add_bare_header entries (Return [])) as [bare|]; [|discriminate].
  cbn [bind] in Hb. rewrite Hf in Hb. cbn [iterate bind] in Hb.
  assert (Keep : forall l h h',
             Headers_get name h = Some value ->
             fold_left (forward_header request) l (Return h) = Return h' ->
             Headers_get name h' = Some value).
  { induction l as [|x l IH]; intros h h' Hh Hl; cbn [fold_left] in Hl.
    - injection Hl as <-. exact Hh.
    - unfold forward_header at 2 in Hl. cbn [bind] in Hl.
      destruct (ToString x) as [m|e]; cbn [bind] in Hl.
      + destruct (Headers_get m (request_headers request)) as [v|] eqn:Hm.
        * refine (IH _ _ _ Hl).
          destruct (list_eq_dec N.eq_dec (header_name name) (header_name m)) as [E | E].
          -- rewrite (Headers_get_name name m _ E), Headers_get_set_same.
             rewrite (Headers_get_name name m _ E) in Hv. congruence.
          -- now rewrite Headers_get_set_other.
        * exact (IH _ _ Hh Hl).
      + exfalso. clear - Hl. induction l as [|y l IH]; [discriminate | exact (IH Hl)]. }
  assert (Reach : forall l h h',
             In (JString name) l ->
             fold_left (forward_header request) l (Return h) = Return h' ->
             Headers_get name h' = Some value).
  { induction l as [|x l IH]; intros h h' Hi Hl; [destruct Hi|].
    cbn [fold_left] in Hl. unfold forward_header at 2 in Hl. cbn [bind] in Hl.
    destruct Hi as [-> | Hi].
    - cbn [ToString bind] in Hl. rewrite Hv in Hl.
      exact (Keep _ _ _ (Headers_get_set_same name value h) Hl).
    - destruct (ToString x) as [m|e]; cbn [bind] in Hl.
      + destruct (Headers_get m (request_headers request)); exact (IH _ _ Hi Hl).
      + exfalso. clear - Hl. induction l as [|y l IH]; [discriminate | exact (IH Hl)]. }
  exact (Reach _ _ _ Hin Hb).
Qed.

End RelayFacts.

Section LegacyRelayFacts.

Variable B : Type.
Variable fetch : jsstring -> jsstring -> Headers -> option B -> completion (Upstream B).
Variable randomUUID : jsstring.
Variable searchParams_get : URL -> jsstring -> option jsstring.

(** The legacy handler looks for a target in the query parameter [url]
    and in x-bare-url to decide whether to answer with the description of
    the server, but the request it then serves reads x-bare-url and the
    component headers only: a target named in the query alone is answered
    with the status 400 and MISSING_BARE_URL. Without a target in either
    place the answer is the description of the server, with status 200. *)
Theorem legacy_handler_does_not_read_the_query_target
    (request_url : jsstring) (url : URL) (request : Request B) :
  URL_parse request_url = Some url ->
  Headers_get (js "x-bare-url") (request_headers request) = None ->
  Headers_get (js "x-bare-headers") (request_headers request) = None ->
  Headers_get (js "x-bare-host") (request_headers request) = None ->
  (forall c t, searchParams_get url (js "url") = Some (c :: t) ->
     handleBareRequest B fetch randomUUID searchParams_get request_url request
       CORS_HEADERS STRIP_HEADERS
     = Return (error_response B randomUUID 400 (js "MISSING_BARE_URL")
                 (js "x-bare-url header is required") CORS_HEADERS))
  /\ (present (searchParams_get url (js "url")) = None ->
      exists r,
        handleBareRequest B fetch randomUUID searchParams_get request_url request
          CORS_HEADERS STRIP_HEADERS = Return r
        /\ status r = 200
        /\ body r = Text (JSON_stringify bare_root_info)).
Proof.
  intros Hp Hu Hh Ho. unfold handleBareRequest. rewrite Hp. split.
  - intros c t Hq. rewrite Hq. cbn [present]. f_equal.
    apply handleBareV3Request_BareError with (cause := None).
    unfold proxied, parseBareHeaders. rewrite Hh, Hu, Ho. cbn [present bind].
    unfold buildTargetUrl. cbn [bare_url bare_protocol bare_host present].
    now destruct (present _).
  - intro Hq. rewrite Hq, Hu. cbn [present]. eexists. split; [reflexivity|].
    split; reflexivity.
Qed.

End LegacyRelayFacts.

(** ** stripHeaders *)

Lemma Headers_get_delete (m n : jsstring) (h : Headers) :
  Headers_get m (Headers_delete n h)
  = if jsstring_eqb (header_name m) (header_name n) then None else Headers_get m h.
Proof.
  unfold Headers_get, Headers_delete.
  destruct (jsstring_eqb (header_name m) (header_name n)) eqn:E.
  - apply jsstring_eqb_eq in E. rewrite E. now rewrite filter_filter_same.
  - apply jsstring_eqb_neq in E. now rewrite filter_filter_other.
Qed.

(** After [stripHeaders(headers, toStrip)] a header named in [toStrip],
    in whatever case, is absent, and every other header has the value it
    had. *)
Theorem stripHeaders_removes_exactly_the_listed (h : Headers) (toStrip : list jsstring)
    (name : jsstring) :
  Headers_get name (stripHeaders h toStrip)
  = if existsb (fun n => jsstring_eqb (header_name name) (header_name n)) toStrip
    then None else Headers_get name h.
Proof.
  unfold stripHeaders. revert h.
  induction toStrip as [|n l IH]; intro h; cbn [fold_left existsb]; [reflexivity|].
  rewrite IH, Headers_get_delete.
  destruct (jsstring_eqb (header_name name) (header_name n)); cbn [orb];
    [now destruct (existsb _ l) | reflexivity].
Qed.

(* ===================================================================== *)
(** * Further properties of discovery                                     *)
(* ===================================================================== *)

Lemma isValidNode_url node :
  isValidNode node = true ->
  node_url (normalizeNode node) <> []
  /\ exists u, URL_parse (node_url (normalizeNode node)) = Some u.
Proof.
  unfold isValidNode, normalizeNode. destruct node as [| | | | |props]; try discriminate.
  cbn [node_url].
  destruct (props_lookup (js "url") props) as [[| | |[|c s]| |]|]; try discriminate.
  destruct (URL_parse (c :: s)) as [u|]; [|discriminate].
  intros _. split; [discriminate | now exists u].
Qed.

Section DiscoveryFacts.

Variable registry : URL -> list (jsstring * jsstring) -> RegistryReply.

Lemma fetched_nodes_valid f d ns :
  fetched_nodes registry f d = Return ns ->
  exists items, ns = map normalizeNode (filter isValidNode items).
Proof.
  unfold fetched_nodes.
  destruct (URL_parse (registryUrl d)); [|discriminate].
  destruct (registry _ _) as [e|ok st body]; [discriminate|].
  destruct (negb ok); [discriminate|].
  destruct body as [data|e]; [|discriminate]. cbn [bind].
  match goal with
  | |- (listed <- ?c ;; _) = _ -> _ => destruct c as [listed|e]; [|discriminate]
  end.
  cbn [bind]. destruct listed; try discriminate.
  intros [= <-]. now eexists.
Qed.

(** When [fetchNodes] resolves, the cache holds the nodes it resolved
    with, stamped with the time of the call, and each listener was called
    once with them; every node of the cache has a URL that is a non-empty
    string which the URL parser accepts. *)
Theorem fetchNodes_caches_only_valid_nodes
    (now : Z) (f : Filters) (d d' : Discovery) (ns : list RegistryNode)
    (calls : list (nat * list RegistryNode)) :
  fetchNodes registry now f d = (Return ns, d', calls) ->
  nodes d' = ns
  /\ lastFetch d' = now
  /\ registryUrl d' = registryUrl d
  /\ calls = map (fun l => (l, ns)) (listeners d)
  /\ Forall (fun n => node_url n <> [] /\ exists u, URL_parse (node_url n) = Some u) ns.
Proof.
  unfold fetchNodes. destruct (fetched_nodes registry f d) as [ns'|e] eqn:F;
    [|discriminate].
  intros [= <- <- <-]. cbn [nodes lastFetch registryUrl].
  repeat split.
  destruct (fetched_nodes_valid _ _ _ F) as [items ->].
  apply Forall_forall. intros n I. apply in_map_iff in I.
  destruct I as [item [<- I]]. apply filter_In in I. destruct I as [_ V].
  now apply isValidNode_url.
Qed.

(** The age of the cache. After a fetch that resolved at a time [t]
    other than 0 the cache is stale exactly when more than the threshold
    (the argument, or the refresh interval when it is left out or 0) has
    passed since [t]; after [clearCache] or [setRegistryUrl] it holds no
    node and is stale whatever the threshold. *)
Theorem cache_is_stale_after_the_threshold
    (t : Z) (f : Filters) (d d' : Discovery) (ns : list RegistryNode)
    (calls : list (nat * list RegistryNode)) :
  fetchNodes registry t f d = (Return ns, d', calls) ->
  t <> 0 ->
  (forall now maxAge,
      isCacheStale now maxAge d'
      = Z.ltb (number_or maxAge (refreshInterval (discovery_options d))) (now - t))
  /\ (forall now maxAge u,
        isCacheStale now maxAge (clearCache d') = true
        /\ isCacheStale now maxAge (setRegistryUrl u d') = true
        /\ nodes (clearCache d') = []
        /\ nodes (setRegistryUrl u d') = []
        /\ registryUrl (setRegistryUrl u d') = u).
Proof.
  unfold fetchNodes. destruct (fetched_nodes registry f d) as [ns'|e]; [|discriminate].
  intros [= <- <- <-] Ht. split.
  - intros now maxAge. unfold isCacheStale, getTimeSinceLastFetch. cbn [lastFetch].
    apply Z.eqb_neq in Ht. rewrite Ht. reflexivity.
  - intros now maxAge u. repeat split.
Qed.

(** ** discover *)

Lemma addServer_lookup u prio p key :
  servers_get key (servers (fst (addServer u prio p)))
  = if jsstring_eqb key (normalizeUrl u)
    then Some (snd (addServer u prio p))
    else servers_get key (servers p).
Proof.
  unfold addServer.
  destruct (servers_get (normalizeUrl u) (servers p)) as [existing|] eqn:G;
    cbn [fst snd set_servers servers].
  - destruct (jsstring_eqb key (normalizeUrl u)) eqn:E.
    + apply jsstring_eqb_eq in E. subst key.
      rewrite servers_get_update by reflexivity. now rewrite G.
    + apply jsstring_eqb_neq in E. now apply servers_get_update_other.
  - rewrite servers_get_app.
    destruct (jsstring_eqb key (normalizeUrl u)) eqn:E.
    + apply jsstring_eqb_eq in E. subst key. rewrite G. cbn [servers_get url].
      now rewrite jsstring_eqb_refl.
    + destruct (servers_get key (servers p)); [reflexivity|]. cbn [servers_get url].
      replace (jsstring_eqb (normalizeUrl u) key) with false; [reflexivity|].
      symmetry. apply jsstring_eqb_neq. apply jsstring_eqb_neq in E. congruence.
Qed.

Lemma addServer_default_priority u p :
  priority (snd (addServer u None p)) = 10.
Proof.
  unfold addServer. now destruct (servers_get (normalizeUrl u) (servers p)).
Qed.

Lemma addServer_keeps_state u prio p s :
  servers_get (normalizeUrl u) (servers p) = Some s ->
  snd (addServer u prio p)
  = set_priority (match prio with Some v => v | None => 10 end) s.
Proof. intro G. unfold addServer. now rewrite G. Qed.

Lemma add_discovered_other discovered : forall p key,
  (forall n, In n discovered -> normalizeUrl (node_url n) <> key) ->
  servers_get key (servers (add_discovered p discovered)) = servers_get key (servers p).
Proof.
  induction discovered as [|n l IH]; intros p key H; [reflexivity|].
  unfold add_discovered. cbn [fold_left]. fold (add_discovered (fst (addServer (node_url n) None p)) l).
  rewrite IH by (intros n' I; apply H; now right).
  rewrite addServer_lookup.
  replace (jsstring_eqb key (normalizeUrl (node_url n))) with false; [reflexivity|].
  symmetry. apply jsstring_eqb_neq. intro E. apply (H n); [now left | now symmetry].
Qed.

Lemma add_discovered_keeps discovered : forall p key s,
  servers_get key (servers p) = Some s ->
  exists s', servers_get key (servers (add_discovered p discovered)) = Some s'
             /\ (priority s' = priority s \/ priority s' = 10)
             /\ forall v, set_priority v s' = set_priority v s.
Proof.
  induction discovered as [|n l IH]; intros p key s G.
  - exists s. repeat split; auto.
  - unfold add_discovered. cbn [fold_left].
    fold (add_discovered (fst (addServer (node_url n) None p)) l).
    destruct (jsstring_eqb key (normalizeUrl (node_url n))) eqn:E.
    + apply jsstring_eqb_eq in E. subst key.
      destruct (IH (fst (addServer (node_url n) None p)) (normalizeUrl (node_url n))
                  (set_priority 10 s)) as (s' & G' & P' & Q').
      { rewrite addServer_lookup, jsstring_eqb_refl.
        now rewrite (addServer_keeps_state _ _ _ _ G). }
      exists s'. split; [exact G'|]. split.
      * right. destruct P' as [P' | P']; [now rewrite P' | exact P'].
      * intro v. now rewrite Q'.
    + apply IH. now rewrite addServer_lookup, E.
Qed.

Lemma add_discovered_adds discovered : forall p n,
  In n discovered ->
  exists s, servers_get (normalizeUrl (node_url n)) (servers (add_discovered p discovered))
            = Some s
            /\ priority s = 10.
Proof.
  induction discovered as [|x l IH]; intros p n I; [destruct I|].
  unfold add_discovered. cbn [fold_left].
  fold (add_discovered (fst (addServer (node_url x) None p)) l).
  destruct I as [-> | I]; [|now apply IH].
  destruct (add_discovered_keeps l (fst (addServer (node_url n) None p))
              (normalizeUrl (node_url n)) (snd (addServer (node_url n) None p)))
    as (s' & G' & P' & _).
  { now rewrite addServer_lookup, jsstring_eqb_refl. }
  exists s'. split; [exact G'|].
  rewrite addServer_default_priority in P'. now destruct P'.
Qed.

(** When [discover] resolves, it resolves with the URLs of the nodes that
    the registry listed, and the pool holds a server for each of them,
    with the priority 10: a server that the pool held already keeps its
    health, latency and counters but has its priority set back to 10. The
    servers that were not listed are as before. When [discover] rejects,
    the pool is as before. *)
Theorem discover_adds_the_listed_nodes
    (now : Z) (registryUrl client_registryUrl : option jsstring)
    (discovery : option Discovery) (p : ServerPool) :
  let '(result, _, p') := discover registry now registryUrl client_registryUrl discovery p in
  match result with
  | Return urls =>
      (forall u, In u urls ->
         exists s, servers_get (normalizeUrl u) (servers p') = Some s /\ priority s = 10)
      /\ (forall key s, servers_get key (servers p) = Some s ->
            exists s', servers_get key (servers p') = Some s'
                       /\ forall v, set_priority v s' = set_priority v s)
      /\ (forall key, (forall u, In u urls -> normalizeUrl u <> key) ->
            servers_get key (servers p') = servers_get key (servers p))
  | Throw _ => p' = p
  end.
Proof.
  unfold discover.
  match goal with
  | |- context [fetchNodes registry now ?f ?d] =>
      destruct (fetchNodes registry now f d) as [[result d'] calls]
  end.
  destruct result as [discovered|e]; [|reflexivity].
  split; [|split].
  - intros u I. apply in_map_iff in I. destruct I as [n [<- I]].
    now apply add_discovered_adds.
  - intros key s G.
    destruct (add_discovered_keeps discovered p key s G) as (s' & G' & _ & Q').
    now exists s'.
  - intros key H. apply add_discovered_other. intros n I. apply H. now apply in_map.
Qed.

End DiscoveryFacts.

End Platform.

(* ===================================================================== *)
(** * Examples                                                            *)
(* ===================================================================== *)



(** A pool with one node, as [addServer('https://a.example/')] leaves it. *)
Definition default_options : PoolOptions :=
  {| strategy := js "fastest"; healthCheckInterval := 30000; maxFailures := 3;
     recoveryTime := 60000; timeout := 5000 |}.

Definition fresh (u : string) (prio : Z) : ServerInfo :=
  {| url := js u; priority := prio; healthy := true; latency := infinity;
     failCount := 0; lastCheck := 0; successCount := 0; totalRequests := 0 |}.

Definition measured (u : string) (prio : Z) (l : float) : ServerInfo :=
  {| url := js u; priority := prio; healthy := true; latency := l;
     failCount := 0; lastCheck := 1000; successCount := 1; totalRequests := 1 |}.

Definition pool_of (l : list ServerInfo) : ServerPool :=
  {| servers := l; options := default_options; roundRobinIndex := 0 |}.

Lemma new_pool_example :
  fst (addServer plain_URL_parse (js "https://a.example/") None
         (new_ServerPool {| arg_strategy := None; arg_healthCheckInterval := None;
                            arg_maxFailures := None; arg_recoveryTime := None;
                            arg_timeout := None |}))
  = pool_of [fresh "https://a.example" 10].
Proof. vm_compute. reflexivity. Qed.

(** Three failures, then a success, on that pool. *)
Lemma three_failures_then_one_success_example :
  let p := pool_of [fresh "https://a.example" 10] in
  let u := js "https://a.example/" in
  let p3 := reportFailure plain_URL_parse 3
              (u) (reportFailure plain_URL_parse 2 u (reportFailure plain_URL_parse 1 u p)) in
  exists s3 s4,
    servers_get (js "https://a.example") (servers p3) = Some s3
    /\ healthy s3 = false /\ failCount s3 = 3%Z
    /\ servers_get (js "https://a.example")
         (servers (reportSuccess plain_URL_parse 4 u (Some 20%float) p3)) = Some s4
    /\ healthy s4 = true /\ failCount s4 = 0%Z.
Proof.
  cbv zeta.
  destruct (three_failures_then_one_success plain_URL_parse
              (pool_of [fresh "https://a.example" 10]) (js "https://a.example/")
              (fresh "https://a.example" 10) 1 2 3 4 (Some 20%float)
              eq_refl eq_refl eq_refl eq_refl)
    as (s1 & s2 & s3 & s4 & _ & _ & _ & _ & G3 & H3 & F3 & G4 & H4 & F4).
  exists s3, s4. repeat split; assumption.
Defined.

(** Adding again a node that has a history. *)
Lemma addServer_existing_example :
  let s := {| url := js "https://a.example"; priority := 10; healthy := false;
              latency := 42; failCount := 3; lastCheck := 77; successCount := 5;
              totalRequests := 8 |} in
  exists s',
    servers_get (js "https://a.example")
      (servers (fst (addServer plain_URL_parse (js "https://a.example/") (Some 2%Z)
                       (pool_of [s; fresh "https://b.example" 10])))) = Some s'
    /\ priority s' = 2%Z /\ healthy s' = false /\ latency s' = 42%float
    /\ failCount s' = 3%Z /\ successCount s' = 5%Z /\ totalRequests s' = 8%Z.
Proof.
  cbv zeta.
  destruct (addServer_existing_keeps_state plain_URL_parse
              (pool_of [{| url := js "https://a.example"; priority := 10; healthy := false;
                           latency := 42; failCount := 3; lastCheck := 77;
                           successCount := 5; totalRequests := 8 |};
                        fresh "https://b.example" 10])
              (js "https://a.example/") (Some 2%Z) _ eq_refl)
    as [(s' & G & _ & P & _ & H & L & F & _ & S & T) _].
  exists s'. repeat split; assumption.
Defined.

(** ** Failover *)

Definition always_fails (u : jsstring) (attempt : nat) : Attempt unit :=
  Failed (Error "BareError" "FETCH_ERROR" (js "Fetch failed: connection refused") None) false.

Definition tried (u : string) (t : Z) : ServerInfo :=
  {| url := js u; priority := 10; healthy := true; latency := infinity;
     failCount := 1; lastCheck := t; successCount := 0; totalRequests := 1 |}.

Definition two_nodes : ServerPool :=
  pool_of [fresh "https://a.example" 10; fresh "https://b.example" 10].

Lemma next_untried_fresh (clock : nat -> Z) (fuel : nat) (st : ClientState)
    (attempted : list jsstring) (s : ServerInfo) :
  existsb (jsstring_eqb (url s)) attempted = false ->
  next_untried plain_URL_parse clock fuel st attempted (Some s) = Some (Return (st, Some s)).
Proof.
  intro H. destruct fuel; cbn [next_untried]; now rewrite H.
Qed.

Lemma next_untried_tried (clock : nat -> Z) (fuel : nat) (st : ClientState)
    (attempted : list jsstring) (s : ServerInfo) :
  existsb (jsstring_eqb (url s)) attempted = true ->
  next_untried plain_URL_parse clock (S fuel) st attempted (Some s)
  = match getNextServer plain_URL_parse (clock (ticks st)) (url s) (pool st) with
    | Return (p', next) =>
        next_untried plain_URL_parse clock fuel {| pool := p'; ticks := S (ticks st) |}
          attempted next
    | Throw e => Some (Throw e)
    end.
Proof.
  intro H. cbn [next_untried]. now rewrite H.
Qed.

(** Between two healthy servers that were both tried, the loop goes from
    one to the other for as long as it is run. *)
Lemma next_untried_alternates (clock : nat -> Z) (t1 t2 : Z) (fuel : nat) :
  forall n,
    let st := {| pool := pool_of [tried "https://a.example" t1; tried "https://b.example" t2];
                 ticks := n |} in
    let attempted := [js "https://a.example"; js "https://b.example"] in
    next_untried plain_URL_parse clock fuel st attempted
      (Some (tried "https://a.example" t1)) = None
    /\ next_untried plain_URL_parse clock fuel st attempted
         (Some (tried "https://b.example" t2)) = None.
Proof.
  induction fuel as [|fuel IH]; intro n; cbv zeta.
  - split; reflexivity.
  - split; rewrite next_untried_tried by reflexivity; cbn [pool ticks].
    + replace (getNextServer plain_URL_parse (clock n) (url (tried "https://a.example" t1))
                 (pool_of [tried "https://a.example" t1; tried "https://b.example" t2]))
        with (Return (pool_of [tried "https://a.example" t1; tried "https://b.example" t2],
                      Some (tried "https://b.example" t2)))
        by (vm_compute; reflexivity).
      apply IH.
    + replace (getNextServer plain_URL_parse (clock n) (url (tried "https://b.example" t2))
                 (pool_of [tried "https://a.example" t1; tried "https://b.example" t2]))
        with (Return (pool_of [tried "https://a.example" t1; tried "https://b.example" t2],
                      Some (tried "https://a.example" t1)))
        by (vm_compute; reflexivity).
      apply IH.
Qed.

Lemma attempts_unfold (clock : nat -> Z) (fuel remaining attempt : nat) (st : ClientState)
    (attempted : list jsstring) (lastError : option JsError) :
  attempts plain_URL_parse no_message unit clock always_fails fuel (S remaining) attempt st
    attempted lastError
  = match selectServer (clock (ticks st)) (pool st) with
    | Throw e => (Rejected e, st)
    | Return (p1, selected) =>
        match next_untried plain_URL_parse clock fuel {| pool := p1; ticks := S (ticks st) |}
                attempted selected with
        | None => (NeverSettles, st)
        | Some (Throw e) => (Rejected e, st)
        | Some (Return (st2, None)) =>
            (Rejected (all_servers_failed no_message attempted lastError), st2)
        | Some (Return (st2, Some server)) =>
            match always_fails (url server) attempt with
            | Fetched response elapsed =>
                (Resolved response,
                 {| pool := reportSuccess plain_URL_parse (clock (ticks st2)) (url server)
                              (Some elapsed) (pool st2);
                    ticks := S (ticks st2) |})
            | Failed error signal_aborted =>
                if is_abort error signal_aborted
                then (Rejected error,
                      {| pool := reportFailure plain_URL_parse (clock (ticks st2)) (url server)
                                   (pool st2);
                         ticks := S (ticks st2) |})
                else attempts plain_URL_parse no_message unit clock always_fails fuel remaining
                       (S attempt)
                       {| pool := reportFailure plain_URL_parse (clock (ticks st2)) (url server)
                                    (pool st2);
                          ticks := S (ticks st2) |}
                       (set_add (url server) attempted) (Some error)
            end
        end
    end.
Proof. reflexivity. Qed.

(** C6 where it fails: two healthy nodes that always fail, and the default
    of three attempts. The first two attempts try the two nodes; in the
    third, the loop that looks for an untried node never ends, so the
    operation does not fail with ALL_SERVERS_FAILED: it never settles,
    however long the loop is run. *)
Theorem failover_never_settles_after_two_tried_nodes (fuel : nat) (clock : nat -> Z) :
  fst (OpenBareClient_fetch plain_URL_parse no_message unit clock always_fails fuel 3 None
         {| pool := two_nodes; ticks := 0 |})
  = NeverSettles.
Proof.
  unfold OpenBareClient_fetch. 
  change (Z.to_nat (number_or None 3)) with 3%nat.
  rewrite attempts_unfold. cbn [pool ticks].
  replace (selectServer (clock 0%nat) two_nodes)
    with (Return (two_nodes, Some (fresh "https://a.example" 10)))
    by (vm_compute; reflexivity).
  rewrite next_untried_fresh by reflexivity.
  cbn [always_fails is_abort error_code]. cbn [String.eqb orb]. 
  replace (String.eqb "FETCH_ERROR" "ABORT") with false by reflexivity. cbn [orb].
  cbn [pool ticks].
  replace (reportFailure plain_URL_parse (clock 1%nat) (url (fresh "https://a.example" 10)) two_nodes)
    with (pool_of [tried "https://a.example" (clock 1%nat); fresh "https://b.example" 10])
    by (vm_compute; reflexivity).
  replace (set_add (url (fresh "https://a.example" 10)) [])
    with [js "https://a.example"] by (vm_compute; reflexivity).
  rewrite attempts_unfold. cbn [pool ticks].
  replace (selectServer (clock 2%nat)
             (pool_of [tried "https://a.example" (clock 1%nat); fresh "https://b.example" 10]))
    with (Return (pool_of [tried "https://a.example" (clock 1%nat); fresh "https://b.example" 10],
                  Some (tried "https://a.example" (clock 1%nat))))
    by (vm_compute; reflexivity).
  destruct fuel as [|fuel]; [reflexivity|].
  rewrite next_untried_tried by reflexivity. cbn [pool ticks].
  replace (getNextServer plain_URL_parse (clock 3%nat) (url (tried "https://a.example" (clock 1%nat)))
             (pool_of [tried "https://a.example" (clock 1%nat); fresh "https://b.example" 10]))
    with (Return (pool_of [tried "https://a.example" (clock 1%nat); fresh "https://b.example" 10],
                  Some (fresh "https://b.example" 10)))
    by (vm_compute; reflexivity).
  rewrite next_untried_fresh by reflexivity.
  cbn [always_fails is_abort error_code].
  replace (String.eqb "FETCH_ERROR" "ABORT") with false by reflexivity. cbn [orb].
  cbn [pool ticks].
  replace (reportFailure plain_URL_parse (clock 4%nat) (url (fresh "https://b.example" 10))
             (pool_of [tried "https://a.example" (clock 1%nat); fresh "https://b.example" 10]))
    with (pool_of [tried "https://a.example" (clock 1%nat); tried "https://b.example" (clock 4%nat)])
    by (vm_compute; reflexivity).
  replace (set_add (url (fresh "https://b.example" 10)) [js "https://a.example"])
    with [js "https://a.example"; js "https://b.example"] by (vm_compute; reflexivity).
  rewrite attempts_unfold. cbn [pool ticks].
  replace (selectServer (clock 5%nat)
             (pool_of [tried "https://a.example" (clock 1%nat); tried "https://b.example" (clock 4%nat)]))
    with (Return (pool_of [tried "https://a.example" (clock 1%nat); tried "https://b.example" (clock 4%nat)],
                  Some (tried "https://a.example" (clock 1%nat))))
    by (vm_compute; reflexivity).
  destruct (next_untried_alternates clock (clock 1%nat) (clock 4%nat) (S fuel) 6) as [L _].
  cbv zeta in L. rewrite L. reflexivity.
Qed.

(** With two attempts allowed, the same two nodes are each tried once and
    the operation fails with ALL_SERVERS_FAILED, the count being 2 and the
    cause the last error. *)
Lemma failover_two_nodes_two_attempts_example (clock : nat -> Z) (fuel : nat) :
  fst (OpenBareClient_fetch plain_URL_parse no_message unit clock always_fails (S fuel) 3
         (Some 2%Z) {| pool := two_nodes; ticks := 0 |})
  = Rejected
      (Error "BareError" "ALL_SERVERS_FAILED"
         (js "All servers failed after 2 attempts: Fetch failed: connection refused")
         (Some (Error "BareError" "FETCH_ERROR" (js "Fetch failed: connection refused") None))).
Proof.
  unfold OpenBareClient_fetch.
  change (Z.to_nat (number_or (Some 2%Z) 3)) with 2%nat.
  rewrite attempts_unfold. cbn [pool ticks].
  replace (selectServer (clock 0%nat) two_nodes)
    with (Return (two_nodes, Some (fresh "https://a.example" 10)))
    by (vm_compute; reflexivity).
  rewrite next_untried_fresh by reflexivity.
  cbn [always_fails is_abort error_code].
  replace (String.eqb "FETCH_ERROR" "ABORT") with false by reflexivity. cbn [orb].
  cbn [pool ticks].
  replace (reportFailure plain_URL_parse (clock 1%nat) (url (fresh "https://a.example" 10)) two_nodes)
    with (pool_of [tried "https://a.example" (clock 1%nat); fresh "https://b.example" 10])
    by (vm_compute; reflexivity).
  replace (set_add (url (fresh "https://a.example" 10)) [])
    with [js "https://a.example"] by (vm_compute; reflexivity).
  rewrite attempts_unfold. cbn [pool ticks].
  replace (selectServer (clock 2%nat)
             (pool_of [tried "https://a.example" (clock 1%nat); fresh "https://b.example" 10]))
    with (Return (pool_of [tried "https://a.example" (clock 1%nat); fresh "https://b.example" 10],
                  Some (tried "https://a.example" (clock 1%nat))))
    by (vm_compute; reflexivity).
  rewrite next_untried_tried by reflexivity. cbn [pool ticks].
  replace (getNextServer plain_URL_parse (clock 3%nat) (url (tried "https://a.example" (clock 1%nat)))
             (pool_of [tried "https://a.example" (clock 1%nat); fresh "https://b.example" 10]))
    with (Return (pool_of [tried "https://a.example" (clock 1%nat); fresh "https://b.example" 10],
                  Some (fresh "https://b.example" 10)))
    by (vm_compute; reflexivity).
  rewrite next_untried_fresh by reflexivity.
  cbn [always_fails is_abort error_code].
  replace (String.eqb "FETCH_ERROR" "ABORT") with false by reflexivity. cbn [orb].
  vm_compute. reflexivity.
Qed.

(** ** The latency estimate *)

(** C4 as stated fails on the code. A node whose estimate is 100 ms gets a
    success report with a sample of 101 ms: the estimate stays 100, which
    is not 0.7 * 100 + 0.3 * 101. A node without estimate gets a success
    report with a sample of 0 ms: the estimate stays Infinity and does not
    become the sample. *)
Lemma latency_estimate_is_not_the_weighted_sum :
  option_map latency
    (servers_get (js "https://a.example")
       (servers (reportSuccess plain_URL_parse 2000 (js "https://a.example/") (Some 101%float)
                   (pool_of [measured "https://a.example" 10 100]))))
  = Some 100%float
  /\ PrimFloat.eqb 100 (100 * 0.7 + 101 * 0.3) = false
  /\ option_map latency
       (servers_get (js "https://a.example")
          (servers (reportSuccess plain_URL_parse 2000 (js "https://a.example/") (Some 0%float)
                      (pool_of [fresh "https://a.example" 10]))))
     = Some infinity
  /\ PrimFloat.eqb infinity 0 = false.
Proof.
  repeat split; vm_compute; reflexivity.
Qed.

(** The rule of the code on the same node: the rounded weighted sum. *)
Lemma latency_estimate_after_success_example :
  servers_get (normalizeUrl plain_URL_parse (js "https://a.example/"))
    (servers (pool_of [measured "https://a.example" 10 100]))
  = Some (measured "https://a.example" 10 100)
  /\ exists s',
       servers_get (js "https://a.example")
         (servers (reportSuccess plain_URL_parse 2000 (js "https://a.example/") (Some 101%float)
                     (pool_of [measured "https://a.example" 10 100]))) = Some s'
       /\ latency s' = Math_round (100 * 0.7 + 101 * 0.3)%float
       /\ latency s' = 100%float.
Proof.
  split; [reflexivity|].
  destruct (latency_estimate_after_success plain_URL_parse
              (pool_of [measured "https://a.example" 10 100]) (js "https://a.example/")
              2000 (Some 101%float) (measured "https://a.example" 10 100) eq_refl)
    as (s' & G & _ & R & _ & _).
  exists s'. split; [exact G|].
  assert (E : latency s' = Math_round (100 * 0.7 + 101 * 0.3)%float)
    by (apply (R 101%float); reflexivity).
  split; [exact E|]. rewrite E. vm_compute. reflexivity.
Defined.

(** ** Selection *)

(** The healthy nodes A, B, C with latencies 50, 30 and 40. *)
Definition pool_abc : ServerPool :=
  pool_of [measured "https://a.example" 10 50; measured "https://b.example" 10 30;
           measured "https://c.example" 10 40].

Example fastest_of_three :
  selectServer 5000 pool_abc = Return (pool_abc, Some (measured "https://b.example" 10 30)).
Proof. vm_compute. reflexivity. Qed.

(** The healthy nodes A and B with the same latency and priorities 5 and 1. *)
Definition pool_tie : ServerPool :=
  pool_of [measured "https://a.example" 5 30; measured "https://b.example" 1 30].

Example fastest_breaks_tie_by_priority :
  selectServer 5000 pool_tie = Return (pool_tie, Some (measured "https://b.example" 1 30)).
Proof. vm_compute. reflexivity. Qed.

Lemma fastest_selects_minimum_example :
  exists r,
    selectServer 5000 pool_abc = Return (fst (getHealthyServers 5000 pool_abc), Some r)
    /\ In r (snd (getHealthyServers 5000 pool_abc))
    /\ (forall t, In t (snd (getHealthyServers 5000 pool_abc)) ->
          PrimFloat.leb (latency r) (latency t) = true).
Proof.
  destruct (fastest_selects_minimum 5000 pool_abc eq_refl)
    as (r & S & I & M).
  - vm_compute. discriminate.
  - vm_compute. repeat constructor.
  - exists r. split; [exact S|]. split; [exact I|].
    intros t Ht. now apply M.
Defined.

(** ** The relay *)

Definition headers_of (l : list (string * string)) : Headers :=
  Headers_of (map (fun kv => (js (fst kv), js (snd kv))) l).

(** A redirect of the target with a header of the deny-list. *)
Definition redirect : Upstream unit :=
  {| up_status := 302;
     up_statusText := js "Found";
     up_headers := headers_of [("Location", "https://example.com/next");
                               ("Content-Type", "text/html");
                               ("X-Frame-Options", "DENY")]%string;
     up_body := tt |}.

Definition target (u method : jsstring) (h : Headers) (b : option unit)
  : completion (Upstream unit) := Return redirect.

(** A request that names the header of the deny-list in
    x-bare-pass-headers, as a JSON array. *)
Definition passing_request : Request unit :=
  {| request_method := js "GET";
     request_headers :=
       Headers_of [(js "X-Bare-URL", js "https://example.com/");
                   (js "X-Bare-Headers", JSON_stringify integer_toString (JObject []));
                   (js "X-Bare-Pass-Headers",
                    JSON_stringify integer_toString (JArray [JString (js "x-frame-options")]))];
     request_body := tt |}.

Definition relay (request : Request unit) : Response unit :=
  handleBareV3 plain_URL_parse latin1_toLowerCase integer_toString integer_of_literal
    no_message array_prototype_has integer_parseInt unit target (js "id") request.


(** C8 as stated fails on the code: the request names x-frame-options in
    x-bare-pass-headers, the list is read, the target sends the header,
    and the header is not among those that x-bare-headers carries. *)
Lemma passed_header_is_not_surfaced :
  (exists d,
      parseBareHeaders integer_of_literal integer_parseInt passing_request = Return d
      /\ passHeaders d = JArray [JString (js "x-frame-options")])
  /\ Headers_get (js "x-frame-options") (up_headers redirect) = Some (js "DENY")
  /\ Headers_get (js "x-bare-headers") (headers (relay passing_request))
     = Some (JSON_stringify integer_toString
               (JObject [(js "content-type", JString (js "text/html"));
                         (js "location", JString (js "https://example.com/next"))]))
  /\ props_lookup (js "x-frame-options")
       (own (collected_headers latin1_toLowerCase array_prototype_has (up_headers redirect)
               STRIP_HEADERS)) = None.
Proof.
  split; [eexists; split; vm_compute; reflexivity|].
  repeat split; vm_compute; reflexivity.
Qed.

Lemma deny_list_applies_to_passed_headers_example :
  Headers_get (js "x-bare-headers") (headers (relay passing_request))
  = Some (JSON_stringify integer_toString
            (dict_json (collected_headers latin1_toLowerCase array_prototype_has
                          (up_headers redirect) STRIP_HEADERS)))
  /\ forall name,
       In name (map fst (own (collected_headers latin1_toLowerCase array_prototype_has
                                (up_headers redirect) STRIP_HEADERS))) ->
       existsb (jsstring_eqb (toLowerCase latin1_toLowerCase name)) STRIP_HEADERS = false.
Proof.
  destruct (parseBareHeaders integer_of_literal integer_parseInt passing_request)
    as [d|e] eqn:P; [|vm_compute in P; discriminate P].
  destruct (deny_list_applies_to_passed_headers plain_URL_parse latin1_toLowerCase
              integer_toString integer_of_literal no_message array_prototype_has
              integer_parseInt unit target (js "id") passing_request CORS_HEADERS
              STRIP_HEADERS d redirect P)
    as (_ & _ & X & K).
  - vm_compute. reflexivity.
  - split; [exact X | exact K].
Defined.

(** ** The header codec *)

Definition mixed_case_headers : header_map :=
  [(js "Content-Type", js "application/json");
   (js "X-Upload-Path", js "C:\temp");
   (js "accept", js "*/*")].

(** A header map of mixed case goes through the codec with its keys
    lower-cased. *)
Lemma header_codec_round_trip_example :
  Forall (fun kv => toLowerCase latin1_toLowerCase (fst kv) <> proto_key) mixed_case_headers
  /\ exists token,
       encodeHeaders latin1_toLowerCase integer_toString
         (Some (header_map_json mixed_case_headers)) = Return token
       /\ decodeHeaders integer_of_literal (Some token)
          = Return (header_map_json
                      [(js "content-type", js "application/json");
                       (js "x-upload-path", js "C:\temp");
                       (js "accept", js "*/*")]).
Proof.
  assert (F : Forall (fun kv => toLowerCase latin1_toLowerCase (fst kv) <> proto_key)
                     mixed_case_headers)
    by (repeat constructor; vm_compute; discriminate).
  split; [exact F|].
  exact (header_codec_round_trip latin1_toLowerCase integer_toString integer_of_literal
           mixed_case_headers F).
Defined.

(* ===================================================================== *)
(** * Further examples                                                    *)
(* ===================================================================== *)

(** ** The server pool *)

Lemma two_nodes_distinct : NoDup (map url (servers two_nodes)).
Proof.
  vm_compute. repeat constructor; cbn; intuition discriminate.
Defined.

(** A third server joins two. *)
Lemma addServer_new_record_example :
  servers (fst (addServer plain_URL_parse (js "https://c.example/") (Some 1%Z) two_nodes))
  = servers two_nodes ++ [fresh "https://c.example" 1].
Proof.
  destruct (addServer_new_record plain_URL_parse two_nodes (js "https://c.example/")
              (Some 1%Z) eq_refl) as (E & S & _).
  rewrite S, E. reflexivity.
Defined.

Lemma removeServer_removes_example :
  snd (removeServer plain_URL_parse (js "https://a.example/") two_nodes) = true
  /\ servers_get (js "https://a.example")
       (servers (fst (removeServer plain_URL_parse (js "https://a.example/") two_nodes)))
     = None
  /\ servers_get (js "https://b.example")
       (servers (fst (removeServer plain_URL_parse (js "https://a.example/") two_nodes)))
     = Some (fresh "https://b.example" 10).
Proof.
  destruct (removeServer_removes plain_URL_parse two_nodes (js "https://a.example/")
              two_nodes_distinct) as (T & G & O & _).
  split; [|split].
  - apply T. vm_compute. now left.
  - exact G.
  - rewrite O; [reflexivity | vm_compute; discriminate].
Defined.

Lemma removeServer_undoes_addServer_example :
  removeServer plain_URL_parse (js "https://c.example")
    (fst (addServer plain_URL_parse (js "https://c.example/") None two_nodes))
  = (two_nodes, true).
Proof.
  exact (removeServer_undoes_addServer plain_URL_parse two_nodes (js "https://c.example/")
           None eq_refl).
Defined.

Lemma report_about_unknown_server_example :
  reportSuccess plain_URL_parse 1000 (js "https://c.example") (Some 20%float) two_nodes
  = two_nodes
  /\ reportFailure plain_URL_parse 1000 (js "https://c.example") two_nodes = two_nodes.
Proof.
  exact (report_about_unknown_server plain_URL_parse two_nodes (js "https://c.example")
           1000 (Some 20%float) eq_refl).
Defined.

(** The servers A, B and C with the priorities 5, 1 and 1, under the
    strategy 'priority'. *)
Definition pool_by_priority : ServerPool :=
  {| servers := [measured "https://a.example" 5 30; measured "https://b.example" 1 50;
                 measured "https://c.example" 1 40];
     options := {| strategy := js "priority"; healthCheckInterval := 30000;
                   maxFailures := 3; recoveryTime := 60000; timeout := 5000 |};
     roundRobinIndex := 0 |}.

Example priority_of_three :
  selectServer 5000 pool_by_priority
  = Return (pool_by_priority, Some (measured "https://b.example" 1 50)).
Proof. vm_compute. reflexivity. Qed.

Lemma priority_selects_lowest_value_example :
  exists r before after,
    selectServer 5000 pool_by_priority
    = Return (fst (getHealthyServers 5000 pool_by_priority), Some r)
    /\ snd (getHealthyServers 5000 pool_by_priority) = before ++ r :: after
    /\ Forall (fun t => (priority r < priority t)%Z) before
    /\ Forall (fun t => (priority r <= priority t)%Z) after.
Proof.
  apply (priority_selects_lowest_value 5000 pool_by_priority eq_refl).
  vm_compute. discriminate.
Defined.

Lemma selectServer_null_iff_none_healthy_example :
  exists p' r,
    selectServer 5000 pool_abc = Return (p', r)
    /\ servers p' = servers (fst (getHealthyServers 5000 pool_abc))
    /\ (r = None <-> snd (getHealthyServers 5000 pool_abc) = [])
    /\ (forall s, r = Some s ->
          In s (snd (getHealthyServers 5000 pool_abc)) /\ healthy s = true).
Proof.
  apply (selectServer_null_iff_none_healthy 5000 pool_abc). vm_compute. discriminate.
Defined.

(** The servers A, B and C under the strategy 'round-robin'. *)
Definition pool_in_turn : ServerPool :=
  {| servers := [fresh "https://a.example" 10; fresh "https://b.example" 10;
                 fresh "https://c.example" 10];
     options := {| strategy := js "round-robin"; healthCheckInterval := 30000;
                   maxFailures := 3; recoveryTime := 60000; timeout := 5000 |};
     roundRobinIndex := 0 |}.

Lemma round_robin_takes_each_server_in_turn_example :
  exists p',
    selectServer_calls [1000; 2000; 3000]%Z pool_in_turn
    = Return (p', [Some (fresh "https://a.example" 10); Some (fresh "https://b.example" 10);
                   Some (fresh "https://c.example" 10)]).
Proof.
  destruct (round_robin_takes_each_server_in_turn [1000; 2000; 3000]%Z pool_in_turn
              eq_refl) as [_ H].
  - vm_compute. discriminate.
  - reflexivity.
  - vm_compute. discriminate.
  - exact (H eq_refl eq_refl).
Defined.

(** ** The failover client *)

Definition steady_clock (tick : nat) : Z := (1000 + Z.of_nat tick)%Z.

(** A client without servers. *)
Lemma fetch_without_healthy_server_example :
  fst (OpenBareClient_fetch plain_URL_parse no_message unit steady_clock always_fails 1 3 None
         {| pool := new_client_pool plain_URL_parse [] None; ticks := 0 |})
  = Rejected (Error "BareError" "ALL_SERVERS_FAILED"
                (js "All servers failed after 0 attempts: Unknown error") None).
Proof.
  exact (fetch_without_healthy_server plain_URL_parse no_message unit steady_clock
           always_fails 1 3 None
           {| pool := new_client_pool plain_URL_parse [] None; ticks := 0 |} eq_refl).
Defined.

(** A client with one server, which refuses the connection. *)
Lemma fetch_single_server_fails_once_example :
  fst (OpenBareClient_fetch plain_URL_parse no_message unit steady_clock always_fails 1 3 None
         {| pool := new_client_pool plain_URL_parse [js "https://a.example/"] None;
            ticks := 0 |})
  = Rejected (Error "BareError" "ALL_SERVERS_FAILED"
                (js "All servers failed after 1 attempts: Fetch failed: connection refused")
                (Some (Error "BareError" "FETCH_ERROR"
                         (js "Fetch failed: connection refused") None))).
Proof.
  exact (fetch_single_server_fails_once plain_URL_parse no_message unit steady_clock
           always_fails 1 3 None
           {| pool := new_client_pool plain_URL_parse [js "https://a.example/"] None;
              ticks := 0 |}
           (fresh "https://a.example" 10) _ false
           eq_refl eq_refl eq_refl (Z.le_refl 0) eq_refl eq_refl
           (Zle_bool_imp_le 1 3 eq_refl) (le_n 1)).
Defined.

(** The server A refuses the connection and the server B answers. *)
Definition only_b_answers (u : jsstring) (attempt : nat) : Attempt unit :=
  if jsstring_eqb u (js "https://b.example") then Fetched tt 25
  else Failed (Error "BareError" "FETCH_ERROR" (js "Fetch failed: connection refused") None)
         false.

Lemma fetch_fails_over_to_the_live_server_example :
  fst (OpenBareClient_fetch plain_URL_parse no_message unit steady_clock only_b_answers 1 3 None
         {| pool := two_nodes; ticks := 0 |})
  = Resolved tt.
Proof.
  apply (fetch_fails_over_to_the_live_server plain_URL_parse no_message unit steady_clock
           only_b_answers 1 3 None {| pool := two_nodes; ticks := 0 |}
           (fresh "https://b.example" 10) (js "https://a.example")
           (Error "BareError" "FETCH_ERROR" (js "Fetch failed: connection refused") None)
           false tt 25).
  - right. now left.
  - reflexivity.
  - intros s [<- | [<- | []]]; [now right | now left].
  - vm_compute. discriminate.
  - reflexivity.
  - vm_compute. discriminate.
  - reflexivity.
  - reflexivity.
  - reflexivity.
  - vm_compute. discriminate.
  - apply le_n.
Defined.

(** ** The codec *)

Lemma code_units_check (s : jsstring) :
  forallb (fun c => N.ltb c 65536) s = true -> Forall (fun c => (c < 65536)%N) s.
Proof.
  intro H. apply Forall_forall. intros c Hc. apply N.ltb_lt.
  rewrite forallb_forall in H. now apply H.
Defined.

Lemma xor_is_an_involution_example :
  exists t, xor (VJson (JString (js "https://example.com/"))) 2 = Return t
            /\ length t = length (js "https://example.com/")
            /\ xor (VJson (JString t)) 2 = Return (js "https://example.com/").
Proof.
  apply (xor_is_an_involution (js "https://example.com/") 2).
  apply code_units_check. vm_compute. reflexivity.
Defined.

(** The word "café" followed by the euro sign: the sign, U+20AC, comes
    back as U+00AC. *)
Lemma codec_url_truncates_with_Buffer_example :
  exists token,
    encodeUrl false (VJson (JString (js "caf" ++ [233; 8364]%N))) = Return token
    /\ decodeUrl false (VJson (JString token)) = Return (js "caf" ++ [233; 172]%N).
Proof.
  apply (codec_url_truncates_with_Buffer false false (js "caf" ++ [233; 8364]%N)
           eq_refl eq_refl).
  apply code_units_check. vm_compute. reflexivity.
Defined.

Lemma encodeUrl_outside_octets_example :
  encodeUrl true (VJson (JString (js "caf" ++ [233; 8364]%N))) = Throw InvalidCharacterError.
Proof.
  apply (encodeUrl_outside_octets true (js "caf" ++ [233; 8364]%N) eq_refl).
  apply Exists_exists. exists 8364%N. split.
  - vm_compute. tauto.
  - split; reflexivity.
Defined.

(** ** bareFetch *)

(** A stand-in for [new Headers(init)] on an object whose values are
    strings. *)
Definition headers_of_object (init : Json) : completion Headers :=
  match init with
  | JObject props =>
      Return (Headers_of (map (fun kv => (fst kv, match snd kv with
                                                  | JString s => s
                                                  | _ => []
                                                  end)) props))
  | _ => Throw (TypeError "Headers constructor: init is not an object")
  end.

Definition connection_refused (u method : jsstring) (h : list (jsstring * jsstring))
    (b : option unit) : completion (RelayReply unit) :=
  Throw (TypeError "fetch failed").

Definition no_options : BareFetchOptions unit :=
  {| option_method := None; option_headers := None; option_body := None |}.

Lemma bareFetch_rejects_with_a_BareError_example :
  bareFetch plain_URL_parse latin1_toLowerCase integer_toString integer_of_literal
    no_message integer_parseInt unit connection_refused headers_of_object
    (VJson (JString (js "https://relay.example"))) (js "https://example.com/") no_options
  = Throw (Error "BareError" "FETCH_ERROR" (js "Fetch failed: fetch failed")
             (Some (TypeError "fetch failed")))
  /\ exists code message cause,
       Error "BareError" "FETCH_ERROR" (js "Fetch failed: fetch failed")
         (Some (TypeError "fetch failed"))
       = Error "BareError" code message cause
       /\ is_abort (Error "BareError" "FETCH_ERROR" (js "Fetch failed: fetch failed")
                      (Some (TypeError "fetch failed"))) false = false.
Proof.
  assert (E : bareFetch plain_URL_parse latin1_toLowerCase integer_toString
                integer_of_literal no_message integer_parseInt unit connection_refused
                headers_of_object (VJson (JString (js "https://relay.example")))
                (js "https://example.com/") no_options
              = Throw (Error "BareError" "FETCH_ERROR" (js "Fetch failed: fetch failed")
                         (Some (TypeError "fetch failed"))))
    by (vm_compute; reflexivity).
  split; [exact E|].
  destruct (bareFetch_rejects_with_a_BareError _ _ _ _ _ _ _ _ _ _ _ _ _ E)
    as (code & message & cause & Q & _ & A).
  now exists code, message, cause.
Defined.

(** The relay answers 200 for a target that answered 302 Found. *)
Definition relayed_redirect : RelayReply unit :=
  {| reply_status := 200; reply_statusText := js "OK";
     reply_headers := headers (relay passing_request);
     reply_body := Some tt |}.

Lemma client_sees_the_status_of_the_target_example :
  exists r,
    bare_response integer_of_literal integer_parseInt unit headers_of_object
      (js "https://example.com/old") relayed_redirect = Return r
    /\ response_status unit r = 302%float
    /\ response_statusText unit r = js "Found"
    /\ response_ok unit r = false.
Proof.
  destruct (client_sees_the_status_of_the_target latin1_toLowerCase integer_toString
              integer_of_literal array_prototype_has integer_parseInt unit
              headers_of_object unit redirect CORS_HEADERS STRIP_HEADERS relayed_redirect
              (js "https://example.com/old")
              (JObject [(js "content-type", JString (js "text/html"));
                        (js "location", JString (js "https://example.com/next"))])
              (Headers_of [(js "content-type", js "text/html");
                           (js "location", js "https://example.com/next")])
              eq_refl eq_refl eq_refl)
    as (r & R & S & T & _).
  exists r. split; [exact R|]. split; [exact S|]. split; [exact T|].
  assert (R' := R). vm_compute in R'. injection R' as <-. reflexivity.
Defined.

(** A request for a page, with an Accept header of mixed case. *)
Definition page : URL :=
  {| url_href := js "https://example.com/page?q=1";
     url_origin := js "https://example.com";
     url_protocol := js "https:";
     url_host := js "example.com";
     url_port := [];
     url_pathname := js "/page";
     url_search := js "?q=1" |}.

Definition page_request_headers : list (jsstring * jsstring) :=
  match bare_request_headers latin1_toLowerCase integer_toString
          (js "https://example.com/page?q=1") page
          (JObject [(js "Accept", JString (js "text/html"))]) with
  | Return record => record
  | Throw _ => []
  end.

Example page_request_headers_names :
  map fst page_request_headers
  = map js ["x-bare-url"; "x-bare-headers"; "content-type"; "x-bare-host"; "x-bare-port";
            "x-bare-protocol"; "x-bare-path"]%string
  /\ Headers_get (js "x-bare-port") (Headers_of page_request_headers) = Some (js "443").
Proof. split; vm_compute; reflexivity. Qed.

Lemma relay_reads_what_bareFetch_sends_example :
  exists data encoded,
    parseBareHeaders integer_of_literal integer_parseInt
      {| request_method := js "GET"; request_headers := Headers_of page_request_headers;
         request_body := tt |} = Return data
    /\ bare_url data = Some (js "https://example.com/page?q=1")
    /\ buildTargetUrl plain_URL_parse data = Return page
    /\ encodeHeaders latin1_toLowerCase integer_toString
         (Some (JObject [(js "Accept", JString (js "text/html"))])) = Return encoded
    /\ JSON_parse integer_of_literal encoded = Return (bare_headers data).
Proof.
  apply (relay_reads_what_bareFetch_sends plain_URL_parse latin1_toLowerCase
           integer_toString integer_of_literal integer_parseInt unit
           (js "https://example.com/page?q=1") page
           (JObject [(js "Accept", JString (js "text/html"))]) page_request_headers).
  - vm_compute. reflexivity.
  - discriminate.
  - vm_compute. reflexivity.
  - reflexivity.
Defined.

(** ** The relay *)

(** A request that sets Accept through x-bare-headers and asks to forward
    its own Accept header. *)
Definition forwarding_request : Request unit :=
  {| request_method := js "GET";
     request_headers :=
       Headers_of [(js "X-Bare-URL", js "https://example.com/");
                   (js "X-Bare-Headers",
                    JSON_stringify integer_toString
                      (JObject [(js "Accept", JString (js "text/plain"))]));
                   (js "X-Bare-Forward-Headers", js "accept");
                   (js "Accept", js "text/html")];
     request_body := tt |}.

Lemma forwarded_header_takes_the_value_of_the_request_example :
  match parseBareHeaders integer_of_literal integer_parseInt forwarding_request with
  | Return data =>
      match buildOutgoingHeaders integer_toString data forwarding_request with
      | Return outgoing => Headers_get (js "accept") outgoing = Some (js "text/html")
      | Throw _ => False
      end
  | Throw _ => False
  end.
Proof.
  destruct (parseBareHeaders integer_of_literal integer_parseInt forwarding_request)
    as [data|] eqn:P; [|vm_compute in P; discriminate P].
  destruct (buildOutgoingHeaders integer_toString data forwarding_request)
    as [outgoing|] eqn:O;
    [|vm_compute in P; injection P as <-; vm_compute in O; discriminate O].
  apply (forwarded_header_takes_the_value_of_the_request integer_toString unit data
           forwarding_request [JString (js "accept")] outgoing (js "accept")
           (js "text/html")).
  - vm_compute in P. injection P as <-. reflexivity.
  - exact O.
  - now left.
  - reflexivity.
Defined.

(** A target that is not http or https is refused before any request. *)
Example relay_refuses_ftp :
  status (relay {| request_method := js "GET";
                   request_headers := Headers_of [(js "X-Bare-URL", js "ftp://example.com/")];
                   request_body := tt |}) = 400%Z.
Proof. vm_compute. reflexivity. Qed.

(** A stand-in for [url.searchParams.get] that reads the parameter when
    it is the only one, without decoding. *)
Definition only_parameter (u : URL) (name : jsstring) : option jsstring :=
  strip_prefix (js "?" ++ name ++ js "=") (url_search u).

Definition legacy_request : Request unit :=
  {| request_method := js "GET"; request_headers := []; request_body := tt |}.

Lemma legacy_handler_does_not_read_the_query_target_example :
  handleBareRequest plain_URL_parse latin1_toLowerCase integer_toString integer_of_literal
    no_message array_prototype_has integer_parseInt unit target (js "id") only_parameter
    (js "https://edge.example/bare/?url=https://example.com/") legacy_request
    CORS_HEADERS STRIP_HEADERS
  = Return (error_response integer_toString unit (js "id") 400 (js "MISSING_BARE_URL")
              (js "x-bare-url header is required") CORS_HEADERS).
Proof.
  destruct (legacy_handler_does_not_read_the_query_target plain_URL_parse
              latin1_toLowerCase integer_toString integer_of_literal no_message
              array_prototype_has integer_parseInt unit target (js "id") only_parameter
              (js "https://edge.example/bare/?url=https://example.com/")
              {| url_href := js "https://edge.example/bare/?url=https://example.com/";
                 url_origin := js "https://edge.example";
                 url_protocol := js "https:";
                 url_host := js "edge.example";
                 url_port := [];
                 url_pathname := js "/bare/";
                 url_search := js "?url=https://example.com/" |}
              legacy_request eq_refl eq_refl eq_refl eq_refl)
    as [H _].
  eapply H. vm_compute. reflexivity.
Defined.

(** ** Discovery *)

(** A registry that lists two nodes and an entry without a usable URL. *)
Definition listing : Json :=
  JObject [(js "nodes",
            JArray [JObject [(js "url", JString (js "https://a.example/"));
                             (js "region", JString (js "eu"))];
                    JObject [(js "url", JString (js "not a url"))];
                    JObject [(js "url", JString (js "https://b.example"));
                             (js "verified", JBool true)]])].

Definition listing_registry (u : URL) (query : list (jsstring * jsstring)) : RegistryReply :=
  RegistryResponse true 200 (Return listing).

Definition no_filters : Filters :=
  {| filter_region := None; filter_verifiedOnly := false; filter_features := None |}.

Definition listed_nodes : list RegistryNode :=
  [ {| node_url := js "https://a.example/"; node_name := JNull;
       node_region := JString (js "eu"); node_operator := JNull; node_verified := false;
       node_features := []; node_uptime := None |};
    {| node_url := js "https://b.example"; node_name := JNull; node_region := JNull;
       node_operator := JNull; node_verified := true; node_features := [];
       node_uptime := None |} ].

Definition after_listing : Discovery :=
  {| registryUrl := js "https://registry.openbare.org/api/v1/nodes";
     nodes := listed_nodes;
     lastFetch := 5000;
     discovery_options :=
       discovery_options (new_Discovery None None None false);
     listeners := [] |}.

Lemma fetchNodes_caches_only_valid_nodes_example :
  nodes after_listing = listed_nodes
  /\ Forall (fun n => node_url n <> []
                      /\ exists u, plain_URL_parse (node_url n) = Some u) listed_nodes.
Proof.
  destruct (fetchNodes_caches_only_valid_nodes plain_URL_parse no_message listing_registry
              5000 no_filters (new_Discovery None None None false) after_listing
              listed_nodes [] eq_refl) as (N & _ & _ & _ & V).
  now split.
Defined.

Lemma cache_is_stale_after_the_threshold_example :
  isCacheStale 305000 None after_listing = false
  /\ isCacheStale 305001 None after_listing = true
  /\ isCacheStale 5000 (Some 1%Z) (clearCache after_listing) = true.
Proof.
  destruct (cache_is_stale_after_the_threshold plain_URL_parse no_message listing_registry
              5000 no_filters (new_Discovery None None None false) after_listing
              listed_nodes [] eq_refl) as (S & C).
  - discriminate.
  - split; [|split].
    + now rewrite S.
    + now rewrite S.
    + now destruct (C 5000%Z (Some 1%Z) []) as (X & _).
Defined.

(** Discovery on a pool that holds A with the priority 1. *)
Example discover_example :
  let '(result, _, p') :=
    discover plain_URL_parse no_message listing_registry 5000 None None None
      (pool_of [fresh "https://a.example" 1]) in
  result = Return [js "https://a.example/"; js "https://b.example"]
  /\ servers p' = [fresh "https://a.example" 10; fresh "https://b.example" 10].
Proof. vm_compute. split; reflexivity. Qed.
